(** * TextAttack: the attack engine and the word-embedding constraint

    A shallow embedding of [textattack/shared/attack.py] (class [Attack]) and of
    [textattack/constraints/semantics/word_embedding_distance.py]
    (class [WordEmbeddingDistance]), with the properties of the engine's
    constraint cache, filtering pipeline and dataset traversal.

    Python objects whose attributes are mutated ([Attack.constraints_cache],
    [goal_function.num_queries]) live in an explicit [state]; a method is a
    function in a small state-and-exception monad.  An exception leaves the
    mutations made before it in place, as in Python. *)

From Stdlib Require Import String Ascii DecimalString.
From Stdlib Require Import ZArith QArith Lia Bool Arith.
From Stdlib Require Import List Permutation Sorted.
Import ListNotations.

Close Scope Q_scope.
Local Open Scope list_scope.

(* ===================================================================== *)
(** * Part I: definitions                                                *)
(* ===================================================================== *)

(** ** Python values shared by both source files *)

(** The exception classes the two source files raise or let through. *)
Inductive exn : Type :=
| NameError (msg : string)
| ValueError (msg : string)
| RuntimeError (msg : string)
| KeyError (msg : string)
| IndexError (msg : string)
| AttributeError (msg : string).

(** [seq[i]] on a Python sequence: a negative index counts from the end and
    an index outside [-len, len) raises IndexError ([None] here). *)
Definition seq_getitem {A : Type} (l : list A) (i : Z) : option A :=
  let n := Z.of_nat (length l) in
  if (0 <=? i)%Z then nth_error l (Z.to_nat i)
  else if (- n <=? i)%Z then nth_error l (Z.to_nat (n + i))
  else None.

(** [str(i)] / the f-string rendering of an int. *)
Definition str_of_int (z : Z) : string := NilZero.string_of_int (Z.to_int z).

(** [range(n)] as the list of its elements. *)
Definition range (n : nat) : list Z := map Z.of_nat (seq 0 n).

(** Values stored in an [attack_attrs] dict. *)
Inductive AttrValue : Type :=
| VNone
| VStrings (l : list string)
| VInts (l : list Z)
| VStr (s : string).

(** A Python dict with string keys, in insertion order. *)
Definition dict (V : Type) := list (string * V).

Fixpoint dict_get {V : Type} (k : string) (d : dict V) : option V :=
  match d with
  | [] => None
  | (k', v) :: d' => if String.eqb k k' then Some v else dict_get k d'
  end.

(** ** The LRU mapping of the [lru] package ([lru.LRU]) *)

Module LRU.

(** Keys of the constraint cache are pairs [(current_text, candidate)].
    Modelled from the spec: the equality and hash of [AttackedText] (the
    class is not in src) are by rendered text content, so a key is the pair
    of the two rendered texts. *)
Definition key : Type := (string * string)%type.

Definition key_eq_dec (a b : key) : {a = b} + {a <> b}.
Proof. decide equality; apply string_dec. Defined.

(** [size] is the capacity; [items] lists the entries from the most
    recently used to the least recently used one. *)
Record t : Type := mk { size : nat; items : list (key * bool) }.

(** [lru.LRU(size)]: a non-positive size raises ValueError. *)
Definition new (n : Z) : exn + t :=
  if (n <=? 0)%Z then inl (ValueError "Size should be a positive number")
  else inr (mk (Z.to_nat n) []).

Fixpoint lookup (k : key) (l : list (key * bool)) : option bool :=
  match l with
  | [] => None
  | (k', v) :: l' => if key_eq_dec k k' then Some v else lookup k l'
  end.

Definition remove_key (k : key) (l : list (key * bool)) : list (key * bool) :=
  filter (fun e => if key_eq_dec k (fst e) then false else true) l.

(** [k in cache]: membership does not change the recency order. *)
Definition contains (k : key) (c : t) : bool :=
  match lookup k (items c) with Some _ => true | None => false end.

(** [cache[k]]: a hit moves the entry to the head; a miss raises KeyError
    ([None] here). *)
Definition getitem (k : key) (c : t) : option (bool * t) :=
  match lookup k (items c) with
  | Some v => Some (v, mk (size c) ((k, v) :: remove_key k (items c)))
  | None => None
  end.

(** [cache[k] = v]: an existing entry is updated and moved to the head; a
    new entry is added at the head after the least recently used entry was
    dropped when the mapping would exceed its capacity. *)
Definition setitem (k : key) (v : bool) (c : t) : t :=
  match lookup k (items c) with
  | Some _ => mk (size c) ((k, v) :: remove_key k (items c))
  | None =>
      let rest := if size c <? S (length (items c))
                  then removelast (items c) else items c in
      mk (size c) ((k, v) :: rest)
  end.

Definition keys (c : t) : list key := map fst (items c).

(** The representation invariant of the mapping. *)
Definition wf (c : t) : Prop :=
  0 < size c /\ length (items c) <= size c /\ NoDup (keys c).

(** A list of keys [T] fits in [n] slots when no duplicate-free selection
    of its keys is longer than [n]: [T] has at most [n] distinct keys. *)
Definition fits (T : list key) (n : nat) : Prop :=
  forall L, NoDup L -> incl L T -> length L <= n.

(** The keys [T] are the most recently used ones: they make up a prefix of
    the recency list. *)
Definition recent (T : list key) (c : t) : Prop :=
  exists l1 l2, items c = l1 ++ l2 /\ (forall k, In k (map fst l1) <-> In k T).

(** A sequence of assignments [cache[k] = v]. *)
Definition writes (W : list (key * bool)) (c : t) : t :=
  fold_left (fun c e => setitem (fst e) (snd e) c) W c.

(** The value of the last assignment to [k] in [W]. *)
Fixpoint last_write (k : key) (W : list (key * bool)) : option bool :=
  match W with
  | [] => None
  | (k', v) :: W' =>
      match last_write k W' with
      | Some b => Some b
      | None => if key_eq_dec k k' then Some v else None
      end
  end.

End LRU.

(** ** The data of the attack engine *)

(** [AttackedText]: the rendered text and the auxiliary attributes. *)
Record AttackedText : Type := mkAttackedText {
  text : string;
  attack_attrs : dict AttrValue
}.

(** A model output (a class label). *)
Definition Output : Type := Z.

(** [GoalFunctionResult], with the attributes the engine reads or writes. *)
Record GoalFunctionResult : Type := mkGoalFunctionResult {
  attacked_text : AttackedText;
  output : Output;
  succeeded : bool
}.

Definition set_output (r : GoalFunctionResult) (o : Output) : GoalFunctionResult :=
  mkGoalFunctionResult (attacked_text r) o (succeeded r).

(** The three outcome classes of [textattack.attack_results]. *)
Inductive AttackResult : Type :=
| SuccessfulAttackResult (initial final : GoalFunctionResult) (queries : nat)
| FailedAttackResult (initial final : GoalFunctionResult) (queries : nat)
| SkippedAttackResult (result : GoalFunctionResult).

(** Modelled from the spec: the post-transformation constraint interface
    ([textattack.constraints.Constraint] is not in src).  A constraint is a
    predicate over (current text, candidate, original text), and [call_many]
    consumes the currently surviving candidates and returns the subset that
    satisfies it, in their order.  A constraint that raises is outside this
    model: the engine has no handler, so its exception would end the call of
    the filtering method at that point. *)
Record Constraint : Type := mkConstraint {
  check : AttackedText -> AttackedText -> option AttackedText -> bool
}.

Definition call_many (C : Constraint) (candidates : list AttackedText)
    (current_text : AttackedText) (original_text : option AttackedText)
    : list AttackedText :=
  filter (fun t => check C current_text t original_text) candidates.

(** A pre-transformation constraint is only handed to the transformation. *)
Record PreTransformationConstraint : Type := mkPreTransformationConstraint {
  pre_name : string
}.

(** An element of the [constraints] argument of [Attack.__init__]: the
    [isinstance] test tells the two kinds apart. *)
Inductive AnyConstraint : Type :=
| Pre (c : PreTransformationConstraint)
| Post (c : Constraint).

(** Modelled from the spec: the transformation interface (the class is not
    in src).  A transformation is a pure function from the current text and
    the pre-transformation constraints to the ordered sequence of candidates;
    the keyword arguments [get_transformations] passes on to it are left out.
    [is_black_box_attr] is its optional [is_black_box] attribute ([None] when
    the attribute is missing). *)
Record Transformation : Type := mkTransformation {
  transform : AttackedText -> list PreTransformationConstraint -> list AttackedText;
  is_black_box_attr : option bool
}.

(** The mutable state: the cache of the engine and the query counter of its
    goal function. *)
Record state : Type := mkState {
  constraints_cache : LRU.t;
  num_queries : nat
}.

(** The state together with two logs, most recent entry last: the
    [call_many] invocations made by the filtering methods (the constraint
    invoked and the candidates it was given) and the invocations of the
    search method (the initial result it was given). *)
Record world : Type := mkWorld {
  st : state;
  constraint_calls : list (Constraint * list AttackedText);
  search_calls : list GoalFunctionResult
}.

(** The goal function and the search method are external: total functions
    that may read and change the state.  A search method is taken by its
    effect on the state (the cache and the query counter); the calls it makes
    back into the engine through the methods [__init__] binds to it are not
    followed one by one, so the log of [call_many] invocations below is that
    of the filtering methods called on their own. *)
Record GoalFunction : Type := mkGoalFunction {
  get_result : AttackedText -> Output -> state -> GoalFunctionResult * state
}.

Record SearchMethod : Type := mkSearchMethod {
  search : GoalFunctionResult -> state -> GoalFunctionResult * state;
  check_transformation_compatibility : Transformation -> bool
}.

(** An [Attack] object: the attributes set by [__init__]. *)
Record Attack : Type := mkAttack {
  goal_function : GoalFunction;
  search_method : SearchMethod;
  transformation : option Transformation;
  is_black_box : bool;
  constraints : list Constraint;
  pre_transformation_constraints : list PreTransformationConstraint;
  constraint_cache_size : Z
}.

(** ** The state-and-exception monad *)

Definition stateE (S A : Type) : Type := S -> (exn + A) * S.

Definition ret {S A : Type} (a : A) : stateE S A := fun w => (inr a, w).

Definition raise {S A : Type} (e : exn) : stateE S A := fun w => (inl e, w).

Definition bind {S A B : Type} (m : stateE S A) (k : A -> stateE S B)
    : stateE S B :=
  fun w =>
    match m w with
    | (inl e, w') => (inl e, w')
    | (inr a, w') => k a w'
    end.

(** The monad of the [Attack] methods. *)
Definition M : Type -> Type := stateE world.

Declare Scope monad_scope.
Delimit Scope monad_scope with monad.
Notation "x <- m ;; k" := (bind m (fun x => k))
  (at level 61, m at next level, right associativity) : monad_scope.
Notation "m ;; k" := (bind m (fun _ => k))
  (at level 61, right associativity) : monad_scope.
Local Open Scope monad_scope.

(** [for x in xs: body(x)]. *)
Fixpoint for_each {A : Type} (xs : list A) (body : A -> M unit) : M unit :=
  match xs with
  | [] => ret tt
  | x :: xs' => body x ;; for_each xs' body
  end.

(** [[x for x in xs if cond(x)]] with an effectful condition. *)
Fixpoint filter_m {A : Type} (cond : A -> M bool) (xs : list A) : M (list A) :=
  match xs with
  | [] => ret []
  | x :: xs' =>
      b <- cond x ;;
      rest <- filter_m cond xs' ;;
      ret (if b then x :: rest else rest)
  end.

Definition set_cache (c : LRU.t) (w : world) : world :=
  mkWorld (mkState c (num_queries (st w))) (constraint_calls w)
    (search_calls w).

Definition cache_of (w : world) : LRU.t := constraints_cache (st w).

(** [key in self.constraints_cache]. *)
Definition cache_contains (k : LRU.key) : M bool :=
  fun w => (inr (LRU.contains k (cache_of w)), w).

(** [self.constraints_cache[key]]. *)
Definition cache_get (k : LRU.key) : M bool :=
  fun w =>
    match LRU.getitem k (cache_of w) with
    | Some (v, c) => (inr v, set_cache c w)
    | None => (inl (KeyError (fst k ++ ", " ++ snd k)%string), w)
    end.

(** [self.constraints_cache[key] = v]. *)
Definition cache_set (k : LRU.key) (v : bool) : M unit :=
  fun w => (inr tt, set_cache (LRU.setitem k v (cache_of w)) w).

(** [C.call_many(filtered_texts, current_text, original_text=...)], logged. *)
Definition invoke (C : Constraint) (candidates : list AttackedText)
    (current_text : AttackedText) (original_text : option AttackedText)
    : M (list AttackedText) :=
  fun w =>
    (inr (call_many C candidates current_text original_text),
     mkWorld (st w) (constraint_calls w ++ [(C, candidates)])
       (search_calls w)).

(** An external call that changes the state and leaves the log alone. *)
Definition lift {A : Type} (f : state -> A * state) : M A :=
  fun w =>
    let (a, s) := f (st w) in
    (inr a, mkWorld s (constraint_calls w) (search_calls w)).

(** ** [Attack]: filtering candidates through the constraints *)

Definition key_of (current_text t : AttackedText) : LRU.key :=
  (text current_text, text t).

(** The loop [for C in self.constraints] of
    [_filter_transformations_uncached], with its [break]. *)
Fixpoint apply_constraints (Cs : list Constraint)
    (filtered_texts : list AttackedText) (current_text : AttackedText)
    (original_text : option AttackedText) : M (list AttackedText) :=
  match Cs with
  | [] => ret filtered_texts
  | C :: Cs' =>
      if length filtered_texts =? 0 then ret filtered_texts
      else
        filtered_texts' <- invoke C filtered_texts current_text original_text ;;
        apply_constraints Cs' filtered_texts' current_text original_text
  end.

Definition _filter_transformations_uncached (self : Attack)
    (transformed_texts : list AttackedText) (current_text : AttackedText)
    (original_text : option AttackedText) : M (list AttackedText) :=
  filtered_texts <- apply_constraints (constraints self) transformed_texts
                      current_text original_text ;;
  for_each transformed_texts
    (fun original_transformed_text =>
       cache_set (key_of current_text original_transformed_text) false) ;;
  for_each filtered_texts
    (fun filtered_text => cache_set (key_of current_text filtered_text) true) ;;
  ret filtered_texts.

(** The first loop of [filter_transformations]: uncached candidates are
    collected, cached ones are promoted by reading and re-assigning them. *)
Fixpoint collect_uncached (transformed_texts uncached_texts : list AttackedText)
    (current_text : AttackedText) : M (list AttackedText) :=
  match transformed_texts with
  | [] => ret uncached_texts
  | transformed_text :: rest =>
      cached <- cache_contains (key_of current_text transformed_text) ;;
      if negb cached then
        collect_uncached rest (uncached_texts ++ [transformed_text]) current_text
      else
        v <- cache_get (key_of current_text transformed_text) ;;
        cache_set (key_of current_text transformed_text) v ;;
        collect_uncached rest uncached_texts current_text
  end.

(** [list.sort(key=lambda t: t.text)]: a stable sort on the rendered text,
    strings compared character by character. *)
Fixpoint insert_by_text (t : AttackedText) (l : list AttackedText)
    : list AttackedText :=
  match l with
  | [] => [t]
  | u :: l' =>
      if String.leb (text t) (text u) then t :: l
      else u :: insert_by_text t l'
  end.

Definition sort_by_text (l : list AttackedText) : list AttackedText :=
  fold_right insert_by_text [] l.

Definition filter_transformations (self : Attack)
    (transformed_texts : list AttackedText) (current_text : AttackedText)
    (original_text : option AttackedText) : M (list AttackedText) :=
  uncached_texts <- collect_uncached transformed_texts [] current_text ;;
  _filter_transformations_uncached self uncached_texts current_text
    original_text ;;
  filtered_texts <- filter_m (fun t => cache_get (key_of current_text t))
                      transformed_texts ;;
  ret (sort_by_text filtered_texts).

Definition get_transformations (self : Attack) (current_text : AttackedText)
    (original_text : option AttackedText) : M (list AttackedText) :=
  match transformation self with
  | None =>
      raise (RuntimeError
               "Cannot call `get_transformations` without a transformation.")
  | Some T =>
      let transformed_texts :=
        transform T current_text (pre_transformation_constraints self) in
      filter_transformations self transformed_texts current_text original_text
  end.

(** ** [Attack]: construction *)

(** The loop of [__init__] that splits the [constraints] argument. *)
Fixpoint split_constraints (cs : list AnyConstraint)
    (post : list Constraint) (pre : list PreTransformationConstraint)
    : list Constraint * list PreTransformationConstraint :=
  match cs with
  | [] => (post, pre)
  | Pre c :: cs' => split_constraints cs' post (pre ++ [c])
  | Post c :: cs' => split_constraints cs' (post ++ [c]) pre
  end.

(** [Attack.__init__]: an argument left at its default [None] is [None]
    here.  The result is the new object and its empty cache. *)
Definition __init__ (goal_function : option GoalFunction)
    (constraints : list AnyConstraint) (transformation : option Transformation)
    (search_method : option SearchMethod) (constraint_cache_size : Z)
    : exn + (Attack * LRU.t) :=
  match goal_function with
  | None =>
      inl (NameError
             "Cannot instantiate attack without self.goal_function for predictions")
  | Some gf =>
      match search_method with
      | None => inl (NameError "Cannot instantiate attack without search method")
      | Some sm =>
          match transformation with
          | None =>
              inl (NameError "Cannot instantiate attack without transformation")
          | Some T =>
              let black_box :=
                match is_black_box_attr T with Some b => b | None => true end in
              if negb (check_transformation_compatibility sm T) then
                inl (ValueError
                       "SearchMethod {self.search_method} incompatible with transformation {self.transformation}")
              else
                let (post, pre) := split_constraints constraints [] [] in
                match LRU.new constraint_cache_size with
                | inl e => inl e
                | inr cache =>
                    inr (mkAttack gf sm (Some T) black_box post pre
                           constraint_cache_size, cache)
                end
          end
      end
  end.

(** The world in which a freshly built engine starts: its cache, the
    counter of its goal function, and empty logs. *)
Definition start (cache : LRU.t) (queries : nat) : world :=
  mkWorld (mkState cache queries) [] [].

(** ** [Attack]: attacking one example and traversing a dataset *)

Definition get_num_queries : M nat := fun w => (inr (num_queries (st w)), w).

Definition set_num_queries (n : nat) : M unit :=
  fun w =>
    (inr tt,
     mkWorld (mkState (cache_of w) n) (constraint_calls w) (search_calls w)).

(** [self.search_method(initial_result)], logged. *)
Definition call_search (self : Attack) (initial_result : GoalFunctionResult)
    : M GoalFunctionResult :=
  fun w =>
    let (final_result, s) := search (search_method self) initial_result (st w) in
    (inr final_result,
     mkWorld s (constraint_calls w) (search_calls w ++ [initial_result])).

Definition attack_one (self : Attack) (initial_result : GoalFunctionResult)
    : M AttackResult :=
  final_result <- call_search self initial_result ;;
  queries <- get_num_queries ;;
  if succeeded final_result then
    ret (SuccessfulAttackResult initial_result final_result queries)
  else
    ret (FailedAttackResult initial_result final_result queries).

(** A dataset: a sequence of (text, ground_truth_output) pairs and the
    optional [label_names] attribute ([None] when it is missing). *)
Record Dataset : Type := mkDataset {
  examples : list (string * Output);
  label_names : option (list string)
}.

(** The queue [_get_examples_from_dataset] starts from: an [indices]
    argument that is [None] or falsy is replaced by all the indices. *)
Definition initial_indices (dataset : Dataset) (indices : option (list Z))
    : list Z :=
  match indices with
  | Some (i :: rest) => i :: rest
  | Some [] | None => range (length (examples dataset))
  end.

Definition out_of_bounds_message (dataset : Dataset) (i : Z) : string :=
  ("Out of bounds access of dataset. Size of data is "
   ++ str_of_int (Z.of_nat (length (examples dataset)))
   ++ " but tried to access index " ++ str_of_int i)%string.

(** One turn of the [while indices] loop of [_get_examples_from_dataset],
    from [popleft] to the [yield]: the value yielded for index [i]. *)
Definition get_example (self : Attack) (dataset : Dataset) (i : Z)
    : M GoalFunctionResult :=
  match seq_getitem (examples dataset) i with
  | None => raise (IndexError (out_of_bounds_message dataset i))
  | Some (text, ground_truth_output) =>
      let label_names :=
        match label_names dataset with Some l => VStrings l | None => VNone end in
      let attacked_text := mkAttackedText text [("label_names"%string, label_names)] in
      set_num_queries 0 ;;
      goal_function_result <-
        lift (get_result (goal_function self) attacked_text ground_truth_output) ;;
      if succeeded goal_function_result then
        ret (set_output goal_function_result ground_truth_output)
      else ret goal_function_result
  end.

(** A generator run to its end: the values it yielded and, when it did not
    finish normally, the exception that ended it. *)
Definition generator (A : Type) : Type := world -> (list A * option exn) * world.

(** The body of [for goal_function_result in examples] in [attack_dataset]. *)
Definition attack_example (self : Attack) (goal_function_result : GoalFunctionResult)
    : M AttackResult :=
  if succeeded goal_function_result then
    ret (SkippedAttackResult goal_function_result)
  else attack_one self goal_function_result.

(** [attack_dataset] pulling from [_get_examples_from_dataset]: the two
    generators are lazy, so an example is only read, evaluated and attacked
    after the outcome of the previous one was yielded. *)
Fixpoint attack_queue (self : Attack) (dataset : Dataset) (queue : list Z)
    : generator AttackResult :=
  match queue with
  | [] => fun w => (([], None), w)
  | i :: queue' => fun w =>
      match get_example self dataset i w with
      | (inl e, w1) => (([], Some e), w1)
      | (inr goal_function_result, w1) =>
          match attack_example self goal_function_result w1 with
          | (inl e, w2) => (([], Some e), w2)
          | (inr result, w2) =>
              let '((results, e), w3) := attack_queue self dataset queue' w2 in
              ((result :: results, e), w3)
          end
      end
  end.

Definition attack_dataset (self : Attack) (dataset : Dataset)
    (indices : option (list Z)) : generator AttackResult :=
  attack_queue self dataset (initial_indices dataset indices).

(** [_get_examples_from_dataset] consumed on its own. *)
Fixpoint examples_queue (self : Attack) (dataset : Dataset) (queue : list Z)
    : generator GoalFunctionResult :=
  match queue with
  | [] => fun w => (([], None), w)
  | i :: queue' => fun w =>
      match get_example self dataset i w with
      | (inl e, w1) => (([], Some e), w1)
      | (inr goal_function_result, w1) =>
          let '((results, e), w2) := examples_queue self dataset queue' w1 in
          ((goal_function_result :: results, e), w2)
      end
  end.

Definition _get_examples_from_dataset (self : Attack) (dataset : Dataset)
    (indices : option (list Z)) : generator GoalFunctionResult :=
  examples_queue self dataset (initial_indices dataset indices).

(** ** [WordEmbeddingDistance] *)

Module WordEmbeddingDistance.

(** The text objects the constraint receives: the list of words and the
    entry [attack_attrs['newly_modified_indices']] ([None] when the key is
    missing from [attack_attrs]). *)
Record TokenizedText : Type := mkTokenizedText {
  words : list string;
  newly_modified_indices : option (list Z)
}.

(** What the local variables [x] and [x_adv] of [_check_constraint] can
    hold: the text they start with or the word they are rebound to. *)
Inductive pyobj : Type :=
| Text (t : TokenizedText)
| Str (s : string).

(** A Python dict with int keys. *)
Definition zdict (V : Type) := list (Z * V).

Fixpoint zdict_get {V : Type} (k : Z) (d : zdict V) : option V :=
  match d with
  | [] => None
  | (k', v) :: d' => if (k =? k')%Z then Some v else zdict_get k d'
  end.

Fixpoint zdict_set {V : Type} (k : Z) (v : V) (d : zdict V) : zdict V :=
  match d with
  | [] => [(k, v)]
  | (k', v') :: d' =>
      if (k =? k')%Z then (k, v) :: d' else (k', v') :: zdict_set k v d'
  end.

(** A precomputed distance matrix, [mat[x][y]]: a dict of dicts (the
    constructor builds the plain dict [{}] when there is no file). *)
Definition matrix : Type := zdict (zdict Q).

(** A word given by its text or by its ID ([isinstance(a, str)]). *)
Inductive word_ref : Type :=
| Word (w : string)
| Id (i : Z).

(** The attributes [__init__] sets that [_check_constraint] reads.  The
    torch kernel [CosineSimilarity] is a parameter; numbers are rationals:
    exact, and never NaN. *)
Record t : Type := mk {
  include_unknown_words : bool;
  cased : bool;
  min_cos_sim : option Q;
  max_mse_dist : option Q;
  word_embeddings : list (list Q);
  word_embedding_word2index : dict Z;
  CosineSimilarity : list Q -> list Q -> Q
}.

Inductive metric_call : Type :=
| CosSimCall (a b : word_ref)
| MseDistCall (a b : Z).

(** The two mutable matrices and a log of the calls of [get_cos_sim] and
    [get_mse_dist], most recent last. *)
Record wstate : Type := mkWstate {
  cos_sim_mat : matrix;
  mse_dist_mat : matrix;
  metric_calls : list metric_call
}.

Definition W : Type -> Type := stateE wstate.

Definition of_result {A : Type} (r : exn + A) : W A := fun s => (r, s).

Definition log_call (c : metric_call) : W unit :=
  fun s =>
    (inr tt, mkWstate (cos_sim_mat s) (mse_dist_mat s) (metric_calls s ++ [c])).

(** [mat[a][b]]: KeyError ([None]) when the row or the entry is missing. *)
Definition matrix_get (a b : Z) (m : matrix) : option Q :=
  match zdict_get a m with
  | Some row => zdict_get b row
  | None => None
  end.

(** [mat[a][b] = v]: KeyError ([None]) when the row [mat[a]] is missing. *)
Definition matrix_set (a b : Z) (v : Q) (m : matrix) : option matrix :=
  match zdict_get a m with
  | Some row => Some (zdict_set a (zdict_set b v row) m)
  | None => None
  end.

Definition key_error (k : Z) : exn := KeyError (str_of_int k).

(** [self.word_embeddings[a]] on the numpy array. *)
Definition embedding (self : t) (a : Z) : W (list Q) :=
  match seq_getitem (word_embeddings self) a with
  | Some e => ret e
  | None => raise (IndexError "index is out of bounds for axis 0")
  end.

Definition resolve (self : t) (a : word_ref) : W Z :=
  match a with
  | Id i => ret i
  | Word w =>
      match dict_get w (word_embedding_word2index self) with
      | Some i => ret i
      | None => raise (KeyError w)
      end
  end.

Definition get_cos_sim (self : t) (a b : word_ref) : W Q :=
  log_call (CosSimCall a b) ;;
  a <- resolve self a ;;
  b <- resolve self b ;;
  let (a, b) := (Z.min a b, Z.max a b) in
  fun s =>
    match matrix_get a b (cos_sim_mat s) with
    | Some cos_sim => (inr cos_sim, s)
    | None =>
        (e1 <- embedding self a ;;
         e2 <- embedding self b ;;
         let cos_sim := CosineSimilarity self e1 e2 in
         fun s =>
           match matrix_set a b cos_sim (cos_sim_mat s) with
           | Some m =>
               (inr cos_sim, mkWstate m (mse_dist_mat s) (metric_calls s))
           | None => (inl (key_error a), s)
           end) s
    end.

(** [torch.sum((e1 - e2) ** 2)]. *)
Definition sum_squared_difference (e1 e2 : list Q) : Q :=
  fold_right Qplus 0%Q
    (map (fun p => ((fst p - snd p) * (fst p - snd p))%Q) (combine e1 e2)).

Definition get_mse_dist (self : t) (a b : Z) : W Q :=
  log_call (MseDistCall a b) ;;
  let (a, b) := (Z.min a b, Z.max a b) in
  fun s =>
    match matrix_get a b (mse_dist_mat s) with
    | Some mse_dist => (inr mse_dist, s)
    | None =>
        (e1 <- embedding self a ;;
         e2 <- embedding self b ;;
         let mse_dist := sum_squared_difference e1 e2 in
         fun s =>
           match matrix_set a b mse_dist (mse_dist_mat s) with
           | Some m =>
               (inr mse_dist, mkWstate (cos_sim_mat s) m (metric_calls s))
           | None => (inl (key_error a), s)
           end) s
    end.

(** [o.words[i]]: a [str] has no attribute [words]. *)
Definition get_word (o : pyobj) (i : Z) : W string :=
  match o with
  | Str _ => raise (AttributeError "'str' object has no attribute 'words'")
  | Text x =>
      match seq_getitem (words x) i with
      | Some w => ret w
      | None => raise (IndexError "list index out of range")
      end
  end.

(** [str.lower()] on the letters A to Z. *)
Definition lower_ascii (c : ascii) : ascii :=
  let n := nat_of_ascii c in
  if (65 <=? n) && (n <=? 90) then ascii_of_nat (n + 32) else c.

Fixpoint lower (s : string) : string :=
  match s with
  | EmptyString => EmptyString
  | String c s' => String (lower_ascii c) (lower s')
  end.

(** The truth value of a number: zero is falsy. *)
Definition truthy (q : Q) : bool := negb (Qeq_bool q 0).

Definition Qltb (a b : Q) : bool := negb (Qle_bool b a).

(** The loop [for i in indices] of [_check_constraint]; [x] and [x_adv]
    are the loop-carried local variables. *)
Fixpoint check_indices (self : t) (indices : list Z) (x x_adv : pyobj)
    : W bool :=
  match indices with
  | [] => ret true
  | i :: indices' =>
      x <- get_word x i ;;
      x_adv <- get_word x_adv i ;;
      let x := if cased self then x else lower x in
      let x_adv := if cased self then x_adv else lower x_adv in
      match dict_get x (word_embedding_word2index self),
            dict_get x_adv (word_embedding_word2index self) with
      | Some x_id, Some x_adv_id =>
          too_far <-
            match min_cos_sim self with
            | Some threshold =>
                if truthy threshold then
                  cos_sim <- get_cos_sim self (Id x_id) (Id x_adv_id) ;;
                  ret (Qltb cos_sim threshold)
                else ret false
            | None => ret false
            end ;;
          if too_far then ret false
          else
            too_far <-
              match max_mse_dist self with
              | Some threshold =>
                  if truthy threshold then
                    mse_dist <- get_mse_dist self x_id x_adv_id ;;
                    ret (Qltb threshold mse_dist)
                  else ret false
              | None => ret false
              end ;;
            if too_far then ret false
            else check_indices self indices' (Str x) (Str x_adv)
      | _, _ =>
          if include_unknown_words self then
            check_indices self indices' (Str x) (Str x_adv)
          else ret false
      end
  end.

Definition _check_constraint (self : t) (x x_adv : TokenizedText) : W bool :=
  match newly_modified_indices x_adv with
  | None =>
      raise (KeyError
               "Cannot apply part-of-speech constraint without `newly_modified_indices`")
  | Some indices => check_indices self indices (Text x) (Text x_adv)
  end.

Definition with_min_cos_sim (self : t) (v : option Q) : t :=
  mk (include_unknown_words self) (cased self) v (max_mse_dist self)
     (word_embeddings self) (word_embedding_word2index self)
     (CosineSimilarity self).

Definition with_max_mse_dist (self : t) (v : option Q) : t :=
  mk (include_unknown_words self) (cased self) (min_cos_sim self) v
     (word_embeddings self) (word_embedding_word2index self)
     (CosineSimilarity self).

Definition with_indices (x : TokenizedText) (indices : list Z) : TokenizedText :=
  mkTokenizedText (words x) (Some indices).

Definition is_cos_sim_call (c : metric_call) : bool :=
  match c with CosSimCall _ _ => true | MseDistCall _ _ => false end.

Definition is_mse_dist_call (c : metric_call) : bool :=
  match c with CosSimCall _ _ => false | MseDistCall _ _ => true end.

(** The state is left alone as far as the cosine metric goes: its matrix
    is unchanged and [get_cos_sim] was not called. *)
Definition cos_sim_untouched (s s' : wstate) : Prop :=
  cos_sim_mat s' = cos_sim_mat s /\
  filter is_cos_sim_call (metric_calls s') =
  filter is_cos_sim_call (metric_calls s).

(** The same for the MSE metric. *)
Definition mse_dist_untouched (s s' : wstate) : Prop :=
  mse_dist_mat s' = mse_dist_mat s /\
  filter is_mse_dist_call (metric_calls s') =
  filter is_mse_dist_call (metric_calls s).

End WordEmbeddingDistance.

(** ** Notions used to state the properties *)

(** Every constraint of [Cs] returns true on the candidate [t]. *)
Definition accepted_by (Cs : list Constraint) (current_text : AttackedText)
    (original_text : option AttackedText) (t : AttackedText) : bool :=
  forallb (fun C => check C current_text t original_text) Cs.

(** The candidates every constraint of [Cs] accepts, in their order. *)
Definition survivors (Cs : list Constraint) (current_text : AttackedText)
    (original_text : option AttackedText) (candidates : list AttackedText)
    : list AttackedText :=
  filter (accepted_by Cs current_text original_text) candidates.

(** The candidate passes all the post-transformation constraints. *)
Definition passes (self : Attack) (current_text : AttackedText)
    (original_text : option AttackedText) (t : AttackedText) : bool :=
  accepted_by (constraints self) current_text original_text t.

Definition candidate_keys (current_text : AttackedText)
    (candidates : list AttackedText) : list LRU.key :=
  map (key_of current_text) candidates.

(** The cache holds the entry [(current_text, t) -> b]. *)
Definition cached (w : world) (current_text t : AttackedText) : option bool :=
  LRU.lookup (key_of current_text t) (LRU.items (cache_of w)).

(** Some candidate of [l] has the rendered text of [t]. *)
Definition has_text (l : list AttackedText) (t : AttackedText) : bool :=
  existsb (fun u => String.eqb (text u) (text t)) l.

(** The list is in non-decreasing order of rendered text. *)
Definition sorted_by_text (l : list AttackedText) : Prop :=
  StronglySorted (fun a b => String.leb (text a) (text b) = true) l.

(** The assignments of the two cache loops of
    [_filter_transformations_uncached]. *)
Definition verdict_writes (current_text : AttackedText)
    (candidates : list AttackedText) (v : bool) : list (LRU.key * bool) :=
  map (fun t => (key_of current_text t, v)) candidates.

(** The re-assignments made for the cached candidates by the first loop of
    [filter_transformations]. *)
Definition hit_writes (c : LRU.t) (current_text : AttackedText)
    (candidates : list AttackedText) : list (LRU.key * bool) :=
  flat_map (fun t =>
              match LRU.lookup (key_of current_text t) (LRU.items c) with
              | Some v => [(key_of current_text t, v)]
              | None => []
              end) candidates.

(** The candidates that have no cache entry. *)
Definition uncached_of (c : LRU.t) (current_text : AttackedText)
    (candidates : list AttackedText) : list AttackedText :=
  filter (fun t => negb (LRU.contains (key_of current_text t) c)) candidates.


(** The world after the filtering methods changed the cache to [c] and made
    the [call_many] invocations [calls]. *)
Definition after (w : world) (c : LRU.t)
    (calls : list (Constraint * list AttackedText)) : world :=
  mkWorld (mkState c (num_queries (st w))) (constraint_calls w ++ calls)
    (search_calls w).

(** The invocations the constraint pipeline makes when it stops after [k]
    constraints: constraint [j] is given the survivors of the first [j]. *)
Definition pipeline_calls (Cs : list Constraint) (current_text : AttackedText)
    (original_text : option AttackedText) (candidates : list AttackedText)
    (k : nat) : list (Constraint * list AttackedText) :=
  combine (firstn k Cs)
    (map (fun j => survivors (firstn j Cs) current_text original_text candidates)
       (seq 0 k)).

(** A list of assignments that only re-assign to cached keys the value they
    hold. *)
Definition promotions (W : list (LRU.key * bool)) (c : LRU.t) : Prop :=
  forall k v, In (k, v) W -> LRU.lookup k (LRU.items c) = Some v.

(** The pair of the candidate has an entry and the entry is true. *)
Definition cached_true (c : LRU.t) (current_text t : AttackedText) : bool :=
  match LRU.lookup (key_of current_text t) (LRU.items c) with
  | Some b => b
  | None => false
  end.

(** What the cache says about a candidate once [filter_transformations] has
    resolved it: the entry it already had, or else whether a survivor of the
    uncached batch has its rendered text. *)
Definition resolved (self : Attack) (current_text : AttackedText)
    (original_text : option AttackedText) (c : LRU.t)
    (candidates : list AttackedText) (t : AttackedText) : bool :=
  match LRU.lookup (key_of current_text t) (LRU.items c) with
  | Some b => b
  | None =>
      has_text (survivors (constraints self) current_text original_text
                  (uncached_of c current_text candidates)) t
  end.

(** A call of [filter_transformations], by its arguments. *)
Record filter_call : Type := mkFilterCall {
  call_candidates : list AttackedText;
  call_current : AttackedText;
  call_original : option AttackedText
}.

(** The world after a sequence of calls of [filter_transformations], the
    only method that assigns to the cache (directly or through
    [_filter_transformations_uncached]); a call that raises leaves its
    assignments in place. *)
Definition run_filter_calls (self : Attack) (history : list filter_call)
    (w : world) : world :=
  fold_left
    (fun w c =>
       snd (filter_transformations self (call_candidates c) (call_current c)
              (call_original c) w))
    history w.

(** [sub] occurs in [s]. *)
Definition occurs_in (sub s : string) : Prop :=
  exists before after : string, s = (before ++ sub ++ after)%string.

(** The text object [_get_examples_from_dataset] builds for an example. *)
Definition attacked_text_of (dataset : Dataset) (text : string) : AttackedText :=
  mkAttackedText text
    [("label_names"%string,
      match label_names dataset with Some l => VStrings l | None => VNone end)].

(** The world after an external call left the state [s]. *)
Definition with_state (w : world) (s : state) : world :=
  mkWorld s (constraint_calls w) (search_calls w).

(** [o] is the outcome of the example at index [i]: the goal function
    evaluated the example with the query counter reset; when that initial
    result reports success the outcome is the Skipped one that carries it
    with the ground truth as output, and otherwise the outcome is what
    [attack_one] returned for it, after one invocation of the search method. *)
Definition outcome_of (self : Attack) (dataset : Dataset) (i : Z)
    (o : AttackResult) : Prop :=
  exists text ground_truth_output w0,
    seq_getitem (examples dataset) i = Some (text, ground_truth_output) /\
    num_queries (st w0) = 0 /\
    let evaluation :=
      get_result (goal_function self) (attacked_text_of dataset text)
        ground_truth_output (st w0) in
    let initial := fst evaluation in
    if succeeded initial then
      o = SkippedAttackResult (set_output initial ground_truth_output) /\
      output (set_output initial ground_truth_output) = ground_truth_output
    else
      exists w2,
        attack_one self initial (with_state w0 (snd evaluation)) = (inr o, w2) /\
        search_calls w2 = search_calls w0 ++ [initial].

(** The initial results an outcome says the search method was invoked on. *)
Definition searched (o : AttackResult) : list GoalFunctionResult :=
  match o with
  | SkippedAttackResult _ => []
  | SuccessfulAttackResult initial _ _ => [initial]
  | FailedAttackResult initial _ _ => [initial]
  end.

(** A generator's run with the values [xs] yielded before it. *)
Definition yielded_first {A : Type} (xs : list A)
    (run : (list A * option exn) * world) : (list A * option exn) * world :=
  let '((ys, e), w) := run in ((xs ++ ys, e), w).

(** ** Concrete objects for the examples *)

Module Ex.

Definition T (s : string) : AttackedText := mkAttackedText s [].

(** A model that always predicts label 0 under an untargeted goal: the
    goal is reached when the prediction differs from the ground truth.
    Every evaluation costs one query. *)
Definition goal : GoalFunction :=
  mkGoalFunction
    (fun t ground_truth s =>
       (mkGoalFunctionResult t 0%Z (negb (ground_truth =? 0)%Z),
        mkState (constraints_cache s) (S (num_queries s)))).

(** A search that gives up after two queries. *)
Definition giving_up : SearchMethod :=
  mkSearchMethod
    (fun r s => (r, mkState (constraints_cache s) (2 + num_queries s)))
    (fun _ => true).

Definition swaps : Transformation :=
  mkTransformation
    (fun _ _ => [T "I like hats"; T "I like dogs"; T "I like cats"])
    None.

(** Rejects a candidate equal to the current text. *)
Definition changed : Constraint :=
  mkConstraint (fun current t _ => negb (String.eqb (text current) (text t))).

(** Rejects a candidate equal to the original text. *)
Definition off_original : Constraint :=
  mkConstraint
    (fun _ t original =>
       match original with
       | Some o => negb (String.eqb (text o) (text t))
       | None => true
       end).

(** Accepts a candidate that records at most one modified index. *)
Definition one_change : Constraint :=
  mkConstraint
    (fun _ t _ =>
       match dict_get "newly_modified_indices" (attack_attrs t) with
       | Some (VInts (_ :: _ :: _)) => false
       | _ => true
       end).

Definition engine (cs : list Constraint) (cache_size : Z) : Attack :=
  mkAttack goal giving_up (Some swaps) true cs [] cache_size.

Definition fresh (cache_size : nat) : world := start (LRU.mk cache_size []) 0.

Definition cats : AttackedText := T "I like cats".

Definition reviews : Dataset :=
  mkDataset [("a fine film"%string, 0%Z); ("a dull film"%string, 1%Z)] None.

Definition hats_dogs_cats : list AttackedText :=
  [T "I like hats"; T "I like dogs"; T "I like cats"].

(** A two-word vocabulary with both thresholds left out; unknown words
    are let through. *)
Definition paragram : WordEmbeddingDistance.t :=
  WordEmbeddingDistance.mk true false None None
    [[1%Q; 0%Q]; [0%Q; 1%Q]]
    [("good"%string, 0%Z); ("great"%string, 1%Z)]
    (fun _ _ => 0%Q).

Definition good_film : WordEmbeddingDistance.TokenizedText :=
  WordEmbeddingDistance.mkTokenizedText ["Good"%string; "film"%string] None.

Definition great_film : WordEmbeddingDistance.TokenizedText :=
  WordEmbeddingDistance.mkTokenizedText ["Great"%string; "film"%string]
    (Some [0%Z]).

Definition no_metrics : WordEmbeddingDistance.wstate :=
  WordEmbeddingDistance.mkWstate [] [] [].

(** Matrices with a row for word 0 and no entry in it. *)
Definition empty_rows : WordEmbeddingDistance.wstate :=
  WordEmbeddingDistance.mkWstate [(0%Z, [])] [(0%Z, [])] [].

(** Matrices that hold both distances of the words 0 and 1. *)
Definition precomputed : WordEmbeddingDistance.wstate :=
  WordEmbeddingDistance.mkWstate
    [(0%Z, [(1%Z, (9 # 10)%Q)])] [(0%Z, [(1%Z, (1 # 2)%Q)])] [].

(** Both thresholds set. *)
Definition thresholds : WordEmbeddingDistance.t :=
  WordEmbeddingDistance.with_max_mse_dist
    (WordEmbeddingDistance.with_min_cos_sim paragram (Some (8 # 10)%Q))
    (Some 1%Q).

Definition no_examples : Dataset := mkDataset [] None.

End Ex.

(** ** Notions for the further properties *)

(** The post-transformation constraints of an argument list, in order. *)
Definition post_constraints (cs : list AnyConstraint) : list Constraint :=
  flat_map (fun c => match c with Post c => [c] | Pre _ => [] end) cs.

(** The pre-transformation constraints of an argument list, in order. *)
Definition pre_constraints (cs : list AnyConstraint)
    : list PreTransformationConstraint :=
  flat_map (fun c => match c with Pre c => [c] | Post _ => [] end) cs.

(** The world with the query counter of the goal function set to [n]. *)
Definition with_num_queries (w : world) (n : nat) : world :=
  mkWorld (mkState (cache_of w) n) (constraint_calls w) (search_calls w).

(** [r] is what [_get_examples_from_dataset] yields for index [i]: the
    result of the goal function on the example, evaluated with the query
    counter at zero, with the ground truth as output when it reports
    success. *)
Definition example_of (self : Attack) (dataset : Dataset) (i : Z)
    (r : GoalFunctionResult) : Prop :=
  exists text ground_truth_output s,
    seq_getitem (examples dataset) i = Some (text, ground_truth_output) /\
    num_queries s = 0 /\
    let initial :=
      fst (get_result (goal_function self) (attacked_text_of dataset text)
             ground_truth_output s) in
    r = (if succeeded initial
         then set_output initial ground_truth_output
         else initial).

(** What a generator does after another one: the values of the first, then
    those of the second, unless the first ended with an exception. *)
Definition and_then {A : Type} (first : (list A * option exn) * world)
    (second : world -> (list A * option exn) * world)
    : (list A * option exn) * world :=
  match first with
  | ((xs, None), w) => yielded_first xs (second w)
  | ((xs, Some e), w) => ((xs, Some e), w)
  end.

(** A text with every word put in lower case. *)
Definition lowered (x : WordEmbeddingDistance.TokenizedText)
    : WordEmbeddingDistance.TokenizedText :=
  WordEmbeddingDistance.mkTokenizedText
    (map WordEmbeddingDistance.lower (WordEmbeddingDistance.words x))
    (WordEmbeddingDistance.newly_modified_indices x).

(** The word as the vocabulary is asked for it. *)
Definition vocabulary_form (self : WordEmbeddingDistance.t) (w : string)
    : string :=
  if WordEmbeddingDistance.cased self then w else WordEmbeddingDistance.lower w.

(** [WordEmbeddingDistance.extra_repr_keys]. *)
Definition extra_repr_keys (self : WordEmbeddingDistance.t) : list string :=
  let metric :=
    match WordEmbeddingDistance.min_cos_sim self with
    | None => "max_mse_dist"%string
    | Some _ => "min_cos_sim"%string
    end in
  ["embedding_type"; metric; "cased"; "include_unknown_words"]%string.

(** The cases of the MSE test at the end of a turn of the loop. *)
Ltac mse_dist_cases self x_id x_adv_id :=
  destruct (WordEmbeddingDistance.max_mse_dist self); try reflexivity;
  match goal with
  | |- context [WordEmbeddingDistance.truthy ?m] =>
      destruct (WordEmbeddingDistance.truthy m); try reflexivity
  end;
  match goal with
  | |- context [WordEmbeddingDistance.get_mse_dist self x_id x_adv_id ?s] =>
      destruct (WordEmbeddingDistance.get_mse_dist self x_id x_adv_id s)
        as [[?e|?d] ?s]; [reflexivity|]
  end;
  match goal with
  | |- context [WordEmbeddingDistance.Qltb ?m ?d] =>
      destruct (WordEmbeddingDistance.Qltb m d); reflexivity
  end.

(* ===================================================================== *)
(** * Part II: properties                                                *)
(* ===================================================================== *)

(** ** Facts about the LRU mapping *)

Section LRUFacts.

Implicit Types (k : LRU.key) (l : list (LRU.key * bool)) (c : LRU.t).

Lemma lookup_app k l1 l2 :
  LRU.lookup k (l1 ++ l2) =
  match LRU.lookup k l1 with Some v => Some v | None => LRU.lookup k l2 end.
Proof.
  induction l1 as [|[k' v] l1 IH]; simpl; [reflexivity|].
  destruct (LRU.key_eq_dec k k'); auto.
Qed.

Lemma lookup_some_in k l :
  LRU.lookup k l <> None <-> In k (map fst l).
Proof.
  induction l as [|[k' v] l IH]; simpl.
  - split; [congruence | tauto].
  - destruct (LRU.key_eq_dec k k') as [->|Hne].
    + split; [auto | discriminate].
    + rewrite IH. split; [auto | intros [H|H]; [congruence | exact H]].
Qed.

Lemma lookup_none_notin k l :
  LRU.lookup k l = None <-> ~ In k (map fst l).
Proof.
  rewrite <- lookup_some_in. destruct (LRU.lookup k l); split; try congruence.
  intros H. exfalso. apply H. discriminate.
Qed.

Lemma lookup_remove_key_other k k' l :
  k <> k' -> LRU.lookup k (LRU.remove_key k' l) = LRU.lookup k l.
Proof.
  intros Hne. induction l as [|[k0 v] l IH]; simpl; [reflexivity|].
  destruct (LRU.key_eq_dec k' k0) as [->|H0]; simpl.
  - destruct (LRU.key_eq_dec k k0); [congruence | exact IH].
  - destruct (LRU.key_eq_dec k k0); [reflexivity | exact IH].
Qed.

Lemma in_keys_remove_key k k' l :
  In k (map fst (LRU.remove_key k' l)) <-> In k (map fst l) /\ k <> k'.
Proof.
  induction l as [|[k0 v] l IH]; simpl; [tauto|].
  destruct (LRU.key_eq_dec k' k0) as [->|H0]; simpl; rewrite IH.
  - split; [tauto|]. intros [[H|H] Hne]; [congruence | tauto].
  - split; [|tauto]. intros [H|H]; [|tauto]. subst k0. split; auto.
Qed.

Lemma remove_key_app k l1 l2 :
  LRU.remove_key k (l1 ++ l2) = LRU.remove_key k l1 ++ LRU.remove_key k l2.
Proof. apply filter_app. Qed.

Lemma nodup_keys_remove_key k l :
  NoDup (map fst l) -> NoDup (map fst (LRU.remove_key k l)).
Proof.
  induction l as [|[k0 v] l IH]; simpl; intros H; [constructor|].
  inversion H as [|? ? Hnotin Hnd]; subst.
  destruct (LRU.key_eq_dec k k0); simpl; auto.
  constructor; auto. rewrite in_keys_remove_key. tauto.
Qed.

Lemma length_remove_key k l :
  In k (map fst l) -> S (length (LRU.remove_key k l)) <= length l.
Proof.
  induction l as [|[k0 v] l IH]; simpl; [tauto|].
  intros Hin. destruct (LRU.key_eq_dec k k0) as [->|Hne]; simpl.
  - pose proof (filter_length_le
      (fun e => if LRU.key_eq_dec k0 (fst e) then false else true) l).
    unfold LRU.remove_key. lia.
  - destruct Hin as [H|H]; [congruence|]. apply IH in H. lia.
Qed.

Lemma in_removelast {A : Type} (x : A) (l : list A) :
  In x (removelast l) -> In x l.
Proof.
  induction l as [|a l IH]; simpl; [tauto|].
  destruct l as [|b l]; [simpl; tauto|].
  intros [H|H]; [auto | right; apply IH; exact H].
Qed.

Lemma map_fst_removelast l :
  map fst (removelast l) = removelast (map fst l).
Proof.
  induction l as [|a l IH]; [reflexivity|].
  destruct l as [|b l]; [reflexivity|].
  change (fst a :: map fst (removelast (b :: l)) =
          fst a :: removelast (map fst (b :: l))).
  now rewrite IH.
Qed.

Lemma nodup_removelast {A : Type} (l : list A) :
  NoDup l -> NoDup (removelast l).
Proof.
  induction l as [|a l IH]; intros H; [constructor|].
  destruct l as [|b l]; [constructor|].
  inversion H as [|? ? Hnotin Hnd]; subst.
  change (NoDup (a :: removelast (b :: l))).
  constructor; auto. intros Hin. apply Hnotin. now apply in_removelast.
Qed.

Lemma lookup_removelast k l b :
  LRU.lookup k (removelast l) = Some b -> LRU.lookup k l = Some b.
Proof.
  induction l as [|[k0 v] l IH]; [discriminate|].
  destruct l as [|e l]; [discriminate|].
  change (LRU.lookup k ((k0, v) :: removelast (e :: l)) = Some b ->
          LRU.lookup k ((k0, v) :: e :: l) = Some b).
  intros H. cbn [LRU.lookup] in H.
  change (LRU.lookup k ((k0, v) :: e :: l))
    with (if LRU.key_eq_dec k k0 then Some v else LRU.lookup k (e :: l)).
  destruct (LRU.key_eq_dec k k0); auto.
Qed.

(** *** One assignment *)

Lemma size_setitem k v c : LRU.size (LRU.setitem k v c) = LRU.size c.
Proof. unfold LRU.setitem. destruct (LRU.lookup k (LRU.items c)); reflexivity. Qed.

Lemma lookup_setitem_same k v c :
  LRU.lookup k (LRU.items (LRU.setitem k v c)) = Some v.
Proof.
  unfold LRU.setitem.
  destruct (LRU.lookup k (LRU.items c)); simpl;
    destruct (LRU.key_eq_dec k k); congruence.
Qed.

(** An assignment to another key can drop an entry, never change it. *)
Lemma lookup_setitem_other k k' v c b :
  k <> k' ->
  LRU.lookup k (LRU.items (LRU.setitem k' v c)) = Some b ->
  LRU.lookup k (LRU.items c) = Some b.
Proof.
  intros Hne. unfold LRU.setitem.
  destruct (LRU.lookup k' (LRU.items c)); simpl;
    destruct (LRU.key_eq_dec k k'); try congruence.
  - now rewrite lookup_remove_key_other.
  - destruct (LRU.size c <? S (length (LRU.items c))); auto.
    apply lookup_removelast.
Qed.


Lemma wf_setitem k v c : LRU.wf c -> LRU.wf (LRU.setitem k v c).
Proof.
  intros (Hpos & Hlen & Hnd). unfold LRU.wf, LRU.setitem, LRU.keys in *.
  destruct (LRU.lookup k (LRU.items c)) eqn:Hk; simpl.
  - assert (Hin : In k (map fst (LRU.items c)))
      by (apply lookup_some_in; congruence).
    pose proof (length_remove_key k _ Hin).
    repeat split; [lia | lia |].
    constructor; [rewrite in_keys_remove_key; tauto |].
    now apply nodup_keys_remove_key.
  - apply lookup_none_notin in Hk.
    destruct (Nat.ltb_spec (LRU.size c) (S (length (LRU.items c)))).
    + repeat split; [lia | |].
      * destruct (LRU.items c) as [|e l]; [simpl in *; lia|].
        rewrite removelast_firstn_len, length_firstn. simpl in *. lia.
      * constructor.
        -- rewrite map_fst_removelast. intros Hin. apply Hk.
           now apply in_removelast.
        -- rewrite map_fst_removelast. now apply nodup_removelast.
    + repeat split; [lia | lia |]. constructor; auto.
Qed.

(** *** Recency: the keys touched last are not the ones dropped *)

Lemma fits_incl (T T' : list LRU.key) n :
  incl T T' -> LRU.fits T' n -> LRU.fits T n.
Proof. intros Hi Hf L Hnd HL. apply Hf; [exact Hnd | eapply incl_tran; eauto]. Qed.

Lemma recent_nil c : LRU.recent [] c.
Proof. exists [], (LRU.items c). split; [reflexivity | simpl; tauto]. Qed.

Lemma recent_ext (T T' : list LRU.key) c :
  (forall k, In k T <-> In k T') -> LRU.recent T c -> LRU.recent T' c.
Proof.
  intros Heq (l1 & l2 & Hitems & Hkeys). exists l1, l2. split; [exact Hitems|].
  intros k. rewrite Hkeys. apply Heq.
Qed.

Lemma recent_present (T : list LRU.key) c k :
  LRU.recent T c -> In k T -> LRU.lookup k (LRU.items c) <> None.
Proof.
  intros (l1 & l2 & Hitems & Hkeys) Hin. rewrite Hitems, lookup_some_in, map_app.
  apply in_or_app. left. now apply Hkeys.
Qed.

(** When [k] is already cached, the assignment changes no other entry. *)
Lemma lookup_setitem_present k v v0 c k0 :
  LRU.lookup k (LRU.items c) = Some v0 -> k0 <> k ->
  LRU.lookup k0 (LRU.items (LRU.setitem k v c)) = LRU.lookup k0 (LRU.items c).
Proof.
  intros Hk Hne. unfold LRU.setitem. rewrite Hk. simpl.
  destruct (LRU.key_eq_dec k0 k); [congruence|].
  now apply lookup_remove_key_other.
Qed.

Lemma setitem_recent (T : list LRU.key) k v c :
  LRU.wf c -> LRU.recent T c ->
  LRU.lookup k (LRU.items c) <> None \/ LRU.fits (k :: T) (LRU.size c) ->
  LRU.recent (k :: T) (LRU.setitem k v c) /\
  (forall k0, In k0 T -> k0 <> k ->
     LRU.lookup k0 (LRU.items (LRU.setitem k v c)) =
     LRU.lookup k0 (LRU.items c)).
Proof.
  intros (Hpos & Hlen & Hnd) (l1 & l2 & Hitems & Hkeys) Hcase.
  destruct (LRU.lookup k (LRU.items c)) as [v0|] eqn:Hk.
  - split.
    + exists ((k, v) :: LRU.remove_key k l1), (LRU.remove_key k l2). split.
      * unfold LRU.setitem. rewrite Hk. simpl.
        now rewrite Hitems, remove_key_app.
      * intros k0. simpl. rewrite in_keys_remove_key, Hkeys.
        destruct (LRU.key_eq_dec k k0); intuition congruence.
    + intros k0 _ Hne. eapply lookup_setitem_present; eauto.
  - destruct Hcase as [Hc|Hfits]; [congruence|].
    assert (Hnotin : ~ In k (map fst (LRU.items c)))
      by now apply lookup_none_notin.
    unfold LRU.keys in Hnd. rewrite Hitems, map_app in Hnd, Hnotin.
    assert (Hl1 : S (length l1) <= LRU.size c).
    { rewrite <- (length_map fst l1).
      apply (Hfits (k :: map fst l1)).
      - constructor.
        + intros Hin. apply Hnotin, in_or_app. now left.
        + now apply NoDup_app_remove_r in Hnd.
      - intros k0 [H|H]; [now left | right; now apply Hkeys]. }
    assert (Hrest : exists l2',
      LRU.items (LRU.setitem k v c) = ((k, v) :: l1) ++ l2').
    { unfold LRU.setitem. rewrite Hk. simpl.
      destruct (Nat.ltb_spec (LRU.size c) (S (length (LRU.items c)))).
      - rewrite Hitems, length_app in *.
        destruct l2 as [|e l2]; [simpl in *; lia|].
        exists (removelast (e :: l2)). f_equal.
        apply removelast_app. discriminate.
      - exists l2. now rewrite Hitems. }
    destruct Hrest as (l2' & Hitems'). split.
    + exists ((k, v) :: l1), l2'. split; [exact Hitems'|].
      intros k0. simpl. rewrite Hkeys. tauto.
    + intros k0 Hin Hne. rewrite Hitems', Hitems. simpl.
      destruct (LRU.key_eq_dec k0 k); [congruence|].
      rewrite !lookup_app.
      destruct (LRU.lookup k0 l1) eqn:H1; [reflexivity|].
      apply lookup_none_notin in H1. exfalso. apply H1. now apply Hkeys.
Qed.

(** *** Reading an entry *)

Lemma getitem_hit k v c :
  LRU.lookup k (LRU.items c) = Some v ->
  LRU.getitem k c = Some (v, LRU.setitem k v c).
Proof. intros H. unfold LRU.getitem, LRU.setitem. now rewrite H. Qed.

Lemma getitem_miss k c :
  LRU.lookup k (LRU.items c) = None -> LRU.getitem k c = None.
Proof. intros H. unfold LRU.getitem. now rewrite H. Qed.

(** Re-assigning to an entry the value it holds changes no lookup. *)
Lemma lookup_promote k v c k0 :
  LRU.lookup k (LRU.items c) = Some v ->
  LRU.lookup k0 (LRU.items (LRU.setitem k v c)) = LRU.lookup k0 (LRU.items c).
Proof.
  intros Hk. destruct (LRU.key_eq_dec k0 k) as [->|Hne].
  - now rewrite lookup_setitem_same.
  - eapply lookup_setitem_present; eauto.
Qed.

(** *** Sequences of assignments *)

Lemma writes_app (W1 W2 : list (LRU.key * bool)) c :
  LRU.writes (W1 ++ W2) c = LRU.writes W2 (LRU.writes W1 c).
Proof. apply fold_left_app. Qed.

Lemma size_writes (W : list (LRU.key * bool)) c :
  LRU.size (LRU.writes W c) = LRU.size c.
Proof.
  revert c. induction W as [|[k v] W IH]; intros c; simpl; [reflexivity|].
  now rewrite IH, size_setitem.
Qed.

Lemma wf_writes (W : list (LRU.key * bool)) c :
  LRU.wf c -> LRU.wf (LRU.writes W c).
Proof.
  revert c. induction W as [|[k v] W IH]; intros c H; simpl; [exact H|].
  apply IH. now apply wf_setitem.
Qed.


Lemma last_write_none k (W : list (LRU.key * bool)) :
  LRU.last_write k W = None <-> ~ In k (map fst W).
Proof.
  induction W as [|[k' v] W IH]; simpl; [tauto|].
  destruct (LRU.last_write k W).
  - split; [discriminate|]. intros H. exfalso. apply H. right.
    destruct IH as [_ IH]. destruct (in_dec LRU.key_eq_dec k (map fst W)) as [Hin|Hn];
      [exact Hin | specialize (IH Hn); discriminate].
  - destruct (LRU.key_eq_dec k k') as [->|Hne].
    + split; [discriminate | intros H; exfalso; apply H; now left].
    + split; [|reflexivity]. intros _ [H|H]; [congruence|].
      now apply (proj1 IH).
Qed.

Lemma last_write_app k (W1 W2 : list (LRU.key * bool)) :
  LRU.last_write k (W1 ++ W2) =
  match LRU.last_write k W2 with
  | Some b => Some b
  | None => LRU.last_write k W1
  end.
Proof.
  induction W1 as [|[k' v] W1 IH]; simpl.
  - now destruct (LRU.last_write k W2).
  - rewrite IH. now destruct (LRU.last_write k W2).
Qed.

(** Whatever was dropped on the way, an entry that is present after a
    sequence of assignments holds the last value assigned to its key. *)
Lemma writes_lookup_weak (W : list (LRU.key * bool)) c k b :
  LRU.lookup k (LRU.items (LRU.writes W c)) = Some b ->
  match LRU.last_write k W with
  | Some v => b = v
  | None => LRU.lookup k (LRU.items c) = Some b
  end.
Proof.
  revert c. induction W as [|[k' v] W IH]; intros c H; simpl in *; [exact H|].
  apply IH in H. destruct (LRU.last_write k W); [exact H|].
  destruct (LRU.key_eq_dec k k') as [->|Hne].
  - rewrite lookup_setitem_same in H. congruence.
  - eapply lookup_setitem_other; eauto.
Qed.

(** When the keys assigned and the recent keys together fit in the
    mapping, none of them is dropped. *)
Lemma writes_lookup_strong (W : list (LRU.key * bool)) :
  forall (T : list LRU.key) c,
    LRU.wf c -> LRU.recent T c ->
    LRU.fits (map fst W ++ T) (LRU.size c) ->
    LRU.recent (map fst W ++ T) (LRU.writes W c) /\
    (forall k, In k (map fst W ++ T) ->
       LRU.lookup k (LRU.items (LRU.writes W c)) =
       match LRU.last_write k W with
       | Some v => Some v
       | None => LRU.lookup k (LRU.items c)
       end).
Proof.
  induction W as [|[k' v] W IH]; intros T c Hwf Hrec Hfits; simpl in *.
  - split; [exact Hrec | reflexivity].
  - destruct (setitem_recent T k' v c Hwf Hrec) as (Hrec' & Hkeep).
    { right. eapply fits_incl; [|exact Hfits].
      intros k [H|H]; [now left | right; apply in_or_app; now right]. }
    destruct (IH (k' :: T) (LRU.setitem k' v c)) as (Hrec'' & Hlook).
    + now apply wf_setitem.
    + exact Hrec'.
    + rewrite size_setitem. eapply fits_incl; [|exact Hfits].
      intros k H. apply in_app_or in H. simpl in *.
      rewrite in_app_iff. tauto.
    + split.
      * eapply recent_ext; [|exact Hrec'']. intros k.
        simpl. rewrite !in_app_iff. simpl. tauto.
      * intros k Hin. rewrite Hlook
          by (simpl in *; rewrite in_app_iff in *; simpl; tauto).
        destruct (LRU.last_write k W) eqn:Hlast; [reflexivity|].
        destruct (LRU.key_eq_dec k k') as [->|Hne].
        -- apply lookup_setitem_same.
        -- apply Hkeep; [|exact Hne].
           apply last_write_none in Hlast.
           destruct Hin as [H|H]; [congruence|].
           apply in_app_or in H. tauto.
Qed.

End LRUFacts.

(** ** Facts about the engine's loops *)

Lemma after_id w : after w (cache_of w) [] = w.
Proof. destruct w as [[c n] l1 l2]. unfold after. simpl. now rewrite app_nil_r. Qed.

Lemma after_after w c1 l1 c2 l2 :
  after (after w c1 l1) c2 l2 = after w c2 (l1 ++ l2).
Proof. unfold after. simpl. now rewrite app_assoc. Qed.

Lemma set_cache_after w c1 l1 c2 :
  set_cache c2 (after w c1 l1) = after w c2 l1.
Proof. reflexivity. Qed.

Lemma cache_of_after w c l : cache_of (after w c l) = c.
Proof. reflexivity. Qed.

Lemma for_each_cache_set (current_text : AttackedText) (v : bool)
    (xs : list AttackedText) w c l :
  for_each xs (fun t => cache_set (key_of current_text t) v) (after w c l) =
  (inr tt, after w (LRU.writes (verdict_writes current_text xs v) c) l).
Proof.
  revert c. induction xs as [|x xs IH]; intros c; [reflexivity|].
  cbn [for_each]. unfold bind at 1. unfold cache_set at 1.
  rewrite set_cache_after, cache_of_after. apply IH.
Qed.

Lemma filter_andb {A : Type} (f g : A -> bool) (l : list A) :
  filter (fun x => f x && g x) l = filter g (filter f l).
Proof.
  induction l as [|x l IH]; [reflexivity|].
  cbn [filter]. destruct (f x); cbn [andb filter]; now rewrite IH.
Qed.

Lemma survivors_nil_constraints current_text original_text xs :
  survivors [] current_text original_text xs = xs.
Proof.
  unfold survivors, accepted_by. simpl.
  induction xs as [|x xs IH]; simpl; congruence.
Qed.

Lemma survivors_cons C Cs current_text original_text xs :
  survivors (C :: Cs) current_text original_text xs =
  survivors Cs current_text original_text
    (call_many C xs current_text original_text).
Proof. exact (filter_andb _ _ xs). Qed.

Lemma pipeline_calls_step C Cs current_text original_text xs k :
  pipeline_calls (C :: Cs) current_text original_text xs (S k) =
  (C, xs) :: pipeline_calls Cs current_text original_text
               (call_many C xs current_text original_text) k.
Proof.
  unfold pipeline_calls. cbn [firstn seq map combine].
  rewrite survivors_nil_constraints. f_equal. f_equal.
  rewrite <- seq_shift, map_map. apply map_ext. intros j.
  cbn [firstn]. apply survivors_cons.
Qed.

(** The pipeline loop: its result, the invocations it makes and where it
    stops. *)
Lemma apply_constraints_spec current_text original_text Cs :
  forall xs w c l, exists k,
    k <= length Cs /\
    apply_constraints Cs xs current_text original_text (after w c l) =
      (inr (survivors Cs current_text original_text xs),
       after w c (l ++ pipeline_calls Cs current_text original_text xs k)) /\
    (forall j, j < k ->
       survivors (firstn j Cs) current_text original_text xs <> []) /\
    (k < length Cs ->
       survivors (firstn k Cs) current_text original_text xs = []).
Proof.
  induction Cs as [|C Cs IH]; intros xs w c l.
  - exists 0. simpl. rewrite survivors_nil_constraints.
    unfold pipeline_calls. simpl. rewrite app_nil_r.
    repeat split; [lia | intros; lia | intros; lia].
  - cbn [apply_constraints]. destruct xs as [|x xs].
    + exists 0. simpl. unfold pipeline_calls. simpl. rewrite app_nil_r.
      repeat split; [lia | intros; lia].
    + cbn [length Nat.eqb]. unfold bind at 1. unfold invoke at 1.
      destruct (IH (call_many C (x :: xs) current_text original_text) w c
                  (l ++ [(C, x :: xs)])) as (k & Hk & Hrun & Hne & Hstop).
      exists (S k).
      change (mkWorld (st (after w c l))
                (constraint_calls (after w c l) ++ [(C, x :: xs)])
                (search_calls (after w c l)))
        with (after (after w c l) c [(C, x :: xs)]).
      rewrite after_after, Hrun, pipeline_calls_step, survivors_cons.
      rewrite <- app_assoc. repeat split.
      * simpl. lia.
      * intros [|j] Hj.
        -- cbn [firstn]. rewrite survivors_nil_constraints. discriminate.
        -- cbn [firstn]. rewrite survivors_cons. apply Hne. lia.
      * intros Hlt. cbn [firstn]. rewrite survivors_cons. apply Hstop.
        simpl in Hlt. lia.
Qed.

Lemma _filter_transformations_uncached_spec self xs current_text original_text
    w c l :
  exists k,
    k <= length (constraints self) /\
    _filter_transformations_uncached self xs current_text original_text
      (after w c l) =
    (inr (survivors (constraints self) current_text original_text xs),
     after w
       (LRU.writes
          (verdict_writes current_text xs false ++
           verdict_writes current_text
             (survivors (constraints self) current_text original_text xs) true)
          c)
       (l ++ pipeline_calls (constraints self) current_text original_text xs k))
    /\
    (forall j, j < k ->
       survivors (firstn j (constraints self)) current_text original_text xs
       <> []) /\
    (k < length (constraints self) ->
       survivors (firstn k (constraints self)) current_text original_text xs
       = []).
Proof.
  destruct (apply_constraints_spec current_text original_text
              (constraints self) xs w c l) as (k & Hk & Hrun & Hne & Hstop).
  exists k. repeat split; auto.
  unfold _filter_transformations_uncached. unfold bind at 1. rewrite Hrun.
  unfold bind at 1. rewrite for_each_cache_set.
  unfold bind at 1. rewrite for_each_cache_set.
  unfold ret. now rewrite writes_app.
Qed.

(** *** Promotions: re-assigning cached entries *)

Lemma remove_key_notin k (l : list (LRU.key * bool)) :
  ~ In k (map fst l) -> LRU.remove_key k l = l.
Proof.
  induction l as [|[k0 v] l IH]; simpl; intros H; [reflexivity|].
  destruct (LRU.key_eq_dec k k0) as [->|Hne]; [tauto|].
  rewrite IH; [reflexivity | tauto].
Qed.

Lemma setitem_promoted k v c :
  LRU.lookup k (LRU.items c) = Some v ->
  LRU.setitem k v (LRU.setitem k v c) = LRU.setitem k v c.
Proof.
  intros Hk. unfold LRU.setitem at 1. rewrite lookup_setitem_same.
  unfold LRU.setitem. rewrite Hk. simpl.
  destruct (LRU.key_eq_dec k k); [|congruence]. simpl.
  rewrite (remove_key_notin k (LRU.remove_key k (LRU.items c))); [reflexivity|].
  rewrite in_keys_remove_key. tauto.
Qed.

Lemma writes_promotions (W : list (LRU.key * bool)) :
  forall c, promotions W c ->
    (forall k, LRU.lookup k (LRU.items (LRU.writes W c)) =
               LRU.lookup k (LRU.items c)) /\
    (forall T, LRU.wf c -> LRU.recent T c ->
               LRU.recent (map fst W ++ T) (LRU.writes W c)).
Proof.
  induction W as [|[k v] W IH]; intros c Hp; simpl.
  - split; [reflexivity | auto].
  - assert (Hk : LRU.lookup k (LRU.items c) = Some v) by (apply Hp; now left).
    destruct (IH (LRU.setitem k v c)) as (Hlook & Hrec).
    { intros k0 v0 Hin. rewrite (lookup_promote k v c k0 Hk).
      apply Hp. now right. }
    split.
    + intros k0. now rewrite Hlook, (lookup_promote k v c k0 Hk).
    + intros T Hwf HT.
      destruct (setitem_recent T k v c Hwf HT) as (Hrec' & _);
        [left; congruence|].
      eapply recent_ext; [|apply (Hrec (k :: T)); [now apply wf_setitem | exact Hrec']].
      intros k0. simpl. rewrite !in_app_iff. simpl. tauto.
Qed.

Lemma promotions_hit_writes c current_text candidates :
  promotions (hit_writes c current_text candidates) c.
Proof.
  intros k v Hin. unfold hit_writes in Hin. apply in_flat_map in Hin.
  destruct Hin as (t & _ & Hin).
  destruct (LRU.lookup (key_of current_text t) (LRU.items c)) eqn:Hl;
    simpl in Hin; [|tauto].
  destruct Hin as [Heq|[]]. now inversion Heq; subst.
Qed.

Lemma hit_writes_ext c c' current_text candidates :
  (forall k, LRU.lookup k (LRU.items c') = LRU.lookup k (LRU.items c)) ->
  hit_writes c' current_text candidates = hit_writes c current_text candidates.
Proof.
  intros H. unfold hit_writes. apply flat_map_ext. intros t. now rewrite H.
Qed.

Lemma uncached_of_ext c c' current_text candidates :
  (forall k, LRU.lookup k (LRU.items c') = LRU.lookup k (LRU.items c)) ->
  uncached_of c' current_text candidates = uncached_of c current_text candidates.
Proof.
  intros H. unfold uncached_of, LRU.contains. apply filter_ext. intros t.
  now rewrite H.
Qed.

(** The first loop of [filter_transformations]. *)
Lemma collect_uncached_spec current_text candidates :
  forall uncached_texts w c l,
    collect_uncached candidates uncached_texts current_text (after w c l) =
    (inr (uncached_texts ++ uncached_of c current_text candidates),
     after w (LRU.writes (hit_writes c current_text candidates) c) l).
Proof.
  induction candidates as [|t rest IH]; intros acc w c l.
  - simpl. unfold ret. now rewrite app_nil_r.
  - cbn [collect_uncached]. unfold bind at 1. unfold cache_contains at 1.
    rewrite cache_of_after. unfold LRU.contains.
    unfold uncached_of, hit_writes. cbn [filter flat_map]. unfold LRU.contains.
    destruct (LRU.lookup (key_of current_text t) (LRU.items c)) as [v|] eqn:Hk.
    + cbn [negb]. unfold bind at 1. unfold cache_get at 1.
      rewrite cache_of_after, (getitem_hit _ _ _ Hk), set_cache_after.
      unfold bind at 1. unfold cache_set at 1.
      rewrite cache_of_after, set_cache_after, (setitem_promoted _ _ _ Hk).
      rewrite IH. cbn [app LRU.writes fold_left fst snd].
      fold (LRU.writes (hit_writes c current_text rest)
              (LRU.setitem (key_of current_text t) v c)).
      rewrite (hit_writes_ext c (LRU.setitem (key_of current_text t) v c)),
              (uncached_of_ext c (LRU.setitem (key_of current_text t) v c));
        try (intros k; now apply lookup_promote).
      reflexivity.
    + cbn [negb]. rewrite IH, <- app_assoc. reflexivity.
Qed.

Lemma cached_true_ext c c' current_text t :
  (forall k, LRU.lookup k (LRU.items c') = LRU.lookup k (LRU.items c)) ->
  cached_true c' current_text t = cached_true c current_text t.
Proof. intros H. unfold cached_true. now rewrite H. Qed.

(** The list comprehension of [filter_transformations] when every candidate
    has a cache entry. *)
Lemma filter_m_cache_get_spec current_text candidates :
  forall w c l,
    (forall t, In t candidates ->
       LRU.lookup (key_of current_text t) (LRU.items c) <> None) ->
    filter_m (fun t => cache_get (key_of current_text t)) candidates
      (after w c l) =
    (inr (filter (cached_true c current_text) candidates),
     after w (LRU.writes (hit_writes c current_text candidates) c) l).
Proof.
  induction candidates as [|t rest IH]; intros w c l Hall.
  - reflexivity.
  - cbn [filter_m]. unfold bind at 1. unfold cache_get at 1.
    rewrite cache_of_after.
    destruct (LRU.lookup (key_of current_text t) (LRU.items c)) as [v|] eqn:Hk;
      [|exfalso; apply (Hall t); [now left | exact Hk]].
    rewrite (getitem_hit _ _ _ Hk), set_cache_after.
    unfold bind at 1. rewrite IH.
    + rewrite (hit_writes_ext c (LRU.setitem (key_of current_text t) v c))
        by (intros k; now apply lookup_promote).
      rewrite (filter_ext _ (cached_true c current_text))
        by (intros u; apply cached_true_ext; intros k; now apply lookup_promote).
      unfold ret. cbn [filter].
      replace (cached_true c current_text t) with v
        by (unfold cached_true; now rewrite Hk).
      replace (hit_writes c current_text (t :: rest))
        with ((key_of current_text t, v) :: hit_writes c current_text rest)
        by (unfold hit_writes; cbn [flat_map]; now rewrite Hk).
      reflexivity.
    + intros u Hu. rewrite (lookup_promote _ _ _ _ Hk). apply Hall. now right.
Qed.

(** *** The whole of [filter_transformations] when nothing is dropped *)

Lemma keys_verdict_writes current_text xs v :
  map fst (verdict_writes current_text xs v) = candidate_keys current_text xs.
Proof. unfold verdict_writes, candidate_keys. rewrite map_map. reflexivity. Qed.

Lemma last_write_in k (W : list (LRU.key * bool)) b :
  LRU.last_write k W = Some b -> In (k, b) W.
Proof.
  induction W as [|[k' v] W IH]; simpl; [discriminate|].
  destruct (LRU.last_write k W) as [b'|].
  - intros H. right. apply IH. exact H.
  - destruct (LRU.key_eq_dec k k') as [->|Hne]; [|discriminate].
    intros H. left. congruence.
Qed.

Lemma last_write_verdict_writes k current_text xs v :
  LRU.last_write k (verdict_writes current_text xs v) =
  if in_dec LRU.key_eq_dec k (candidate_keys current_text xs)
  then Some v else None.
Proof.
  destruct (in_dec LRU.key_eq_dec k (candidate_keys current_text xs)) as [Hin|Hn].
  - destruct (LRU.last_write k (verdict_writes current_text xs v)) as [b|] eqn:Hl.
    + apply last_write_in in Hl. unfold verdict_writes in Hl.
      apply in_map_iff in Hl. destruct Hl as (t & Heq & _). congruence.
    + apply last_write_none in Hl. rewrite keys_verdict_writes in Hl. tauto.
  - apply last_write_none. now rewrite keys_verdict_writes.
Qed.

Lemma has_text_keys current_text l t :
  has_text l t = true <-> In (key_of current_text t) (candidate_keys current_text l).
Proof.
  unfold has_text, candidate_keys, key_of. rewrite existsb_exists, in_map_iff.
  split; intros (u & H1 & H2).
  - exists u. split; [|exact H1]. apply String.eqb_eq in H2. congruence.
  - exists u. split; [exact H2|]. apply String.eqb_eq. congruence.
Qed.

Lemma in_keys_hit_writes c current_text candidates k :
  In k (map fst (hit_writes c current_text candidates)) <->
  In k (candidate_keys current_text candidates) /\
  LRU.lookup k (LRU.items c) <> None.
Proof.
  unfold hit_writes, candidate_keys. rewrite in_map_iff. split.
  - intros ([k' v] & Heq & Hin). simpl in Heq. subst k'.
    apply in_flat_map in Hin. destruct Hin as (t & Ht & Hin).
    destruct (LRU.lookup (key_of current_text t) (LRU.items c)) eqn:Hl;
      simpl in Hin; [|tauto].
    destruct Hin as [Heq|[]]. inversion Heq; subst. split.
    + apply in_map. exact Ht.
    + congruence.
  - intros (Hin & Hl). apply in_map_iff in Hin. destruct Hin as (t & <- & Ht).
    destruct (LRU.lookup (key_of current_text t) (LRU.items c)) as [v|] eqn:Hv;
      [|congruence].
    exists (key_of current_text t, v). split; [reflexivity|].
    apply in_flat_map. exists t. split; [exact Ht|]. rewrite Hv. now left.
Qed.

Lemma in_uncached_of c current_text candidates t :
  In t (uncached_of c current_text candidates) <->
  In t candidates /\ LRU.lookup (key_of current_text t) (LRU.items c) = None.
Proof.
  unfold uncached_of, LRU.contains. rewrite filter_In.
  destruct (LRU.lookup (key_of current_text t) (LRU.items c)); simpl;
    intuition congruence.
Qed.

Lemma in_survivors Cs current_text original_text xs t :
  In t (survivors Cs current_text original_text xs) <->
  In t xs /\ accepted_by Cs current_text original_text t = true.
Proof. apply filter_In. Qed.

Lemma filter_transformations_run self candidates current_text original_text
    w c l :
  LRU.wf c ->
  LRU.fits (candidate_keys current_text candidates) (LRU.size c) ->
  exists k c',
    k <= length (constraints self) /\
    filter_transformations self candidates current_text original_text
      (after w c l) =
    (inr (sort_by_text
            (filter (resolved self current_text original_text c candidates)
               candidates)),
     after w c'
       (l ++ pipeline_calls (constraints self) current_text original_text
               (uncached_of c current_text candidates) k)) /\
    LRU.wf c' /\ LRU.size c' = LRU.size c /\
    (forall t, In t candidates ->
       LRU.lookup (key_of current_text t) (LRU.items c') =
       Some (resolved self current_text original_text c candidates t)) /\
    (forall j, j < k ->
       survivors (firstn j (constraints self)) current_text original_text
         (uncached_of c current_text candidates) <> []) /\
    (k < length (constraints self) ->
       survivors (firstn k (constraints self)) current_text original_text
         (uncached_of c current_text candidates) = []).
Proof.
  intros Hwf Hfits.
  set (U := uncached_of c current_text candidates).
  set (S := survivors (constraints self) current_text original_text U).
  set (H := hit_writes c current_text candidates).
  set (c1 := LRU.writes H c).
  set (W := verdict_writes current_text U false ++
            verdict_writes current_text S true).
  set (c3 := LRU.writes W c1).
  destruct (writes_promotions H c (promotions_hit_writes _ _ _))
    as (Hlook1 & Hrec1).
  specialize (Hrec1 [] Hwf (recent_nil c)). fold c1 in Hlook1, Hrec1.
  assert (Hwf1 : LRU.wf c1) by now apply wf_writes.
  assert (HU : forall t, In t U -> In t candidates)
    by (intros t Ht; now apply in_uncached_of in Ht).
  assert (HS : forall t, In t S -> In t U)
    by (intros t Ht; now apply in_survivors in Ht).
  assert (HkeysW : forall k, In k (map fst W) ->
            In k (candidate_keys current_text U)).
  { intros k Hk. unfold W in Hk.
    rewrite map_app, !keys_verdict_writes, in_app_iff in Hk.
    destruct Hk as [Hk|Hk]; [exact Hk|].
    unfold candidate_keys in *. apply in_map_iff in Hk.
    destruct Hk as (t & <- & Ht). apply in_map. now apply HS. }
  destruct (writes_lookup_strong W (map fst H ++ []) c1 Hwf1 Hrec1)
    as (_ & Hlook3).
  { unfold c1. rewrite size_writes. eapply fits_incl; [|exact Hfits].
    intros k Hk. rewrite app_nil_r in Hk. apply in_app_or in Hk.
    destruct Hk as [Hk|Hk].
    - apply HkeysW in Hk. unfold candidate_keys in *.
      apply in_map_iff in Hk. destruct Hk as (t & <- & Ht).
      apply in_map. now apply HU.
    - now apply in_keys_hit_writes in Hk. }
  fold c3 in Hlook3.
  assert (Hres : forall t, In t candidates ->
            LRU.lookup (key_of current_text t) (LRU.items c3) =
            Some (resolved self current_text original_text c candidates t)).
  { intros t Ht. unfold resolved. fold U. fold S.
    destruct (LRU.lookup (key_of current_text t) (LRU.items c)) as [b|] eqn:Hk.
    - rewrite Hlook3.
      + assert (Hlast : LRU.last_write (key_of current_text t) W = None).
        { apply last_write_none. intros Hin. apply HkeysW in Hin.
          unfold candidate_keys in Hin. apply in_map_iff in Hin.
          destruct Hin as (u & Heq & Hu). apply in_uncached_of in Hu.
          rewrite Heq in Hu. destruct Hu. congruence. }
        rewrite Hlast, Hlook1. exact Hk.
      + apply in_or_app. right. rewrite app_nil_r. apply in_keys_hit_writes.
        split; [now apply in_map | congruence].
    - assert (HtU : In t U) by (apply in_uncached_of; auto).
      rewrite Hlook3.
      + unfold W. rewrite last_write_app, !last_write_verdict_writes.
        destruct (in_dec LRU.key_eq_dec (key_of current_text t)
                    (candidate_keys current_text S)) as [Hin|Hn].
        * apply has_text_keys in Hin. now rewrite Hin.
        * destruct (in_dec LRU.key_eq_dec (key_of current_text t)
                      (candidate_keys current_text U)) as [Hin|Hn'].
          -- destruct (has_text S t) eqn:Hh; [|reflexivity].
             apply (has_text_keys current_text) in Hh. tauto.
          -- exfalso. apply Hn'. now apply in_map.
      + apply in_or_app. left. unfold W.
        rewrite map_app, !keys_verdict_writes. apply in_or_app. left.
        now apply in_map. }
  destruct (_filter_transformations_uncached_spec self U current_text
              original_text w c1 l) as (k & Hk & Hrun & Hne & Hstop).
  exists k, (LRU.writes (hit_writes c3 current_text candidates) c3).
  split; [exact Hk|]. split; [|split; [|split; [|split; [|split]]]].
  - unfold filter_transformations. unfold bind at 1.
    rewrite (collect_uncached_spec current_text candidates [] w c l).
    cbn [app]. fold U. fold H. fold c1. unfold bind at 1. rewrite Hrun.
    fold S. fold W. fold c3. unfold bind at 1.
    rewrite filter_m_cache_get_spec
      by (intros t Ht; rewrite (Hres t Ht); discriminate).
    unfold ret. f_equal. f_equal. f_equal. apply filter_ext_in.
    intros t Ht. unfold cached_true. now rewrite (Hres t Ht).
  - apply wf_writes. unfold c3. now apply wf_writes.
  - unfold c3, c1. now rewrite !size_writes.
  - intros t Ht.
    destruct (writes_promotions _ c3 (promotions_hit_writes c3 current_text candidates))
      as (Hlook4 & _).
    rewrite Hlook4. now apply Hres.
  - exact Hne.
  - exact Hstop.
Qed.

(** ** Facts about the order on rendered texts and the sort *)

Lemma string_compare_not_gt_trans :
  forall a b c : string,
    String.compare a b <> Gt -> String.compare b c <> Gt ->
    String.compare a c <> Gt.
Proof.
  induction a as [|x a IH]; intros [|y b] [|z c]; simpl; try congruence.
  unfold Ascii.compare.
  destruct (N.compare_spec (N_of_ascii x) (N_of_ascii y)) as [Hxy|Hxy|Hxy];
    destruct (N.compare_spec (N_of_ascii y) (N_of_ascii z)) as [Hyz|Hyz|Hyz];
    try congruence; intros H1 H2.
  - rewrite Hxy, Hyz, N.compare_refl. eauto.
  - rewrite Hxy. apply N.compare_lt_iff in Hyz. rewrite Hyz. discriminate.
  - rewrite <- Hyz. apply N.compare_lt_iff in Hxy. rewrite Hxy. discriminate.
  - rewrite (proj2 (N.compare_lt_iff _ _) (N.lt_trans _ _ _ Hxy Hyz)).
    discriminate.
Qed.

Lemma string_leb_trans (a b c : string) :
  String.leb a b = true -> String.leb b c = true -> String.leb a c = true.
Proof.
  unfold String.leb. intros H1 H2.
  pose proof (string_compare_not_gt_trans a b c) as H.
  destruct (String.compare a b), (String.compare b c), (String.compare a c);
    try reflexivity; try discriminate; exfalso; apply H; congruence.
Qed.

Lemma string_leb_false (a b : string) :
  String.leb a b = false -> String.leb b a = true.
Proof.
  intros H. destruct (String.leb_total a b) as [H'|H']; congruence.
Qed.

Lemma insert_by_text_perm t l : Permutation (insert_by_text t l) (t :: l).
Proof.
  induction l as [|u l IH]; simpl; [reflexivity|].
  destruct (String.leb (text t) (text u)); [reflexivity|].
  rewrite IH. apply perm_swap.
Qed.

Lemma sort_by_text_perm l : Permutation (sort_by_text l) l.
Proof.
  induction l as [|t l IH]; simpl; [reflexivity|].
  rewrite insert_by_text_perm. now constructor.
Qed.

Lemma insert_by_text_sorted t l :
  sorted_by_text l -> sorted_by_text (insert_by_text t l).
Proof.
  unfold sorted_by_text. induction l as [|u l IH]; simpl; intros H.
  - repeat constructor.
  - inversion H as [|? ? Hs Hall]; subst.
    destruct (String.leb (text t) (text u)) eqn:Hle.
    + constructor; [exact H|]. constructor; [exact Hle|].
      eapply Forall_impl; [|exact Hall]. intros a Ha. simpl in Ha.
      eapply string_leb_trans; eauto.
    + constructor; [now apply IH|].
      apply (Permutation_Forall (Permutation_sym (insert_by_text_perm t l))).
      constructor; [now apply string_leb_false | exact Hall].
Qed.

Lemma sort_by_text_sorted l : sorted_by_text (sort_by_text l).
Proof.
  induction l as [|t l IH]; simpl; [constructor|].
  now apply insert_by_text_sorted.
Qed.

Lemma sorted_strings_unique (l1 : list string) :
  forall l2,
    StronglySorted (fun a b => String.leb a b = true) l1 ->
    StronglySorted (fun a b => String.leb a b = true) l2 ->
    Permutation l1 l2 -> l1 = l2.
Proof.
  induction l1 as [|x l1 IH]; intros l2 H1 H2 Hp.
  - apply Permutation_nil in Hp. now subst.
  - destruct l2 as [|y l2];
      [apply Permutation_sym, Permutation_nil in Hp; discriminate|].
    inversion H1 as [|? ? Hs1 Ha1]; inversion H2 as [|? ? Hs2 Ha2]; subst.
    assert (Hxy : x = y).
    { assert (Hx : In x (y :: l2))
        by (eapply Permutation_in; [exact Hp | now left]).
      assert (Hy : In y (x :: l1))
        by (eapply Permutation_in; [exact (Permutation_sym Hp) | now left]).
      destruct Hx as [Hx|Hx]; [congruence|].
      destruct Hy as [Hy|Hy]; [congruence|].
      rewrite Forall_forall in Ha1, Ha2.
      apply String.leb_antisym; auto. }
    subst y. f_equal. apply IH; auto. eapply Permutation_cons_inv; eauto.
Qed.

Lemma sorted_by_text_texts l :
  sorted_by_text l ->
  StronglySorted (fun a b => String.leb a b = true) (map text l).
Proof.
  unfold sorted_by_text. induction 1 as [|t l Hs IH Hall]; simpl; constructor.
  - exact IH.
  - rewrite Forall_map. exact Hall.
Qed.

(** The rendered texts of the sorted output do not depend on the order of
    the input. *)
Lemma sort_by_text_order_independent l l' :
  Permutation l l' ->
  map text (sort_by_text l) = map text (sort_by_text l').
Proof.
  intros Hp. apply sorted_strings_unique.
  - apply sorted_by_text_texts, sort_by_text_sorted.
  - apply sorted_by_text_texts, sort_by_text_sorted.
  - apply Permutation_map. rewrite !sort_by_text_perm. exact Hp.
Qed.

Lemma filter_perm {A : Type} (f : A -> bool) (l l' : list A) :
  Permutation l l' -> Permutation (filter f l) (filter f l').
Proof.
  induction 1 as [|x l l' Hp IH|x y l|l l' l'' H1 IH1 H2 IH2]; simpl.
  - constructor.
  - destruct (f x); [now constructor | exact IH].
  - destruct (f x), (f y); try reflexivity. apply perm_swap.
  - now transitivity (filter f l').
Qed.

(** ** The output of [filter_transformations] *)

(** When the entries already cached hold the verdict of the constraints and
    candidates with one rendered text get one verdict, the cache says about
    each candidate what the constraints say. *)
Lemma resolved_passes self candidates current_text original_text c :
  (forall t b, In t candidates ->
     LRU.lookup (key_of current_text t) (LRU.items c) = Some b ->
     b = passes self current_text original_text t) ->
  (forall t u, In t candidates -> In u candidates -> text t = text u ->
     passes self current_text original_text t =
     passes self current_text original_text u) ->
  forall t, In t candidates ->
    resolved self current_text original_text c candidates t =
    passes self current_text original_text t.
Proof.
  intros Hcache Htext t Ht. unfold resolved.
  destruct (LRU.lookup (key_of current_text t) (LRU.items c)) as [b|] eqn:Hk.
  - now apply Hcache.
  - destruct (passes self current_text original_text t) eqn:Hp.
    + unfold has_text. apply existsb_exists. exists t. split.
      * apply in_survivors. split; [|exact Hp]. now apply in_uncached_of.
      * apply String.eqb_refl.
    + destruct (has_text _ t) eqn:Hh; [|reflexivity].
      unfold has_text in Hh. apply existsb_exists in Hh.
      destruct Hh as (u & Hu & Heq). apply String.eqb_eq in Heq.
      apply in_survivors in Hu. destruct Hu as (Hu & Hacc).
      apply in_uncached_of in Hu. destruct Hu as (Hu & _).
      pose proof (Htext u t Hu Ht Heq) as E. unfold passes in E, Hp.
      congruence.
Qed.

(** C1: at this input the code does not do what the claim says.  The engine
    is one [__init__] builds, with a cache of one entry and no constraint;
    the candidates are "a" and "b".  Both satisfy every constraint, so the
    claim's output is the list of the two; [filter_transformations] returns
    no list: the entry of "a" was dropped when "b" was stored, and the lookup
    of "a" in the final list comprehension raises KeyError.  The same happens
    through [get_transformations]. *)
Theorem C1_key_error :
  __init__ (Some Ex.goal) [] (Some Ex.swaps) (Some Ex.giving_up) 1
    = inr (Ex.engine [] 1, cache_of (Ex.fresh 1)) /\
  sort_by_text
    (filter (passes (Ex.engine [] 1) (Ex.T "c") None) [Ex.T "a"; Ex.T "b"])
    = [Ex.T "a"; Ex.T "b"] /\
  fst (filter_transformations (Ex.engine [] 1) [Ex.T "a"; Ex.T "b"]
         (Ex.T "c") None (Ex.fresh 1))
    = inl (KeyError "c, a") /\
  fst (get_transformations (Ex.engine [] 1) Ex.cats None (Ex.fresh 1))
    = inl (KeyError "I like cats, I like hats").
Proof. repeat split. Qed.

(** The cache key leaves out [original_text]: an entry stored under one
    original text is reused under another, for which the constraint rejects
    the candidate. *)
Lemma filter_transformations_stale_original :
  let self := Ex.engine [Ex.off_original] 8 in
  let w1 := snd (filter_transformations self [Ex.T "x"; Ex.T "y"] (Ex.T "c")
                   None (Ex.fresh 8)) in
  fst (filter_transformations self [Ex.T "x"; Ex.T "y"] (Ex.T "c")
         (Some (Ex.T "x")) w1) = inr [Ex.T "x"; Ex.T "y"] /\
  passes self (Ex.T "c") (Some (Ex.T "x")) (Ex.T "x") = false.
Proof. split; reflexivity. Qed.

(** Two candidates with one rendered text share a cache entry: when one of
    them survives, both are returned. *)
Lemma filter_transformations_shared_entry :
  let self := Ex.engine [Ex.one_change] 8 in
  let t1 := mkAttackedText "x" [("newly_modified_indices"%string, VInts [1%Z])] in
  let t2 := mkAttackedText "x"
              [("newly_modified_indices"%string, VInts [1%Z; 2%Z])] in
  fst (filter_transformations self [t1; t2] (Ex.T "c") None (Ex.fresh 8))
    = inr [t1; t2] /\
  passes self (Ex.T "c") None t2 = false.
Proof. split; reflexivity. Qed.

(** ** What [filter_transformations] does to the cache in every case *)

Lemma keys_of_lookup k c v :
  LRU.lookup k (LRU.items c) = Some v -> In k (LRU.keys c).
Proof. intros H. apply lookup_some_in. congruence. Qed.




Lemma pipeline_calls_args Cs current_text original_text xs k C ys :
  In (C, ys) (pipeline_calls Cs current_text original_text xs k) ->
  exists j, j < k /\
    ys = survivors (firstn j Cs) current_text original_text xs.
Proof.
  unfold pipeline_calls. intros Hin. apply in_combine_r in Hin.
  apply in_map_iff in Hin. destruct Hin as (j & Heq & Hj).
  apply in_seq in Hj. exists j. split; [lia | congruence].
Qed.

(** ** Facts about the cache entries *)

Lemma last_write_verdicts current_text candidates S t :
  In t candidates ->
  LRU.last_write (key_of current_text t)
    (verdict_writes current_text candidates false ++
     verdict_writes current_text S true) = Some (has_text S t).
Proof.
  intros Ht. rewrite last_write_app, !last_write_verdict_writes.
  destruct (in_dec LRU.key_eq_dec (key_of current_text t)
              (candidate_keys current_text S)) as [Hin|Hn].
  - apply has_text_keys in Hin. now rewrite Hin.
  - destruct (in_dec LRU.key_eq_dec (key_of current_text t)
                (candidate_keys current_text candidates)) as [Hin|Hn'].
    + destruct (has_text S t) eqn:Hh; [|reflexivity].
      apply (has_text_keys current_text) in Hh. tauto.
    + exfalso. apply Hn'. now apply in_map.
Qed.

Lemma pipeline_stops_on_nil Cs current_text original_text k :
  (forall j, j < k ->
     survivors (firstn j Cs) current_text original_text [] <> []) ->
  k = 0.
Proof.
  intros H. destruct k as [|k]; [reflexivity|].
  exfalso. apply (H 0); [lia | reflexivity].
Qed.


(** ** The constraint pipeline *)

Lemma nth_error_pipeline_calls current_text original_text Cs :
  forall xs k j C ys,
    nth_error (pipeline_calls Cs current_text original_text xs k) j
      = Some (C, ys) <->
    j < k /\ nth_error Cs j = Some C /\
    ys = survivors (firstn j Cs) current_text original_text xs.
Proof.
  induction Cs as [|C0 Cs IH]; intros xs k j C ys.
  - unfold pipeline_calls. rewrite firstn_nil. cbn [combine].
    destruct j; cbn [nth_error]; split; try discriminate;
      intros (_ & H & _); discriminate.
  - destruct k as [|k].
    + unfold pipeline_calls. cbn [firstn combine].
      destruct j; cbn [nth_error]; split; try discriminate; intros (H & _); lia.
    + rewrite pipeline_calls_step. destruct j as [|j]; cbn [nth_error firstn].
      * rewrite survivors_nil_constraints. split.
        -- intros H. inversion H; subst. repeat split. lia.
        -- intros (_ & H & ->). congruence.
      * rewrite IH, survivors_cons. split; intros (H1 & H2 & H3);
          repeat split; auto; lia.
Qed.

Lemma length_pipeline_calls current_text original_text Cs xs k :
  k <= length Cs ->
  length (pipeline_calls Cs current_text original_text xs k) = k.
Proof.
  intros Hk. unfold pipeline_calls.
  rewrite length_combine, length_firstn, length_map, length_seq. lia.
Qed.

Lemma survivors_next current_text original_text Cs :
  forall xs j C,
    nth_error Cs j = Some C ->
    survivors (firstn (S j) Cs) current_text original_text xs =
    call_many C (survivors (firstn j Cs) current_text original_text xs)
      current_text original_text.
Proof.
  induction Cs as [|C0 Cs IH]; intros xs j C Hj.
  - destruct j; discriminate.
  - destruct j as [|j]; cbn [nth_error] in Hj.
    + inversion Hj; subst. cbn [firstn].
      now rewrite survivors_cons, !survivors_nil_constraints.
    + change (firstn (S (S j)) (C0 :: Cs)) with (C0 :: firstn (S j) Cs).
      change (firstn (S j) (C0 :: Cs)) with (C0 :: firstn j Cs).
      rewrite !survivors_cons. now apply IH.
Qed.

Lemma survivors_stay_empty current_text original_text Cs :
  forall k xs,
    survivors (firstn k Cs) current_text original_text xs = [] ->
    survivors Cs current_text original_text xs = [].
Proof.
  induction Cs as [|C0 Cs IH]; intros k xs H.
  - now rewrite firstn_nil in H.
  - destruct k as [|k]; cbn [firstn] in H.
    + rewrite survivors_nil_constraints in H. now subst.
    + rewrite survivors_cons in *. eapply IH; eauto.
Qed.

(** C4: [_filter_transformations_uncached] returns the candidates every
    constraint accepts and invokes [call_many] on a prefix of the configured
    constraints, in their order: the constraint at position [j] is given the
    survivors of the constraints before it, which is what the previous
    invocation returned; no invocation is given an empty list; and when the
    loop stops before the last constraint the survivors, and the result, are
    empty.  With no candidate at all, no constraint is invoked. *)
Theorem C4_pipeline self candidates current_text original_text w :
  let Cs := constraints self in
  let run := _filter_transformations_uncached self candidates current_text
               original_text w in
  exists k calls,
    k <= length Cs /\
    fst run = inr (survivors Cs current_text original_text candidates) /\
    constraint_calls (snd run) = constraint_calls w ++ calls /\
    length calls = k /\
    (forall j C ys,
       nth_error calls j = Some (C, ys) <->
       j < k /\ nth_error Cs j = Some C /\
       ys = survivors (firstn j Cs) current_text original_text candidates) /\
    (forall j C ys C' ys',
       nth_error calls j = Some (C, ys) ->
       nth_error calls (S j) = Some (C', ys') ->
       ys' = call_many C ys current_text original_text) /\
    (forall C ys, In (C, ys) calls -> ys <> []) /\
    (k < length Cs ->
     survivors (firstn k Cs) current_text original_text candidates = [] /\
     fst run = inr []) /\
    (candidates = [] -> calls = []).
Proof.
  intros Cs run.
  destruct (_filter_transformations_uncached_spec self candidates current_text
              original_text w (cache_of w) [])
    as (k & Hk & Hrun & Hne & Hstop).
  rewrite after_id in Hrun. fold Cs in Hk, Hrun, Hne, Hstop.
  exists k, (pipeline_calls Cs current_text original_text candidates k).
  subst run. rewrite Hrun. cbn [fst snd app].
  split; [exact Hk|]. split; [reflexivity|]. split; [reflexivity|].
  split; [now apply length_pipeline_calls|].
  split; [apply nth_error_pipeline_calls|].
  split; [|split; [|split]].
  - intros j C ys C' ys' H1 H2.
    apply nth_error_pipeline_calls in H1, H2.
    destruct H1 as (_ & HC & ->). destruct H2 as (_ & _ & ->).
    now apply survivors_next.
  - intros C ys Hin. apply pipeline_calls_args in Hin.
    destruct Hin as (j & Hj & ->). now apply Hne.
  - intros Hlt. split; [now apply Hstop|].
    f_equal. eapply survivors_stay_empty. now apply Hstop.
  - intros ->. apply pipeline_stops_on_nil in Hne. now subst k.
Qed.

(** ** Calling [filter_transformations] twice *)

Lemma filter_m_cache_get_returns current_text candidates :
  forall w c l xs w',
    filter_m (fun t => cache_get (key_of current_text t)) candidates
      (after w c l) = (inr xs, w') ->
    forall t, In t candidates ->
      LRU.lookup (key_of current_text t) (LRU.items c) <> None.
Proof.
  induction candidates as [|u rest IH]; intros w c l xs w' Hrun t Ht;
    [destruct Ht|].
  cbn [filter_m] in Hrun. unfold bind at 1 in Hrun.
  unfold cache_get at 1 in Hrun. rewrite cache_of_after in Hrun.
  destruct (LRU.lookup (key_of current_text u) (LRU.items c)) as [v|] eqn:Hk.
  - destruct Ht as [<-|Ht]; [congruence|].
    rewrite (getitem_hit _ _ _ Hk), set_cache_after in Hrun.
    unfold bind at 1 in Hrun.
    destruct (filter_m _ rest _) as [[e|ys] w''] eqn:Hrest; [discriminate|].
    rewrite <- (lookup_promote _ _ _ _ Hk). eapply IH; eauto.
  - rewrite (getitem_miss _ _ Hk) in Hrun. discriminate.
Qed.

(** The three phases of [filter_transformations]: the lookups of the list
    comprehension start from the cache left by the two earlier phases. *)
Lemma filter_transformations_phases self candidates current_text original_text
    w c l :
  let U := uncached_of c current_text candidates in
  let c3 :=
    LRU.writes
      (verdict_writes current_text U false ++
       verdict_writes current_text
         (survivors (constraints self) current_text original_text U) true)
      (LRU.writes (hit_writes c current_text candidates) c) in
  exists k,
    filter_transformations self candidates current_text original_text
      (after w c l) =
    (let (r, w') :=
       filter_m (fun t => cache_get (key_of current_text t)) candidates
         (after w c3
            (l ++ pipeline_calls (constraints self) current_text original_text
                    U k)) in
     (match r with inl e => inl e | inr xs => inr (sort_by_text xs) end, w')) /\
    (U = [] -> k = 0).
Proof.
  intros U c3.
  destruct (_filter_transformations_uncached_spec self U current_text
              original_text w
              (LRU.writes (hit_writes c current_text candidates) c) l)
    as (k & _ & Hrun & Hne & _).
  exists k. split.
  - unfold filter_transformations. unfold bind at 1.
    rewrite (collect_uncached_spec current_text candidates [] w c l).
    cbn [app]. fold U. unfold bind at 1. rewrite Hrun. fold c3.
    unfold bind at 1.
    destruct (filter_m _ candidates _) as [[e|xs] w']; reflexivity.
  - intros HU. rewrite HU in Hne. now apply pipeline_stops_on_nil in Hne.
Qed.

(** When every candidate has an entry, [filter_transformations] decides from
    the cache alone. *)
Lemma filter_transformations_all_hits self candidates current_text
    original_text w c l :
  (forall t, In t candidates ->
     LRU.lookup (key_of current_text t) (LRU.items c) <> None) ->
  exists c',
    filter_transformations self candidates current_text original_text
      (after w c l) =
    (inr (sort_by_text (filter (cached_true c current_text) candidates)),
     after w c' l) /\
    (forall k, LRU.lookup k (LRU.items c') = LRU.lookup k (LRU.items c)).
Proof.
  intros Hall.
  assert (HU : uncached_of c current_text candidates = []).
  { unfold uncached_of.
    induction candidates as [|t rest IH]; [reflexivity|].
    cbn [filter]. unfold LRU.contains.
    destruct (LRU.lookup (key_of current_text t) (LRU.items c)) eqn:Hk.
    - cbn [negb]. apply IH. intros u Hu. apply Hall. now right.
    - exfalso. apply (Hall t); [now left | exact Hk]. }
  destruct (filter_transformations_phases self candidates current_text
              original_text w c l) as (k & Hrun & Hk).
  rewrite (Hk HU) in Hrun. rewrite HU in Hrun.
  unfold pipeline_calls in Hrun.
  cbn [survivors filter verdict_writes map app LRU.writes fold_left
       firstn seq combine] in Hrun.
  rewrite app_nil_r in Hrun.
  destruct (writes_promotions (hit_writes c current_text candidates) c
              (promotions_hit_writes _ _ _)) as (Hlook1 & _).
  set (c1 := LRU.writes (hit_writes c current_text candidates) c) in *.
  rewrite filter_m_cache_get_spec in Hrun
    by (intros t Ht; rewrite Hlook1; now apply Hall).
  destruct (writes_promotions (hit_writes c1 current_text candidates) c1
              (promotions_hit_writes _ _ _)) as (Hlook2 & _).
  exists (LRU.writes (hit_writes c1 current_text candidates) c1). split.
  - rewrite Hrun. f_equal. f_equal. f_equal. apply filter_ext.
    intros t. now apply cached_true_ext.
  - intros k0. now rewrite Hlook2, Hlook1.
Qed.

(** ** The entries of the cache *)



(** When [filter_transformations] returns, every candidate has an entry, the
    entry it had before or else the verdict of the uncached batch, and the
    output is decided from these entries. *)
Lemma filter_transformations_returned self candidates current_text
    original_text w out w' :
  filter_transformations self candidates current_text original_text w
    = (inr out, w') ->
  out = sort_by_text
          (filter (resolved self current_text original_text (cache_of w)
                     candidates) candidates) /\
  (forall t, In t candidates ->
     cached w' current_text t =
     Some (resolved self current_text original_text (cache_of w) candidates t)).
Proof.
  intros Hfirst.
  destruct (filter_transformations_phases self candidates current_text
              original_text w (cache_of w) []) as (k & Hrun & _).
  rewrite after_id, Hfirst in Hrun. cbn [app] in Hrun.
  set (c := cache_of w) in *.
  set (U := uncached_of c current_text candidates) in *.
  set (S := survivors (constraints self) current_text original_text U) in *.
  set (H := hit_writes c current_text candidates) in *.
  set (W := verdict_writes current_text U false ++
            verdict_writes current_text S true) in *.
  set (c3 := LRU.writes W (LRU.writes H c)) in *.
  set (calls := pipeline_calls _ _ _ _ k) in Hrun.
  destruct (filter_m _ candidates (after w c3 calls)) as [[e|xs] w''] eqn:Hget;
    [discriminate|].
  inversion Hrun; subst out w'. clear Hrun.
  pose proof (filter_m_cache_get_returns _ _ _ _ _ _ _ Hget) as Hall.
  rewrite (filter_m_cache_get_spec current_text candidates w c3 calls Hall)
    in Hget.
  inversion Hget; subst xs w''. clear Hget.
  destruct (writes_promotions (hit_writes c3 current_text candidates) c3
              (promotions_hit_writes _ _ _)) as (Hlook & _).
  destruct (writes_promotions H c (promotions_hit_writes _ _ _))
    as (Hlook1 & _).
  assert (Hres : forall t, In t candidates ->
            LRU.lookup (key_of current_text t) (LRU.items c3) =
            Some (resolved self current_text original_text c candidates t)).
  { intros t Ht.
    destruct (LRU.lookup (key_of current_text t) (LRU.items c3)) as [b|] eqn:Hb;
      [|exfalso; now apply (Hall t Ht)].
    pose proof Hb as Hb'. unfold c3 in Hb'. apply writes_lookup_weak in Hb'.
    unfold resolved. fold U. fold S.
    destruct (LRU.lookup (key_of current_text t) (LRU.items c)) as [b0|] eqn:Hk.
    - assert (Hlast : LRU.last_write (key_of current_text t) W = None).
      { apply last_write_none. intros Hin. unfold W in Hin.
        rewrite map_app, !keys_verdict_writes, in_app_iff in Hin.
        unfold candidate_keys in Hin.
        destruct Hin as [Hin|Hin]; apply in_map_iff in Hin;
          destruct Hin as (u & Heq & Hu).
        - apply in_uncached_of in Hu. rewrite Heq in Hu. destruct Hu. congruence.
        - apply in_survivors in Hu. destruct Hu as (Hu & _).
          apply in_uncached_of in Hu. rewrite Heq in Hu. destruct Hu.
          congruence. }
      rewrite Hlast, Hlook1, Hk in Hb'. congruence.
    - assert (HtU : In t U) by (apply in_uncached_of; auto).
      unfold W in Hb'.
      rewrite (last_write_verdicts current_text U S t HtU) in Hb'. now subst. }
  split.
  - f_equal. apply filter_ext_in. intros t Ht. unfold cached_true.
    now rewrite (Hres t Ht).
  - intros t Ht. unfold cached. rewrite cache_of_after, Hlook. now apply Hres.
Qed.



(** C3, unconditionally, fails: with a cache of one entry, one constraint and
    the candidates "a" and "b", the second of two identical calls invokes the
    constraint again, on "a", whose entry was dropped, and returns no list:
    it raises KeyError. *)
Lemma C3_counterexample :
  let self := Ex.engine [Ex.changed] 1 in
  let candidates := [Ex.T "a"; Ex.T "b"] in
  let w1 := snd (filter_transformations self candidates (Ex.T "c") None
                   (Ex.fresh 1)) in
  let second := filter_transformations self candidates (Ex.T "c") None w1 in
  constraint_calls (snd second)
    = constraint_calls w1 ++ [(Ex.changed, [Ex.T "a"])] /\
  fst second = inl (KeyError "c, b").
Proof. split; reflexivity. Qed.

(** C3, under its condition: whenever a call of [filter_transformations] returns a
    list, every pair it was given has an entry, and a second call with the
    same arguments invokes no constraint and returns the same list in the
    same order; the first call does return when the distinct rendered texts
    of the candidates fit in the cache. *)
Theorem C3_second_call self candidates current_text original_text w :
  (forall r w1,
     filter_transformations self candidates current_text original_text w
       = (inr r, w1) ->
     (forall t, In t candidates -> cached w1 current_text t <> None) /\
     exists w2,
       filter_transformations self candidates current_text original_text w1
         = (inr r, w2) /\
       constraint_calls w2 = constraint_calls w1) /\
  (LRU.wf (cache_of w) ->
   LRU.fits (candidate_keys current_text candidates) (LRU.size (cache_of w)) ->
   exists r w1,
     filter_transformations self candidates current_text original_text w
       = (inr r, w1)).
Proof.
  split.
  - intros r w1 Hfirst.
    destruct (filter_transformations_phases self candidates current_text
                original_text w (cache_of w) []) as (k & Hrun & _).
    rewrite after_id, Hfirst in Hrun. cbn [app] in Hrun.
    set (c3 := LRU.writes _ (LRU.writes _ (cache_of w))) in Hrun.
    set (calls := pipeline_calls _ _ _ _ k) in Hrun.
    destruct (filter_m _ candidates (after w c3 calls)) as [[e|xs] w'] eqn:Hget;
      [discriminate|].
    inversion Hrun; subst r w1. clear Hrun.
    pose proof (filter_m_cache_get_returns _ _ _ _ _ _ _ Hget) as Hall.
    rewrite (filter_m_cache_get_spec current_text candidates w c3 calls Hall)
      in Hget.
    inversion Hget; subst xs w'. clear Hget.
    destruct (writes_promotions (hit_writes c3 current_text candidates) c3
                (promotions_hit_writes _ _ _)) as (Hlook & _).
    set (c4 := LRU.writes (hit_writes c3 current_text candidates) c3) in *.
    assert (Hall4 : forall t, In t candidates ->
              LRU.lookup (key_of current_text t) (LRU.items c4) <> None)
      by (intros t Ht; rewrite Hlook; now apply Hall).
    split.
    + intros t Ht. unfold cached. rewrite cache_of_after. now apply Hall4.
    + destruct (filter_transformations_all_hits self candidates current_text
                  original_text w c4 calls Hall4) as (c5 & Hsecond & _).
      exists (after w c5 calls). split; [|reflexivity].
      rewrite Hsecond. f_equal. f_equal. f_equal. apply filter_ext.
      intros t. now apply cached_true_ext.
  - intros Hwf Hfits.
    destruct (filter_transformations_run self candidates current_text
                original_text w (cache_of w) [] Hwf Hfits)
      as (k & c' & _ & Hrun & _).
    rewrite after_id in Hrun. eauto.
Qed.

(** ** Dataset traversal *)

Lemma get_example_in_bounds self dataset i w text ground_truth_output :
  seq_getitem (examples dataset) i = Some (text, ground_truth_output) ->
  let w0 := mkWorld (mkState (cache_of w) 0) (constraint_calls w)
              (search_calls w) in
  let evaluation :=
    get_result (goal_function self) (attacked_text_of dataset text)
      ground_truth_output (st w0) in
  get_example self dataset i w =
  (inr (if succeeded (fst evaluation)
        then set_output (fst evaluation) ground_truth_output
        else fst evaluation),
   with_state w0 (snd evaluation)).
Proof.
  intros Hi w0 evaluation. unfold get_example. rewrite Hi.
  unfold bind at 1. unfold set_num_queries at 1. fold w0.
  unfold bind at 1. unfold lift at 1.
  fold (attacked_text_of dataset text). fold evaluation.
  destruct evaluation as [r s1]. cbn [fst snd].
  destruct (succeeded r); reflexivity.
Qed.

Lemma get_example_out_of_bounds self dataset i w :
  seq_getitem (examples dataset) i = None ->
  get_example self dataset i w =
  (inl (IndexError (out_of_bounds_message dataset i)), w).
Proof. intros Hi. unfold get_example. now rewrite Hi. Qed.

Lemma attack_one_run self initial w :
  exists o w2,
    attack_one self initial w = (inr o, w2) /\
    search_calls w2 = search_calls w ++ [initial] /\
    searched o = [initial].
Proof.
  unfold attack_one. unfold bind at 1. unfold call_search at 1.
  destruct (search (search_method self) initial (st w)) as [final s'].
  unfold bind at 1. unfold get_num_queries at 1.
  destruct (succeeded final); eexists; eexists; repeat split.
Qed.

(** One example of the queue: its outcome is yielded, and the traversal goes
    on from the world the example left. *)
Lemma attack_queue_step self dataset i queue w :
  seq_getitem (examples dataset) i <> None ->
  exists o w2,
    outcome_of self dataset i o /\
    search_calls w2 = search_calls w ++ searched o /\
    attack_queue self dataset (i :: queue) w =
    yielded_first [o] (attack_queue self dataset queue w2).
Proof.
  intros Hi.
  destruct (seq_getitem (examples dataset) i) as [[text gt]|] eqn:Hget;
    [clear Hi | congruence].
  pose proof (get_example_in_bounds self dataset i w text gt Hget) as Hex.
  cbv zeta in Hex.
  set (w0 := mkWorld (mkState (cache_of w) 0) (constraint_calls w)
               (search_calls w)) in *.
  set (evaluation := get_result (goal_function self)
                       (attacked_text_of dataset text) gt (st w0)) in *.
  cbn [attack_queue]. rewrite Hex. unfold attack_example.
  destruct (succeeded (fst evaluation)) eqn:Hs.
  - exists (SkippedAttackResult (set_output (fst evaluation) gt)),
      (with_state w0 (snd evaluation)).
    split; [|split].
    + exists text, gt, w0. split; [exact Hget|]. split; [reflexivity|].
      cbv zeta. fold evaluation. rewrite Hs. split; reflexivity.
    + cbn [searched]. now rewrite app_nil_r.
    + cbn [set_output succeeded]. rewrite Hs. unfold ret, yielded_first.
      destruct (attack_queue self dataset queue _) as [[rs e] w3]. reflexivity.
  - destruct (attack_one_run self (fst evaluation)
                (with_state w0 (snd evaluation))) as (o & w2 & Hone & Hlog & Ho).
    exists o, w2. split; [|split].
    + exists text, gt, w0. split; [exact Hget|]. split; [reflexivity|].
      cbv zeta. fold evaluation. rewrite Hs. exists w2. split; [exact Hone|].
      exact Hlog.
    + rewrite Ho. exact Hlog.
    + rewrite Hs, Hone. unfold yielded_first.
      destruct (attack_queue self dataset queue w2) as [[rs e] w3]. reflexivity.
Qed.

(** A run of in-bounds indices: one outcome each, in order, and the search
    method invoked exactly on the examples that were not skipped. *)
Lemma attack_queue_app self dataset before :
  forall queue w,
    (forall i, In i before -> seq_getitem (examples dataset) i <> None) ->
    exists results w1,
      Forall2 (outcome_of self dataset) before results /\
      search_calls w1 = search_calls w ++ flat_map searched results /\
      attack_queue self dataset (before ++ queue) w =
      yielded_first results (attack_queue self dataset queue w1).
Proof.
  induction before as [|i before IH]; intros queue w Hall.
  - exists [], w. split; [constructor|]. split; [now rewrite app_nil_r|].
    unfold yielded_first. cbn [app flat_map].
    destruct (attack_queue self dataset queue w) as [[rs e] w3]. reflexivity.
  - destruct (attack_queue_step self dataset i (before ++ queue) w)
      as (o & w2 & Ho & Hlog & Hrun); [apply Hall; now left|].
    destruct (IH queue w2) as (results & w1 & Hres & Hlog1 & Hrun1);
      [intros j Hj; apply Hall; now right|].
    exists (o :: results), w1. split; [now constructor|]. split.
    + cbn [flat_map]. now rewrite Hlog1, Hlog, app_assoc.
    + cbn [app]. rewrite Hrun, Hrun1. unfold yielded_first.
      destruct (attack_queue self dataset queue w1) as [[rs e] w3]. reflexivity.
Qed.

Lemma examples_queue_app self dataset before :
  forall queue w,
    (forall i, In i before -> seq_getitem (examples dataset) i <> None) ->
    exists results w1,
      length results = length before /\
      examples_queue self dataset (before ++ queue) w =
      yielded_first results (examples_queue self dataset queue w1).
Proof.
  induction before as [|i before IH]; intros queue w Hall.
  - exists [], w. split; [reflexivity|]. unfold yielded_first. cbn [app].
    destruct (examples_queue self dataset queue w) as [[rs e] w3]. reflexivity.
  - destruct (seq_getitem (examples dataset) i) as [[text gt]|] eqn:Hget;
      [|exfalso; apply (Hall i); [now left | exact Hget]].
    pose proof (get_example_in_bounds self dataset i w text gt Hget) as Hex.
    cbv zeta in Hex. cbn [app examples_queue]. rewrite Hex. cbv beta iota.
    match goal with
    | |- context [examples_queue self dataset (before ++ queue) ?w2] =>
        destruct (IH queue w2) as (results & w1 & Hlen & Hrun);
          [intros j Hj; apply Hall; now right|]
    end.
    eexists (_ :: results), w1. split; [cbn [length]; now rewrite Hlen|].
    rewrite Hrun. unfold yielded_first.
    destruct (examples_queue self dataset queue w1) as [[rs e] w3]. reflexivity.
Qed.

Lemma range_in_bounds {A : Type} (l : list A) i :
  In i (range (length l)) -> seq_getitem l i <> None.
Proof.
  unfold range. intros Hin. apply in_map_iff in Hin.
  destruct Hin as (n & <- & Hn). apply in_seq in Hn.
  unfold seq_getitem. destruct (Z.leb_spec 0 (Z.of_nat n)); [|lia].
  rewrite Nat2Z.id. apply nth_error_Some. lia.
Qed.

Lemma string_app_assoc (a b c : string) :
  ((a ++ b) ++ c = a ++ b ++ c)%string.
Proof. induction a as [|x a IH]; simpl; congruence. Qed.

Lemma string_app_nil_r (a : string) : (a ++ "" = a)%string.
Proof. induction a as [|x a IH]; simpl; congruence. Qed.

Lemma out_of_bounds_message_mentions dataset i :
  occurs_in (str_of_int i) (out_of_bounds_message dataset i) /\
  occurs_in (str_of_int (Z.of_nat (length (examples dataset))))
    (out_of_bounds_message dataset i).
Proof.
  unfold out_of_bounds_message, occurs_in.
  set (a := "Out of bounds access of dataset. Size of data is "%string).
  set (b := str_of_int (Z.of_nat (length (examples dataset)))).
  set (c := " but tried to access index "%string).
  set (d := str_of_int i).
  split.
  - exists (a ++ b ++ c)%string, ""%string.
    rewrite string_app_nil_r, (string_app_assoc a (b ++ c) d).
    now rewrite (string_app_assoc b c d).
  - exists a, (c ++ d)%string. reflexivity.
Qed.

(** C5: when every index of the traversal is within the dataset,
    [attack_dataset] yields exactly one outcome per index, in order, and no
    exception.  For an example whose initial goal-function result reports
    success the outcome is the Skipped one, carrying that result with the
    ground truth as its output; for every other example it is the outcome
    [attack_one] returned.  The search method is invoked exactly once for
    each example that is not skipped, in order, and never for a skipped
    one. *)
Theorem C5_skipped_examples self dataset indices w :
  (forall i, In i (initial_indices dataset indices) ->
     seq_getitem (examples dataset) i <> None) ->
  exists results w',
    attack_dataset self dataset indices w = ((results, None), w') /\
    Forall2 (outcome_of self dataset) (initial_indices dataset indices)
      results /\
    search_calls w' = search_calls w ++ flat_map searched results /\
    (forall r, In (SkippedAttackResult r) results -> succeeded r = true) /\
    (forall r, In r (flat_map searched results) -> succeeded r = false).
Proof.
  intros Hall.
  destruct (attack_queue_app self dataset (initial_indices dataset indices)
              [] w Hall) as (results & w1 & Hres & Hlog & Hrun).
  exists results, w1. unfold attack_dataset.
  rewrite app_nil_r in Hrun. rewrite Hrun. cbn [attack_queue yielded_first].
  rewrite app_nil_r. split; [reflexivity|]. split; [exact Hres|].
  split; [exact Hlog|].
  clear Hrun Hlog Hall. split.
  - induction Hres as [|i o idxs os Ho _ IH]; intros r Hin; [destruct Hin|].
    destruct Hin as [->|Hin]; [|now apply IH].
    destruct Ho as (text & gt & w0 & _ & _ & Ho). cbv zeta in Ho.
    destruct (succeeded (fst (get_result _ _ _ _))) eqn:Hs.
    + destruct Ho as (Ho & _). inversion Ho; subst. exact Hs.
    + destruct Ho as (w2 & Hone & _).
      destruct (attack_one_run self
                  (fst (get_result (goal_function self)
                          (attacked_text_of dataset text) gt (st w0)))
                  (with_state w0
                     (snd (get_result (goal_function self)
                             (attacked_text_of dataset text) gt (st w0)))))
        as (o' & w2' & Hone' & _ & Ho').
      rewrite Hone in Hone'. inversion Hone'; subst o'. discriminate.
  - induction Hres as [|i o idxs os Ho _ IH]; intros r Hin; [destruct Hin|].
    cbn [flat_map] in Hin. apply in_app_or in Hin.
    destruct Hin as [Hin|Hin]; [|now apply IH].
    destruct Ho as (text & gt & w0 & _ & _ & Ho). cbv zeta in Ho.
    destruct (succeeded (fst (get_result _ _ _ _))) eqn:Hs.
    + destruct Ho as (-> & _). destruct Hin.
    + destruct Ho as (w2 & Hone & _).
      destruct (attack_one_run self
                  (fst (get_result (goal_function self)
                          (attacked_text_of dataset text) gt (st w0)))
                  (with_state w0
                     (snd (get_result (goal_function self)
                             (attacked_text_of dataset text) gt (st w0)))))
        as (o' & w2' & Hone' & _ & Ho').
      rewrite Hone in Hone'. inversion Hone'; subst o'.
      rewrite Ho' in Hin. destruct Hin as [<-|[]]. exact Hs.
Qed.

(** C6: when the traversal reaches an index outside the dataset, after
    indices that are all within it, the outcomes of the earlier examples are
    yielded and then IndexError is raised out of [attack_dataset], and out of
    [_get_examples_from_dataset] itself; its message contains the index and
    the size of the dataset. *)
Theorem C6_out_of_bounds self dataset indices w before i rest :
  initial_indices dataset indices = before ++ i :: rest ->
  (forall j, In j before -> seq_getitem (examples dataset) j <> None) ->
  seq_getitem (examples dataset) i = None ->
  let error := IndexError (out_of_bounds_message dataset i) in
  (exists results w',
     attack_dataset self dataset indices w = ((results, Some error), w') /\
     Forall2 (outcome_of self dataset) before results) /\
  (exists results w',
     _get_examples_from_dataset self dataset indices w
       = ((results, Some error), w') /\
     length results = length before) /\
  occurs_in (str_of_int i) (out_of_bounds_message dataset i) /\
  occurs_in (str_of_int (Z.of_nat (length (examples dataset))))
    (out_of_bounds_message dataset i).
Proof.
  intros Hq Hall Hi error. split; [|split].
  - destruct (attack_queue_app self dataset before (i :: rest) w Hall)
      as (results & w1 & Hres & _ & Hrun).
    exists results, w1. split; [|exact Hres].
    unfold attack_dataset. rewrite Hq, Hrun. cbn [attack_queue].
    rewrite (get_example_out_of_bounds self dataset i w1 Hi).
    unfold yielded_first. now rewrite app_nil_r.
  - destruct (examples_queue_app self dataset before (i :: rest) w Hall)
      as (results & w1 & Hlen & Hrun).
    exists results, w1. split; [|exact Hlen].
    unfold _get_examples_from_dataset. rewrite Hq, Hrun. cbn [examples_queue].
    rewrite (get_example_out_of_bounds self dataset i w1 Hi).
    unfold yielded_first. now rewrite app_nil_r.
  - apply out_of_bounds_message_mentions.
Qed.

(** C7: [Attack.__init__] with the goal function, the transformation or the
    search method absent returns no engine: it raises the error of a missing
    component, a NameError, whatever the other arguments are. *)
Theorem C7_missing_component goal_function constraints transformation
    search_method constraint_cache_size :
  goal_function = None \/ transformation = None \/ search_method = None ->
  exists msg,
    __init__ goal_function constraints transformation search_method
      constraint_cache_size = inl (NameError msg).
Proof.
  unfold __init__.
  destruct goal_function as [gf|]; [|intros _; eexists; reflexivity].
  destruct search_method as [sm|]; [|intros _; eexists; reflexivity].
  destruct transformation as [T|]; [|intros _; eexists; reflexivity].
  intros [H|[H|H]]; discriminate.
Qed.

(** C10: an empty [indices] sequence is treated as [None]: the traversal
    runs over all the indices of the dataset in order and yields one outcome
    per example. *)
Theorem C10_empty_indices self dataset w :
  attack_dataset self dataset (Some []) w = attack_dataset self dataset None w /\
  _get_examples_from_dataset self dataset (Some []) w
    = _get_examples_from_dataset self dataset None w /\
  initial_indices dataset (Some []) = range (length (examples dataset)) /\
  exists results w',
    attack_dataset self dataset (Some []) w = ((results, None), w') /\
    length results = length (examples dataset) /\
    Forall2 (outcome_of self dataset) (range (length (examples dataset)))
      results.
Proof.
  split; [reflexivity|]. split; [reflexivity|]. split; [reflexivity|].
  destruct (attack_queue_app self dataset (range (length (examples dataset)))
              [] w) as (results & w' & Hres & _ & Hrun).
  - intros i Hi. now apply range_in_bounds.
  - exists results, w'. split; [|split; [|exact Hres]].
    + unfold attack_dataset. cbn [initial_indices].
      rewrite app_nil_r in Hrun. rewrite Hrun.
      cbn [attack_queue yielded_first]. now rewrite app_nil_r.
    + apply Forall2_length in Hres.
      unfold range in Hres. now rewrite length_map, length_seq in Hres.
Qed.

(** ** [WordEmbeddingDistance._check_constraint] *)

Section WordEmbeddingDistanceFacts.

Import WordEmbeddingDistance.

Lemma embedding_state self a s : snd (embedding self a s) = s.
Proof.
  unfold embedding. destruct (seq_getitem (word_embeddings self) a);
    reflexivity.
Qed.

Lemma logged_cos_sim_untouched s a b m :
  cos_sim_untouched s
    (mkWstate (cos_sim_mat s) m (metric_calls s ++ [MseDistCall a b])).
Proof.
  unfold cos_sim_untouched. cbn [cos_sim_mat metric_calls].
  rewrite filter_app. cbn [filter is_cos_sim_call].
  now rewrite app_nil_r.
Qed.

Lemma logged_mse_dist_untouched s a b m :
  mse_dist_untouched s
    (mkWstate m (mse_dist_mat s) (metric_calls s ++ [CosSimCall a b])).
Proof.
  unfold mse_dist_untouched. cbn [mse_dist_mat metric_calls].
  rewrite filter_app. cbn [filter is_mse_dist_call].
  now rewrite app_nil_r.
Qed.

Lemma get_mse_dist_cos self a b s :
  cos_sim_untouched s (snd (get_mse_dist self a b s)).
Proof.
  unfold get_mse_dist. unfold bind at 1. unfold log_call at 1.
  set (s0 := mkWstate (cos_sim_mat s) (mse_dist_mat s)
               (metric_calls s ++ [MseDistCall a b])).
  assert (H0 : cos_sim_untouched s s0) by apply logged_cos_sim_untouched.
  destruct (matrix_get _ _ (mse_dist_mat s0)); [exact H0|].
  unfold bind at 1.
  pose proof (embedding_state self (Z.min a b) s0) as H1.
  destruct (embedding self (Z.min a b) s0) as [[e|e1] s1];
    cbn [snd] in H1; subst s1; [exact H0|].
  unfold bind at 1.
  pose proof (embedding_state self (Z.max a b) s0) as H2.
  destruct (embedding self (Z.max a b) s0) as [[e|e2] s2];
    cbn [snd] in H2; subst s2; [exact H0|].
  destruct (matrix_set _ _ _ (mse_dist_mat s0)); [|exact H0].
  cbn [snd]. subst s0. cbn [cos_sim_mat metric_calls].
  apply logged_cos_sim_untouched.
Qed.

Lemma get_cos_sim_mse self a b s :
  mse_dist_untouched s (snd (get_cos_sim self (Id a) (Id b) s)).
Proof.
  unfold get_cos_sim. unfold bind at 1. unfold log_call at 1.
  set (s0 := mkWstate (cos_sim_mat s) (mse_dist_mat s)
               (metric_calls s ++ [CosSimCall (Id a) (Id b)])).
  assert (H0 : mse_dist_untouched s s0) by apply logged_mse_dist_untouched.
  cbn [resolve]. unfold bind at 1. unfold ret at 1.
  unfold bind at 1. unfold ret at 1.
  destruct (matrix_get _ _ (cos_sim_mat s0)); [exact H0|].
  unfold bind at 1.
  pose proof (embedding_state self (Z.min a b) s0) as H1.
  destruct (embedding self (Z.min a b) s0) as [[e|e1] s1];
    cbn [snd] in H1; subst s1; [exact H0|].
  unfold bind at 1.
  pose proof (embedding_state self (Z.max a b) s0) as H2.
  destruct (embedding self (Z.max a b) s0) as [[e|e2] s2];
    cbn [snd] in H2; subst s2; [exact H0|].
  destruct (matrix_set _ _ _ (cos_sim_mat s0)); [|exact H0].
  cbn [snd]. subst s0. cbn [mse_dist_mat metric_calls].
  apply logged_mse_dist_untouched.
Qed.

Lemma cos_sim_untouched_refl s : cos_sim_untouched s s.
Proof. split; reflexivity. Qed.

Lemma mse_dist_untouched_refl s : mse_dist_untouched s s.
Proof. split; reflexivity. Qed.

Lemma cos_sim_untouched_trans s1 s2 s3 :
  cos_sim_untouched s1 s2 -> cos_sim_untouched s2 s3 ->
  cos_sim_untouched s1 s3.
Proof. unfold cos_sim_untouched. intros [A B] [C D]. split; congruence. Qed.

Lemma mse_dist_untouched_trans s1 s2 s3 :
  mse_dist_untouched s1 s2 -> mse_dist_untouched s2 s3 ->
  mse_dist_untouched s1 s3.
Proof. unfold mse_dist_untouched. intros [A B] [C D]. split; congruence. Qed.

Lemma get_word_state o i s : snd (get_word o i s) = s.
Proof.
  destruct o as [x|w]; cbn [get_word]; [|reflexivity].
  destruct (seq_getitem (words x) i); reflexivity.
Qed.

(** A falsy [min_cos_sim] behaves as a missing one. *)
Lemma check_indices_falsy_min_cos_sim self q :
  truthy q = false ->
  forall indices x x_adv s,
    check_indices (with_min_cos_sim self (Some q)) indices x x_adv s =
    check_indices (with_min_cos_sim self None) indices x x_adv s.
Proof.
  intros Hq. induction indices as [|i indices IH]; intros x x_adv s;
    [reflexivity|].
  cbn [check_indices]. unfold bind.
  destruct (get_word x i s) as [[e|a] s1]; [reflexivity|].
  destruct (get_word x_adv i s1) as [[e|b] s2]; [reflexivity|].
  cbn [cased word_embedding_word2index include_unknown_words min_cos_sim
       max_mse_dist with_min_cos_sim].
  destruct (dict_get (if cased self then a else lower a)
              (word_embedding_word2index self)) as [x_id|];
    [|destruct (include_unknown_words self); [apply IH | reflexivity]].
  destruct (dict_get (if cased self then b else lower b)
              (word_embedding_word2index self)) as [x_adv_id|];
    [|destruct (include_unknown_words self); [apply IH | reflexivity]].
  rewrite Hq. cbv beta iota delta [ret].
  destruct (max_mse_dist self) as [m|]; [|apply IH].
  destruct (truthy m); [|apply IH].
  change (get_mse_dist (with_min_cos_sim self (Some q)))
    with (get_mse_dist self).
  change (get_mse_dist (with_min_cos_sim self None)) with (get_mse_dist self).
  destruct (get_mse_dist self x_id x_adv_id s2) as [[e|d] s3]; [reflexivity|].
  destruct (Qltb m d); [reflexivity | apply IH].
Qed.

(** A falsy [max_mse_dist] behaves as a missing one. *)
Lemma check_indices_falsy_max_mse_dist self q :
  truthy q = false ->
  forall indices x x_adv s,
    check_indices (with_max_mse_dist self (Some q)) indices x x_adv s =
    check_indices (with_max_mse_dist self None) indices x x_adv s.
Proof.
  intros Hq. induction indices as [|i indices IH]; intros x x_adv s;
    [reflexivity|].
  cbn [check_indices]. unfold bind.
  destruct (get_word x i s) as [[e|a] s1]; [reflexivity|].
  destruct (get_word x_adv i s1) as [[e|b] s2]; [reflexivity|].
  cbn [cased word_embedding_word2index include_unknown_words min_cos_sim
       max_mse_dist with_max_mse_dist].
  destruct (dict_get (if cased self then a else lower a)
              (word_embedding_word2index self)) as [x_id|];
    [|destruct (include_unknown_words self); [apply IH | reflexivity]].
  destruct (dict_get (if cased self then b else lower b)
              (word_embedding_word2index self)) as [x_adv_id|];
    [|destruct (include_unknown_words self); [apply IH | reflexivity]].
  rewrite Hq.
  change (get_cos_sim (with_max_mse_dist self (Some q)))
    with (get_cos_sim self).
  change (get_cos_sim (with_max_mse_dist self None)) with (get_cos_sim self).
  destruct (min_cos_sim self) as [m|];
    [destruct (truthy m);
     [destruct (get_cos_sim self (Id x_id) (Id x_adv_id) s2) as [[e|d] s3];
      [reflexivity | destruct (Qltb d m); [reflexivity|]]|]|];
    cbv beta iota delta [ret]; apply IH.
Qed.

(** Without a [min_cos_sim] the check never calls [get_cos_sim]. *)
Lemma check_indices_cos_sim_untouched self :
  min_cos_sim self = None ->
  forall indices x x_adv s,
    cos_sim_untouched s (snd (check_indices self indices x x_adv s)).
Proof.
  intros Hmin. induction indices as [|i indices IH]; intros x x_adv s;
    [apply cos_sim_untouched_refl|].
  cbn [check_indices]. unfold bind.
  pose proof (get_word_state x i s) as H1.
  destruct (get_word x i s) as [[e|a] s1]; cbn [snd] in H1; subst s1;
    [apply cos_sim_untouched_refl|].
  pose proof (get_word_state x_adv i s) as H2.
  destruct (get_word x_adv i s) as [[e|b] s2]; cbn [snd] in H2; subst s2;
    [apply cos_sim_untouched_refl|].
  destruct (dict_get (if cased self then a else lower a)
              (word_embedding_word2index self)) as [x_id|];
    [|destruct (include_unknown_words self);
      [apply IH | apply cos_sim_untouched_refl]].
  destruct (dict_get (if cased self then b else lower b)
              (word_embedding_word2index self)) as [x_adv_id|];
    [|destruct (include_unknown_words self);
      [apply IH | apply cos_sim_untouched_refl]].
  rewrite Hmin. cbv beta iota delta [ret].
  destruct (max_mse_dist self) as [m|]; [|apply IH].
  destruct (truthy m); [|apply IH].
  pose proof (get_mse_dist_cos self x_id x_adv_id s) as H3.
  destruct (get_mse_dist self x_id x_adv_id s) as [[e|d] s3]; cbn [snd] in H3;
    [exact H3|].
  destruct (Qltb m d); [exact H3|].
  eapply cos_sim_untouched_trans; [exact H3 | apply IH].
Qed.

(** Without a [max_mse_dist] the check never calls [get_mse_dist]. *)
Lemma check_indices_mse_dist_untouched self :
  max_mse_dist self = None ->
  forall indices x x_adv s,
    mse_dist_untouched s (snd (check_indices self indices x x_adv s)).
Proof.
  intros Hmax. induction indices as [|i indices IH]; intros x x_adv s;
    [apply mse_dist_untouched_refl|].
  cbn [check_indices]. unfold bind.
  pose proof (get_word_state x i s) as H1.
  destruct (get_word x i s) as [[e|a] s1]; cbn [snd] in H1; subst s1;
    [apply mse_dist_untouched_refl|].
  pose proof (get_word_state x_adv i s) as H2.
  destruct (get_word x_adv i s) as [[e|b] s2]; cbn [snd] in H2; subst s2;
    [apply mse_dist_untouched_refl|].
  destruct (dict_get (if cased self then a else lower a)
              (word_embedding_word2index self)) as [x_id|];
    [|destruct (include_unknown_words self);
      [apply IH | apply mse_dist_untouched_refl]].
  destruct (dict_get (if cased self then b else lower b)
              (word_embedding_word2index self)) as [x_adv_id|];
    [|destruct (include_unknown_words self);
      [apply IH | apply mse_dist_untouched_refl]].
  rewrite Hmax.
  destruct (min_cos_sim self) as [m|];
    [destruct (truthy m)|]; cbv beta iota delta [ret]; try apply IH.
  pose proof (get_cos_sim_mse self x_id x_adv_id s) as H3.
  destruct (get_cos_sim self (Id x_id) (Id x_adv_id) s) as [[e|d] s3];
    cbn [snd] in H3; [exact H3|].
  destruct (Qltb d m); [exact H3|].
  eapply mse_dist_untouched_trans; [exact H3 | apply IH].
Qed.

End WordEmbeddingDistanceFacts.

Lemma check_indices_on_words self j rest a b s :
  WordEmbeddingDistance.check_indices self (j :: rest)
    (WordEmbeddingDistance.Str a) (WordEmbeddingDistance.Str b) s =
  (inl (AttributeError "'str' object has no attribute 'words'"), s).
Proof. reflexivity. Qed.

Lemma truthy_zero (q : Q) :
  (q == 0)%Q -> WordEmbeddingDistance.truthy q = false.
Proof.
  intros H. unfold WordEmbeddingDistance.truthy.
  apply Qeq_bool_iff in H. now rewrite H.
Qed.

(** C8: with [min_cos_sim] equal to zero, [_check_constraint] returns what
    it returns, and leaves the state it leaves, with [min_cos_sim] missing:
    [get_cos_sim] is not called and the cosine matrix is not touched, so no
    candidate is rejected by that metric.  The same holds for [max_mse_dist]
    and [get_mse_dist]. *)
Theorem C8_zero_threshold (self : WordEmbeddingDistance.t) (zero : Q)
    (x x_adv : WordEmbeddingDistance.TokenizedText)
    (s : WordEmbeddingDistance.wstate) :
  (zero == 0)%Q ->
  let cos0 := WordEmbeddingDistance.with_min_cos_sim self (Some zero) in
  let mse0 := WordEmbeddingDistance.with_max_mse_dist self (Some zero) in
  WordEmbeddingDistance._check_constraint cos0 x x_adv s =
  WordEmbeddingDistance._check_constraint
    (WordEmbeddingDistance.with_min_cos_sim self None) x x_adv s /\
  WordEmbeddingDistance.cos_sim_untouched s
    (snd (WordEmbeddingDistance._check_constraint cos0 x x_adv s)) /\
  WordEmbeddingDistance._check_constraint mse0 x x_adv s =
  WordEmbeddingDistance._check_constraint
    (WordEmbeddingDistance.with_max_mse_dist self None) x x_adv s /\
  WordEmbeddingDistance.mse_dist_untouched s
    (snd (WordEmbeddingDistance._check_constraint mse0 x x_adv s)).
Proof.
  intros Hzero cos0 mse0. apply truthy_zero in Hzero.
  assert (Hcos :
    WordEmbeddingDistance._check_constraint cos0 x x_adv s =
    WordEmbeddingDistance._check_constraint
      (WordEmbeddingDistance.with_min_cos_sim self None) x x_adv s).
  { unfold WordEmbeddingDistance._check_constraint.
    destruct (WordEmbeddingDistance.newly_modified_indices x_adv);
      [|reflexivity].
    now apply check_indices_falsy_min_cos_sim. }
  assert (Hmse :
    WordEmbeddingDistance._check_constraint mse0 x x_adv s =
    WordEmbeddingDistance._check_constraint
      (WordEmbeddingDistance.with_max_mse_dist self None) x x_adv s).
  { unfold WordEmbeddingDistance._check_constraint.
    destruct (WordEmbeddingDistance.newly_modified_indices x_adv);
      [|reflexivity].
    now apply check_indices_falsy_max_mse_dist. }
  split; [exact Hcos|]. split; [|split; [exact Hmse|]].
  - rewrite Hcos. unfold WordEmbeddingDistance._check_constraint.
    destruct (WordEmbeddingDistance.newly_modified_indices x_adv).
    + now apply check_indices_cos_sim_untouched.
    + apply cos_sim_untouched_refl.
  - rewrite Hmse. unfold WordEmbeddingDistance._check_constraint.
    destruct (WordEmbeddingDistance.newly_modified_indices x_adv).
    + now apply check_indices_mse_dist_untouched.
    + apply mse_dist_untouched_refl.
Qed.

(** C9: the loop rebinds [x] and [x_adv] to the words at the first index.
    With two or more newly modified indices the check does what it does for
    the first index alone, except that where the first index passes, the
    second turn of the loop reads [.words] of a string and raises
    AttributeError: the check never returns true.  With no index it returns
    true. *)
Theorem C9_second_index (self : WordEmbeddingDistance.t)
    (x x_adv : WordEmbeddingDistance.TokenizedText) (i j : Z) (rest : list Z)
    (s : WordEmbeddingDistance.wstate) :
  let many :=
    WordEmbeddingDistance._check_constraint self x
      (WordEmbeddingDistance.with_indices x_adv (i :: j :: rest)) s in
  let one :=
    WordEmbeddingDistance._check_constraint self x
      (WordEmbeddingDistance.with_indices x_adv [i]) s in
  many =
    match one with
    | (inr true, s') =>
        (inl (AttributeError "'str' object has no attribute 'words'"), s')
    | other => other
    end /\
  fst many <> inr true /\
  WordEmbeddingDistance._check_constraint self x
    (WordEmbeddingDistance.with_indices x_adv []) s = (inr true, s).
Proof.
  intros many one.
  assert (Heq : many =
    match one with
    | (inr true, s') =>
        (inl (AttributeError "'str' object has no attribute 'words'"), s')
    | other => other
    end).
  { subst many one. unfold WordEmbeddingDistance._check_constraint.
    cbn [WordEmbeddingDistance.newly_modified_indices
         WordEmbeddingDistance.with_indices].
    cbn [WordEmbeddingDistance.check_indices]. unfold bind.
    destruct (WordEmbeddingDistance.get_word (WordEmbeddingDistance.Text x) i s)
      as [[e|a] s1]; [reflexivity|].
    cbn [WordEmbeddingDistance.get_word WordEmbeddingDistance.words
         WordEmbeddingDistance.with_indices].
    destruct (seq_getitem (WordEmbeddingDistance.words x_adv) i) as [b|];
      [|reflexivity].
    cbv beta iota delta [ret raise].
    destruct (dict_get _ (WordEmbeddingDistance.word_embedding_word2index self))
      as [x_id|];
      [|destruct (WordEmbeddingDistance.include_unknown_words self);
        reflexivity].
    destruct (dict_get _ (WordEmbeddingDistance.word_embedding_word2index self))
      as [x_adv_id|];
      [|destruct (WordEmbeddingDistance.include_unknown_words self);
        reflexivity].
    destruct (WordEmbeddingDistance.min_cos_sim self) as [m|];
      [destruct (WordEmbeddingDistance.truthy m)|].
    - destruct (WordEmbeddingDistance.get_cos_sim self _ _ s1) as [[e|d] s2];
        [reflexivity|].
      destruct (WordEmbeddingDistance.Qltb d m); [reflexivity|].
      mse_dist_cases self x_id x_adv_id.
    - mse_dist_cases self x_id x_adv_id.
    - mse_dist_cases self x_id x_adv_id. }
  split; [exact Heq|]. split; [|reflexivity].
  rewrite Heq. destruct one as [[e|[|]] s']; cbn [fst]; discriminate.
Qed.

(** ** The theorems at concrete inputs *)

Lemma fits_length (T : list LRU.key) n : length T <= n -> LRU.fits T n.
Proof.
  intros Hlen L Hnd Hincl.
  pose proof (NoDup_incl_length Hnd Hincl). lia.
Qed.

(** [fits] counts the distinct keys. *)
Lemma fits_nodup (T : list LRU.key) n :
  LRU.fits T n <-> length (nodup LRU.key_eq_dec T) <= n.
Proof.
  split.
  - intros H. apply H; [apply NoDup_nodup|].
    intros k Hk. now apply nodup_In in Hk.
  - intros Hlen L Hnd Hincl.
    assert (Hincl' : incl L (nodup LRU.key_eq_dec T))
      by (intros k Hk; apply nodup_In; now apply Hincl).
    pose proof (NoDup_incl_length Hnd Hincl'). lia.
Qed.

(** The engines of the examples are what [__init__] builds. *)
Lemma engine_constructed cs (cache_size : Z) :
  (0 < cache_size)%Z ->
  __init__ (Some Ex.goal) (map Post cs) (Some Ex.swaps) (Some Ex.giving_up)
    cache_size
  = inr (Ex.engine cs cache_size, LRU.mk (Z.to_nat cache_size) []).
Proof.
  intros Hpos. unfold __init__, Ex.engine. cbn [Ex.giving_up Ex.swaps
    check_transformation_compatibility is_black_box_attr negb].
  assert (Hsplit : forall post,
    split_constraints (map Post cs) post [] = (post ++ cs, [])).
  { induction cs as [|c cs' IH]; intros post; simpl.
    - now rewrite app_nil_r.
    - now rewrite IH, <- app_assoc. }
  rewrite Hsplit. unfold LRU.new.
  destruct (Z.leb_spec cache_size 0); [lia | reflexivity].
Qed.

(** Index -1 reads the last review; index -3 is out of bounds. *)
Lemma negative_indices :
  fst (attack_dataset (Ex.engine [Ex.changed] 8) Ex.reviews
         (Some [(-1)%Z; (-3)%Z]) (Ex.fresh 8))
  = ([SkippedAttackResult
        (mkGoalFunctionResult
           (attacked_text_of Ex.reviews "a dull film") 1%Z true)],
     Some (IndexError
             "Out of bounds access of dataset. Size of data is 2 but tried to access index -3")).
Proof. reflexivity. Qed.

Lemma wf_new n : 0 < n -> LRU.wf (LRU.mk n []).
Proof. intros Hn. repeat split; simpl; [lia | lia | constructor]. Qed.

Lemma changed_by_text current_text original_text t u :
  text t = text u ->
  passes (Ex.engine [Ex.changed] 8) current_text original_text t =
  passes (Ex.engine [Ex.changed] 8) current_text original_text u.
Proof.
  intros Heq. unfold passes, accepted_by. cbn. now rewrite Heq.
Qed.


(** With room for the three candidates the first call returns, and the
    second returns the same list without invoking the constraint. *)
Lemma C3_witness :
  let self := Ex.engine [Ex.changed] 8 in
  LRU.wf (cache_of (Ex.fresh 8)) /\
  LRU.fits (candidate_keys Ex.cats Ex.hats_dogs_cats)
    (LRU.size (cache_of (Ex.fresh 8))) /\
  exists r w1 w2,
    filter_transformations self Ex.hats_dogs_cats Ex.cats None (Ex.fresh 8)
      = (inr r, w1) /\
    filter_transformations self Ex.hats_dogs_cats Ex.cats None w1
      = (inr r, w2) /\
    constraint_calls w2 = constraint_calls w1.
Proof.
  intros self.
  assert (Hwf : LRU.wf (cache_of (Ex.fresh 8))) by (apply wf_new; lia).
  assert (Hfits : LRU.fits (candidate_keys Ex.cats Ex.hats_dogs_cats)
                    (LRU.size (cache_of (Ex.fresh 8))))
    by (apply fits_length; simpl; lia).
  split; [exact Hwf|]. split; [exact Hfits|].
  destruct (C3_second_call self Ex.hats_dogs_cats Ex.cats None (Ex.fresh 8))
    as (Hsecond & Hfirst).
  destruct (Hfirst Hwf Hfits) as (r & w1 & Hrun).
  destruct (Hsecond r w1 Hrun) as (_ & w2 & Hrun2 & Hcalls).
  exists r, w1, w2. repeat split; assumption.
Defined.

(** The only candidate is the current text: the first constraint rejects
    it and the second is never invoked. *)
Lemma C4_witness :
  let self := Ex.engine [Ex.changed; Ex.off_original] 8 in
  let run := _filter_transformations_uncached self [Ex.cats] Ex.cats None
               (Ex.fresh 8) in
  1 < length (constraints self) /\
  exists k calls,
    k <= length (constraints self) /\
    fst run = inr (survivors (constraints self) Ex.cats None [Ex.cats]) /\
    constraint_calls (snd run) = constraint_calls (Ex.fresh 8) ++ calls /\
    length calls = k /\
    (forall C ys, In (C, ys) calls -> ys <> []).
Proof.
  intros self run. split; [simpl; lia|].
  destruct (C4_pipeline self [Ex.cats] Ex.cats None (Ex.fresh 8))
    as (k & calls & Hk & Hres & Hcalls & Hlen & _ & _ & Hne & _).
  exists k, calls. repeat split; assumption.
Defined.

(** The two reviews: the first is attacked, the second, already
    misclassified, is skipped. *)
Lemma C5_witness :
  (forall i, In i (initial_indices Ex.reviews None) ->
     seq_getitem (examples Ex.reviews) i <> None) /\
  exists results w',
    attack_dataset (Ex.engine [Ex.changed] 8) Ex.reviews None (Ex.fresh 8)
      = ((results, None), w') /\
    Forall2 (outcome_of (Ex.engine [Ex.changed] 8) Ex.reviews)
      (initial_indices Ex.reviews None) results /\
    search_calls w' = search_calls (Ex.fresh 8) ++ flat_map searched results.
Proof.
  assert (H : forall i, In i (initial_indices Ex.reviews None) ->
                seq_getitem (examples Ex.reviews) i <> None)
    by (intros i Hi; now apply range_in_bounds).
  split; [exact H|].
  destruct (C5_skipped_examples (Ex.engine [Ex.changed] 8) Ex.reviews None
              (Ex.fresh 8) H) as (results & w' & Hrun & Hres & Hlog & _).
  exists results, w'. repeat split; assumption.
Defined.

(** Indices 1, 2, 0 on the two reviews: the outcome of review 1 is yielded,
    then index 2 raises. *)
Lemma C6_witness :
  initial_indices Ex.reviews (Some [1; 2; 0]%Z) = [1%Z] ++ 2%Z :: [0%Z] /\
  seq_getitem (examples Ex.reviews) 2 = None /\
  exists results w',
    attack_dataset (Ex.engine [Ex.changed] 8) Ex.reviews (Some [1; 2; 0]%Z)
      (Ex.fresh 8)
    = ((results,
        Some (IndexError
                "Out of bounds access of dataset. Size of data is 2 but tried to access index 2")),
       w') /\
    Forall2 (outcome_of (Ex.engine [Ex.changed] 8) Ex.reviews) [1%Z] results.
Proof.
  assert (Hq : initial_indices Ex.reviews (Some [1; 2; 0]%Z)
               = [1%Z] ++ 2%Z :: [0%Z]) by reflexivity.
  assert (Hi : seq_getitem (examples Ex.reviews) 2 = None) by reflexivity.
  split; [exact Hq|]. split; [exact Hi|].
  refine (proj1 (C6_out_of_bounds (Ex.engine [Ex.changed] 8) Ex.reviews
                   (Some [1; 2; 0]%Z) (Ex.fresh 8) [1%Z] 2%Z [0%Z] Hq _ Hi)).
  intros j [<-|[]]. discriminate.
Defined.

(** No goal function: construction fails. *)
Lemma C7_witness :
  (@None GoalFunction = None \/ Some Ex.swaps = None \/
   Some Ex.giving_up = None) /\
  exists msg,
    __init__ None [Post Ex.changed] (Some Ex.swaps) (Some Ex.giving_up) 8
      = inl (NameError msg).
Proof.
  split; [now left|].
  apply C7_missing_component. now left.
Defined.

(** Both thresholds at zero on a pair of known words: no metric is
    computed. *)
Lemma C8_witness :
  (0 == 0)%Q /\
  WordEmbeddingDistance._check_constraint
    (WordEmbeddingDistance.with_min_cos_sim Ex.paragram (Some 0%Q))
    Ex.good_film Ex.great_film Ex.no_metrics =
  WordEmbeddingDistance._check_constraint
    (WordEmbeddingDistance.with_min_cos_sim Ex.paragram None)
    Ex.good_film Ex.great_film Ex.no_metrics /\
  WordEmbeddingDistance.cos_sim_untouched Ex.no_metrics
    (snd (WordEmbeddingDistance._check_constraint
            (WordEmbeddingDistance.with_min_cos_sim Ex.paragram (Some 0%Q))
            Ex.good_film Ex.great_film Ex.no_metrics)).
Proof.
  assert (H : (0 == 0)%Q) by reflexivity.
  split; [exact H|].
  destruct (C8_zero_threshold Ex.paragram 0%Q Ex.good_film Ex.great_film
              Ex.no_metrics H) as (H1 & H2 & _).
  split; [exact H1 | exact H2].
Defined.

(** Two modified indices on known words: AttributeError at the second. *)
Lemma C9_witness :
  fst (WordEmbeddingDistance._check_constraint Ex.paragram Ex.good_film
         (WordEmbeddingDistance.with_indices Ex.great_film [0; 1]%Z)
         Ex.no_metrics)
    = inl (AttributeError "'str' object has no attribute 'words'") /\
  fst (WordEmbeddingDistance._check_constraint Ex.paragram Ex.good_film
         (WordEmbeddingDistance.with_indices Ex.great_film [0]%Z)
         Ex.no_metrics)
    = inr true.
Proof.
  destruct (C9_second_index Ex.paragram Ex.good_film Ex.great_film 0%Z 1%Z []
              Ex.no_metrics) as (Heq & _).
  cbv zeta in Heq. split; [|reflexivity].
  rewrite Heq. reflexivity.
Defined.

(** An empty [indices] on the two reviews: two outcomes. *)
Lemma C10_witness :
  exists results w',
    attack_dataset (Ex.engine [Ex.changed] 8) Ex.reviews (Some [])
      (Ex.fresh 8) = ((results, None), w') /\
    length results = 2.
Proof.
  destruct (C10_empty_indices (Ex.engine [Ex.changed] 8) Ex.reviews
              (Ex.fresh 8)) as (_ & _ & _ & results & w' & Hrun & Hlen & _).
  exists results, w'. split; assumption.
Defined.

(* ===================================================================== *)
(** * Part III: further properties of the code                           *)
(* ===================================================================== *)

(** ** [Attack.__init__] *)

Lemma split_constraints_spec cs :
  forall post pre,
    split_constraints cs post pre =
    (post ++ post_constraints cs, pre ++ pre_constraints cs).
Proof.
  induction cs as [|[c|c] cs IH]; intros post pre; cbn [split_constraints].
  - unfold post_constraints, pre_constraints. simpl. now rewrite !app_nil_r.
  - rewrite IH. unfold post_constraints, pre_constraints. cbn [flat_map app].
    now rewrite <- app_assoc.
  - rewrite IH. unfold post_constraints, pre_constraints. cbn [flat_map app].
    now rewrite <- app_assoc.
Qed.

(** X1: [Attack.__init__] returns an engine exactly when the goal function,
    the transformation and the search method are all given, the search method
    accepts the transformation, and the cache size is positive. *)
Theorem X1_init_succeeds_iff goal_function constraints transformation
    search_method constraint_cache_size :
  (exists self cache,
     __init__ goal_function constraints transformation search_method
       constraint_cache_size = inr (self, cache)) <->
  (exists g t s,
     goal_function = Some g /\ transformation = Some t /\
     search_method = Some s /\
     check_transformation_compatibility s t = true /\
     (0 < constraint_cache_size)%Z).
Proof.
  unfold __init__. split.
  - intros (self & cache & H).
    destruct goal_function as [g|]; [|discriminate].
    destruct search_method as [s|]; [|discriminate].
    destruct transformation as [t|]; [|discriminate].
    destruct (check_transformation_compatibility s t) eqn:Hc;
      [|discriminate].
    cbn [negb] in H. rewrite split_constraints_spec in H.
    unfold LRU.new in H.
    destruct (Z.leb_spec constraint_cache_size 0); [discriminate|].
    exists g, t, s. repeat split; auto.
  - intros (g & t & s & -> & -> & -> & Hc & Hpos).
    rewrite Hc. cbn [negb]. rewrite split_constraints_spec. unfold LRU.new.
    destruct (Z.leb_spec constraint_cache_size 0); [lia|].
    eexists. eexists. reflexivity.
Qed.

(** X2: the engine [Attack.__init__] returns keeps the three components it
    was given; its post-transformation constraints and its
    pre-transformation constraints are those of the argument, each in the
    order of the argument; its cache is empty with the given capacity; and it
    is black-box unless the transformation says otherwise. *)
Theorem X2_init_engine goal_function_arg constraints_arg transformation_arg
    search_method_arg constraint_cache_size_arg self cache :
  __init__ goal_function_arg constraints_arg transformation_arg
    search_method_arg constraint_cache_size_arg = inr (self, cache) ->
  goal_function_arg = Some (goal_function self) /\
  search_method_arg = Some (search_method self) /\
  transformation_arg = transformation self /\
  constraints self = post_constraints constraints_arg /\
  pre_transformation_constraints self = pre_constraints constraints_arg /\
  constraint_cache_size self = constraint_cache_size_arg /\
  cache = LRU.mk (Z.to_nat constraint_cache_size_arg) [] /\
  LRU.wf cache /\
  is_black_box self =
    match transformation_arg with
    | Some t => match is_black_box_attr t with Some b => b | None => true end
    | None => true
    end.
Proof.
  unfold __init__. intros H.
  destruct goal_function_arg as [g|]; [|discriminate].
  destruct search_method_arg as [s|]; [|discriminate].
  destruct transformation_arg as [t|]; [|discriminate].
  destruct (check_transformation_compatibility s t); [|discriminate].
  cbn [negb] in H. rewrite split_constraints_spec in H. unfold LRU.new in H.
  destruct (Z.leb_spec constraint_cache_size_arg 0); [discriminate|].
  inversion H; subst. cbn [goal_function search_method transformation
    constraints pre_transformation_constraints constraint_cache_size
    is_black_box app].
  repeat (split; [reflexivity|]). split; [|reflexivity].
  apply wf_new. lia.
Qed.

(** X3: when [Attack.__init__] fails, the error is a NameError exactly when
    a component is missing, whatever else is wrong, and a ValueError
    otherwise (an incompatible search method or a cache size that is not
    positive). *)
Theorem X3_init_errors goal_function constraints transformation search_method
    constraint_cache_size e :
  __init__ goal_function constraints transformation search_method
    constraint_cache_size = inl e ->
  ((exists msg, e = NameError msg) /\
   (goal_function = None \/ transformation = None \/ search_method = None)) \/
  ((exists msg, e = ValueError msg) /\
   goal_function <> None /\ transformation <> None /\ search_method <> None /\
   (forall t s, transformation = Some t -> search_method = Some s ->
      check_transformation_compatibility s t = false \/
      (constraint_cache_size <= 0)%Z)).
Proof.
  unfold __init__. intros H.
  destruct goal_function as [g|];
    [|left; inversion H; split; [eexists; reflexivity | auto]].
  destruct search_method as [s|];
    [|left; inversion H; split; [eexists; reflexivity | auto]].
  destruct transformation as [t|];
    [|left; inversion H; split; [eexists; reflexivity | auto]].
  right. destruct (check_transformation_compatibility s t) eqn:Hc.
  - cbn [negb] in H. rewrite split_constraints_spec in H. unfold LRU.new in H.
    destruct (Z.leb_spec constraint_cache_size 0); [|discriminate].
    inversion H. split; [eexists; reflexivity|].
    repeat split; try discriminate. intros t' s' _ _. now right.
  - cbn [negb] in H. inversion H. split; [eexists; reflexivity|].
    repeat split; try discriminate.
    intros t' s' Ht Hs. inversion Ht; inversion Hs; subst. now left.
Qed.

(** ** [filter_transformations] in every case *)

Lemma filter_m_cache_get_all current_text candidates :
  forall w c l, exists r c',
    filter_m (fun t => cache_get (key_of current_text t)) candidates
      (after w c l) = (r, after w c' l) /\
    (forall k, LRU.lookup k (LRU.items c') = LRU.lookup k (LRU.items c)) /\
    LRU.size c' = LRU.size c /\
    (LRU.wf c -> LRU.wf c').
Proof.
  induction candidates as [|t rest IH]; intros w c l.
  - exists (inr []), c.
    split; [reflexivity|]. split; [reflexivity|]. split; [reflexivity | auto].
  - cbn [filter_m]. unfold bind at 1. unfold cache_get at 1.
    rewrite cache_of_after.
    destruct (LRU.lookup (key_of current_text t) (LRU.items c)) as [v|] eqn:Hk.
    + rewrite (getitem_hit _ _ _ Hk), set_cache_after.
      destruct (IH w (LRU.setitem (key_of current_text t) v c) l)
        as (r & c' & Hrun & Hlook & Hsize & Hwf).
      unfold bind at 1. rewrite Hrun.
      exists (match r with
              | inl e => inl e
              | inr xs => inr (if v then t :: xs else xs)
              end), c'.
      split; [now destruct r|]. split; [|split].
      * intros k. rewrite Hlook. now apply lookup_promote.
      * now rewrite Hsize, size_setitem.
      * intros H. apply Hwf. now apply wf_setitem.
    + rewrite (getitem_miss _ _ Hk). eexists. exists c.
      split; [reflexivity|]. split; [reflexivity|].
      split; [reflexivity | auto].
Qed.

(** What a call does to the world, whether it returns or raises. *)
Lemma filter_transformations_world self candidates current_text original_text
    w :
  exists r c' k,
    filter_transformations self candidates current_text original_text w =
    (r, after w c'
          (pipeline_calls (constraints self) current_text original_text
             (uncached_of (cache_of w) current_text candidates) k)) /\
    k <= length (constraints self) /\
    (forall j, j < k ->
       survivors (firstn j (constraints self)) current_text original_text
         (uncached_of (cache_of w) current_text candidates) <> []) /\
    LRU.size c' = LRU.size (cache_of w) /\
    (LRU.wf (cache_of w) -> LRU.wf c').
Proof.
  set (c := cache_of w).
  set (U := uncached_of c current_text candidates).
  set (H := hit_writes c current_text candidates).
  destruct (_filter_transformations_uncached_spec self U current_text
              original_text w (LRU.writes H c) [])
    as (k & Hk & Hrun & Hne & _).
  cbn [app] in Hrun.
  set (W := verdict_writes current_text U false ++ _) in Hrun.
  set (calls := pipeline_calls _ _ _ U k) in *.
  destruct (filter_m_cache_get_all current_text candidates w
              (LRU.writes W (LRU.writes H c)) calls)
    as (r & c' & Hget & _ & Hsize & Hwf).
  exists (match r with inl e => inl e | inr xs => inr (sort_by_text xs) end),
    c', k.
  split; [|split; [exact Hk | split; [exact Hne | split]]].
  - rewrite <- (after_id w) at 1. fold c.
    unfold filter_transformations. unfold bind at 1.
    rewrite (collect_uncached_spec current_text candidates [] w c []).
    cbn [app]. fold U. fold H. unfold bind at 1. rewrite Hrun.
    unfold bind at 1. rewrite Hget. now destruct r.
  - now rewrite Hsize, !size_writes.
  - intros Hc. apply Hwf. now apply wf_writes, wf_writes.
Qed.

(** X4: whenever [filter_transformations] returns a list, the list is in
    order of rendered text and consists of the input candidates whose pair is
    cached as true when the call ends; every input candidate has an entry at
    that point. *)
Theorem X4_filter_transformations_returns self candidates current_text
    original_text w out w' :
  filter_transformations self candidates current_text original_text w
    = (inr out, w') ->
  sorted_by_text out /\
  Permutation out
    (filter (cached_true (cache_of w') current_text) candidates) /\
  (forall t, In t out <->
     In t candidates /\ cached w' current_text t = Some true) /\
  (forall t, In t candidates -> cached w' current_text t <> None).
Proof.
  intros Hfirst.
  destruct (filter_transformations_phases self candidates current_text
              original_text w (cache_of w) []) as (k & Hrun & _).
  rewrite after_id, Hfirst in Hrun. cbn [app] in Hrun.
  set (c3 := LRU.writes _ (LRU.writes _ (cache_of w))) in Hrun.
  set (calls := pipeline_calls _ _ _ _ k) in Hrun.
  destruct (filter_m _ candidates (after w c3 calls)) as [[e|xs] w''] eqn:Hget;
    [discriminate|].
  inversion Hrun; subst out w'. clear Hrun.
  pose proof (filter_m_cache_get_returns _ _ _ _ _ _ _ Hget) as Hall.
  rewrite (filter_m_cache_get_spec current_text candidates w c3 calls Hall)
    in Hget.
  inversion Hget; subst xs w''. clear Hget.
  destruct (writes_promotions (hit_writes c3 current_text candidates) c3
              (promotions_hit_writes _ _ _)) as (Hlook & _).
  unfold cached. rewrite cache_of_after.
  assert (Hsame : forall t,
            cached_true (LRU.writes (hit_writes c3 current_text candidates) c3)
              current_text t = cached_true c3 current_text t)
    by (intros t; now apply cached_true_ext).
  split; [apply sort_by_text_sorted|]. split; [|split].
  - rewrite sort_by_text_perm.
    rewrite (filter_ext _ _ Hsame). reflexivity.
  - intros t. rewrite Hlook. split.
    + intros Hin. apply (Permutation_in _ (sort_by_text_perm _)) in Hin.
      apply filter_In in Hin. destruct Hin as (Hin & Hc). split; [exact Hin|].
      unfold cached_true in Hc.
      destruct (LRU.lookup (key_of current_text t) (LRU.items c3));
        congruence.
    + intros (Hin & Hc).
      apply (Permutation_in _ (Permutation_sym (sort_by_text_perm _))).
      apply filter_In. split; [exact Hin|]. unfold cached_true. now rewrite Hc.
  - intros t Ht. rewrite Hlook. now apply Hall.
Qed.

(** X5: [filter_transformations] returns a list only when the distinct
    rendered texts of the candidates number at most the capacity of the
    cache: called on a well-formed cache with more of them, it ends with an
    exception, whatever the constraints decide. *)
Theorem X5_filter_transformations_overflow self candidates current_text
    original_text w out w' :
  LRU.wf (cache_of w) ->
  filter_transformations self candidates current_text original_text w
    = (inr out, w') ->
  length (nodup LRU.key_eq_dec (candidate_keys current_text candidates))
    <= LRU.size (cache_of w).
Proof.
  intros Hwf Hrun.
  destruct (filter_transformations_returned self candidates current_text
              original_text w out w' Hrun) as (_ & Hentries).
  destruct (filter_transformations_world self candidates current_text
              original_text w) as (r & c' & k & Hw & _ & _ & Hsize & Hwf').
  rewrite Hrun in Hw. inversion Hw as [[Hr Hw']]. clear Hw.
  destruct (Hwf' Hwf) as (_ & Hlen & _). rewrite <- Hsize.
  assert (Hincl : incl (nodup LRU.key_eq_dec
                          (candidate_keys current_text candidates))
                    (LRU.keys c')).
  { intros key Hin. apply nodup_In in Hin. unfold candidate_keys in Hin.
    apply in_map_iff in Hin. destruct Hin as (t & <- & Ht).
    apply lookup_some_in. specialize (Hentries t Ht).
    rewrite Hw' in Hentries. unfold cached in Hentries.
    rewrite cache_of_after in Hentries. congruence. }
  pose proof (NoDup_incl_length (NoDup_nodup _ _) Hincl) as Hle.
  unfold LRU.keys in Hle. rewrite length_map in Hle. lia.
Qed.

(** X23: whenever [filter_transformations] returns a list, if every entry
    already cached for a pair (current_text, candidate) holds the verdict of
    the constraints for this original_text, and candidates with one rendered
    text get one verdict, then the list consists of exactly the candidates on
    which every post-transformation constraint returns true, sorted by
    rendered text with a stable sort; its rendered texts do not depend on the
    order of the candidates; [get_transformations] returns the same list when
    the candidates are those of the transformation. *)
Theorem X23_returned_output self candidates current_text original_text w out
    w' :
  filter_transformations self candidates current_text original_text w
    = (inr out, w') ->
  (forall t b, In t candidates -> cached w current_text t = Some b ->
     b = passes self current_text original_text t) ->
  (forall t u, In t candidates -> In u candidates -> text t = text u ->
     passes self current_text original_text t =
     passes self current_text original_text u) ->
  out =
    sort_by_text (filter (passes self current_text original_text) candidates) /\
  (forall t, In t out <->
     In t candidates /\ passes self current_text original_text t = true) /\
  sorted_by_text out /\
  (forall candidates', Permutation candidates candidates' ->
     map text
       (sort_by_text
          (filter (passes self current_text original_text) candidates'))
     = map text out) /\
  (forall T,
     transformation self = Some T ->
     transform T current_text (pre_transformation_constraints self)
       = candidates ->
     get_transformations self current_text original_text w = (inr out, w')).
Proof.
  intros Hrun Hcache Htext.
  destruct (filter_transformations_returned self candidates current_text
              original_text w out w' Hrun) as (Hout & _).
  assert (Heq : out = sort_by_text
                        (filter (passes self current_text original_text)
                           candidates)).
  { rewrite Hout. f_equal. apply filter_ext_in. intros t Ht.
    now apply resolved_passes. }
  split; [exact Heq|]. split; [|split; [|split]].
  - intros t. rewrite Heq. split.
    + intros Hin. apply (Permutation_in _ (sort_by_text_perm _)) in Hin.
      now apply filter_In in Hin.
    + intros Hin.
      apply (Permutation_in _ (Permutation_sym (sort_by_text_perm _))).
      now apply filter_In.
  - rewrite Heq. apply sort_by_text_sorted.
  - intros candidates' Hp. rewrite Heq. apply sort_by_text_order_independent.
    apply filter_perm. now apply Permutation_sym.
  - intros T HT Hcands. unfold get_transformations. rewrite HT, Hcands.
    exact Hrun.
Qed.

Lemma run_filter_calls_wf_gen self history :
  forall w, LRU.wf (cache_of w) ->
    LRU.wf (cache_of (run_filter_calls self history w)) /\
    LRU.size (cache_of (run_filter_calls self history w))
      = LRU.size (cache_of w).
Proof.
  induction history as [|c history IH]; intros w Hwf; [auto|].
  cbn [run_filter_calls fold_left].
  destruct (filter_transformations_world self (call_candidates c)
              (call_current c) (call_original c) w)
    as (r & c' & k & Hrun & _ & _ & Hsize & Hwf').
  rewrite Hrun. cbn [snd].
  destruct (IH (after w c' (pipeline_calls (constraints self) (call_current c)
                              (call_original c)
                              (uncached_of (cache_of w) (call_current c)
                                 (call_candidates c)) k)))
    as (H1 & H2).
  - rewrite cache_of_after. now apply Hwf'.
  - split; [exact H1|]. unfold run_filter_calls in H2. rewrite H2.
    now rewrite cache_of_after.
Qed.

(** X6: the cache of an engine built with a positive size keeps its
    invariant through any sequence of [filter_transformations] calls,
    returning or raising: it never holds more entries than its size, never
    two entries for one pair, and its capacity does not change. *)
Theorem X6_cache_invariant self history (size queries : nat) :
  0 < size ->
  let c := cache_of (run_filter_calls self history
                       (start (LRU.mk size []) queries)) in
  LRU.size c = size /\
  length (LRU.items c) <= size /\
  NoDup (LRU.keys c).
Proof.
  intros Hpos c.
  destruct (run_filter_calls_wf_gen self history
              (start (LRU.mk size []) queries)) as ((_ & Hlen & Hnd) & Hsize).
  - now apply wf_new.
  - fold c in Hlen, Hnd, Hsize. cbn in Hsize. rewrite Hsize in Hlen.
    repeat split; assumption.
Qed.

(** X7: a call of [filter_transformations] leaves the query counter of the
    goal function and the search log alone; it invokes at most one
    [call_many] per configured constraint, each on a non-empty list of input
    candidates that had no cache entry. *)
Theorem X7_filter_transformations_effects self candidates current_text
    original_text w :
  let w' := snd (filter_transformations self candidates current_text
                   original_text w) in
  num_queries (st w') = num_queries (st w) /\
  search_calls w' = search_calls w /\
  exists calls,
    constraint_calls w' = constraint_calls w ++ calls /\
    length calls <= length (constraints self) /\
    forall C xs, In (C, xs) calls ->
      In C (constraints self) /\ xs <> [] /\
      forall t, In t xs ->
        In t candidates /\ cached w current_text t = None.
Proof.
  intros w'.
  destruct (filter_transformations_world self candidates current_text
              original_text w) as (r & c' & k & Hrun & Hk & Hne & _).
  subst w'. rewrite Hrun. cbn [snd].
  split; [reflexivity|]. split; [reflexivity|].
  eexists. split; [reflexivity|]. split.
  - rewrite length_pipeline_calls; assumption.
  - intros C xs Hin. apply In_nth_error in Hin. destruct Hin as (j & Hj).
    apply nth_error_pipeline_calls in Hj. destruct Hj as (Hjk & HC & ->).
    split; [eapply nth_error_In; eauto|]. split; [now apply Hne|].
    intros t Ht. apply in_survivors in Ht. destruct Ht as (Ht & _).
    now apply in_uncached_of in Ht.
Qed.

(** X8: with no candidate, [filter_transformations] and
    [_filter_transformations_uncached] return the empty list and change
    nothing: no constraint is invoked and the cache is not touched. *)
Theorem X8_no_candidates self current_text original_text w :
  filter_transformations self [] current_text original_text w = (inr [], w) /\
  _filter_transformations_uncached self [] current_text original_text w
    = (inr [], w).
Proof.
  unfold filter_transformations, _filter_transformations_uncached.
  cbn [collect_uncached]. unfold bind, ret.
  destruct (constraints self); split; reflexivity.
Qed.

(** ** [attack_one] and the dataset traversal *)

(** X9: when [attack_one] returns, its outcome is the Successful one if the
    final result of the search reports success and the Failed one otherwise,
    never the Skipped one; it carries the initial result, the final result
    and the query count of the goal function as it stands when the search has
    ended; the search method was invoked once, on the initial result. *)
Theorem X9_attack_one_outcome self initial w o w' :
  attack_one self initial w = (inr o, w') ->
  let final := fst (search (search_method self) initial (st w)) in
  o = (if succeeded final
       then SuccessfulAttackResult initial final (num_queries (st w'))
       else FailedAttackResult initial final (num_queries (st w'))) /\
  (forall r, o <> SkippedAttackResult r) /\
  search_calls w' = search_calls w ++ [initial].
Proof.
  intros Hrun final. subst final.
  unfold attack_one in Hrun. unfold bind at 1 in Hrun.
  unfold call_search at 1 in Hrun.
  destruct (search (search_method self) initial (st w)) as [final s'].
  unfold bind at 1 in Hrun. unfold get_num_queries at 1 in Hrun.
  cbn [st fst snd] in *.
  destruct (succeeded final); inversion Hrun; subst; cbn [st search_calls];
    repeat split; intros; congruence.
Qed.

Lemma examples_queue_spec self dataset queue :
  forall w,
    (forall i, In i queue -> seq_getitem (examples dataset) i <> None) ->
    exists results w',
      examples_queue self dataset queue w = ((results, None), w') /\
      Forall2 (example_of self dataset) queue results /\
      search_calls w' = search_calls w /\
      constraint_calls w' = constraint_calls w.
Proof.
  induction queue as [|i queue IH]; intros w Hall.
  - exists [], w. repeat split. constructor.
  - destruct (seq_getitem (examples dataset) i) as [[text gt]|] eqn:Hget;
      [|exfalso; apply (Hall i); [now left | exact Hget]].
    pose proof (get_example_in_bounds self dataset i w text gt Hget) as Hex.
    cbv zeta in Hex. cbn [examples_queue]. rewrite Hex. cbv beta iota.
    match goal with
    | |- context [examples_queue self dataset queue ?w2] =>
        destruct (IH w2) as (results & w' & Hrun & Hres & Hs & Hc);
          [intros j Hj; apply Hall; now right|]
    end.
    rewrite Hrun. eexists (_ :: results), w'.
    split; [reflexivity|]. split; [|split; [exact Hs | exact Hc]].
    constructor; [|exact Hres].
    exists text, gt, (mkState (cache_of w) 0).
    split; [exact Hget|]. split; [reflexivity|]. reflexivity.
Qed.

(** X10: consumed on its own with all its indices within the dataset,
    [_get_examples_from_dataset] yields one result per index, in the order of
    the indices: the goal function's result for that example, evaluated with
    the query counter reset to zero, and with the ground truth as its output
    when it reports success.  It invokes neither the search method nor any
    constraint. *)
Theorem X10_examples_from_dataset self dataset indices w :
  (forall i, In i (initial_indices dataset indices) ->
     seq_getitem (examples dataset) i <> None) ->
  exists results w',
    _get_examples_from_dataset self dataset indices w = ((results, None), w') /\
    Forall2 (example_of self dataset) (initial_indices dataset indices)
      results /\
    search_calls w' = search_calls w /\
    constraint_calls w' = constraint_calls w.
Proof. intros Hall. now apply examples_queue_spec. Qed.

(** X11: on an empty dataset, with [indices] missing or empty, the two
    generators yield nothing, raise nothing and change nothing; with any
    other [indices] the first index raises IndexError before anything is
    yielded. *)
Theorem X11_empty_dataset self dataset w :
  examples dataset = [] ->
  (forall indices, indices = None \/ indices = Some [] ->
     attack_dataset self dataset indices w = (([], None), w) /\
     _get_examples_from_dataset self dataset indices w = (([], None), w)) /\
  (forall i rest,
     attack_dataset self dataset (Some (i :: rest)) w =
       (([], Some (IndexError (out_of_bounds_message dataset i))), w) /\
     _get_examples_from_dataset self dataset (Some (i :: rest)) w =
       (([], Some (IndexError (out_of_bounds_message dataset i))), w)).
Proof.
  intros Hempty. split.
  - intros indices [->| ->];
      unfold attack_dataset, _get_examples_from_dataset, initial_indices;
      rewrite Hempty; split; reflexivity.
  - intros i rest.
    assert (Hi : seq_getitem (examples dataset) i = None).
    { rewrite Hempty. unfold seq_getitem. cbn [length Z.of_nat].
      destruct (0 <=? i)%Z eqn:H0.
      - now destruct (Z.to_nat i).
      - destruct (- 0 <=? i)%Z eqn:H1; [|reflexivity].
        apply Z.leb_le in H1. apply Z.leb_gt in H0. lia. }
    unfold attack_dataset, _get_examples_from_dataset.
    cbn [initial_indices attack_queue examples_queue].
    rewrite (get_example_out_of_bounds self dataset i w Hi).
    split; reflexivity.
Qed.

Lemma yielded_first_nil {A : Type} (run : (list A * option exn) * world) :
  yielded_first [] run = run.
Proof. destruct run as [[xs e] w]. reflexivity. Qed.

Lemma attack_queue_concat self dataset first :
  forall second w,
    attack_queue self dataset (first ++ second) w =
    and_then (attack_queue self dataset first w)
      (attack_queue self dataset second).
Proof.
  induction first as [|i first IH]; intros second w.
  - cbn [app attack_queue and_then]. now rewrite yielded_first_nil.
  - cbn [app attack_queue].
    destruct (get_example self dataset i w) as [[e|r] w1]; [reflexivity|].
    destruct (attack_example self r w1) as [[e|o] w2]; [reflexivity|].
    rewrite IH.
    destruct (attack_queue self dataset first w2) as [[rs [e|]] w3];
      cbn [and_then]; [reflexivity|].
    unfold yielded_first.
    destruct (attack_queue self dataset second w3) as [[rs' e'] w4].
    reflexivity.
Qed.

(** X12: attacking the indices [first] followed by the indices [second] is
    attacking [first] and then, from the world that leaves, [second]; when
    [first] ends with an exception nothing of [second] is read, evaluated or
    attacked. *)
Theorem X12_attack_dataset_concat self dataset i first j second w :
  attack_dataset self dataset (Some ((i :: first) ++ j :: second)) w =
  and_then (attack_dataset self dataset (Some (i :: first)) w)
    (attack_dataset self dataset (Some (j :: second))).
Proof.
  unfold attack_dataset. cbn [app initial_indices].
  exact (attack_queue_concat self dataset (i :: first) (j :: second) w).
Qed.

(** X13: the query counter is reset before each example is evaluated, so
    what [attack_dataset] yields, and the exception that ends it, do not
    depend on the value of the counter when the traversal starts. *)
Theorem X13_query_counter_reset self dataset indices w n :
  fst (attack_dataset self dataset indices (with_num_queries w n)) =
  fst (attack_dataset self dataset indices w).
Proof.
  unfold attack_dataset.
  destruct (initial_indices dataset indices) as [|i queue]; [reflexivity|].
  cbn [attack_queue].
  destruct (seq_getitem (examples dataset) i) as [[text gt]|] eqn:Hget.
  - pose proof (get_example_in_bounds self dataset i w text gt Hget) as H1.
    pose proof (get_example_in_bounds self dataset i (with_num_queries w n)
                  text gt Hget) as H2.
    cbv zeta in H1, H2. rewrite H1, H2. reflexivity.
  - rewrite !(get_example_out_of_bounds self dataset i _ Hget). reflexivity.
Qed.

(** ** The metrics of [WordEmbeddingDistance] *)

Section MetricFacts.

Import WordEmbeddingDistance.

Lemma zdict_get_set_same {V : Type} k (v : V) d :
  zdict_get k (zdict_set k v d) = Some v.
Proof.
  induction d as [|[k' v'] d IH]; cbn [zdict_set zdict_get].
  - now rewrite Z.eqb_refl.
  - destruct (Z.eqb_spec k k') as [->|Hne]; cbn [zdict_get].
    + now rewrite Z.eqb_refl.
    + destruct (Z.eqb_spec k k'); [congruence | exact IH].
Qed.

Lemma matrix_get_set a b v m m' :
  matrix_set a b v m = Some m' -> matrix_get a b m' = Some v.
Proof.
  unfold matrix_set, matrix_get.
  destruct (zdict_get a m) as [row|]; [|discriminate].
  intros H. inversion H; subst. now rewrite !zdict_get_set_same.
Qed.

Lemma matrix_set_row a b v m :
  matrix_set a b v m = None <-> zdict_get a m = None.
Proof.
  unfold matrix_set. destruct (zdict_get a m); split; congruence.
Qed.

Lemma matrix_get_row a b m :
  zdict_get a m = None -> matrix_get a b m = None.
Proof. unfold matrix_get. now intros ->. Qed.

(** [get_mse_dist] case by case. *)
Lemma get_mse_dist_cases self a b s :
  let lo := Z.min a b in
  let hi := Z.max a b in
  let s0 := mkWstate (cos_sim_mat s) (mse_dist_mat s)
              (metric_calls s ++ [MseDistCall a b]) in
  get_mse_dist self a b s =
  match matrix_get lo hi (mse_dist_mat s) with
  | Some v => (inr v, s0)
  | None =>
      match seq_getitem (word_embeddings self) lo,
            seq_getitem (word_embeddings self) hi with
      | Some e1, Some e2 =>
          match matrix_set lo hi (sum_squared_difference e1 e2)
                  (mse_dist_mat s) with
          | Some m =>
              (inr (sum_squared_difference e1 e2),
               mkWstate (cos_sim_mat s) m
                 (metric_calls s ++ [MseDistCall a b]))
          | None => (inl (key_error lo), s0)
          end
      | _, _ => (inl (IndexError "index is out of bounds for axis 0"), s0)
      end
  end.
Proof.
  intros lo hi s0. unfold get_mse_dist. unfold bind at 1.
  unfold log_call at 1. fold s0. fold lo. fold hi.
  change (mse_dist_mat s0) with (mse_dist_mat s).
  destruct (matrix_get lo hi (mse_dist_mat s)); [reflexivity|].
  unfold bind, embedding.
  destruct (seq_getitem (word_embeddings self) lo); [|reflexivity].
  cbv beta iota delta [ret raise].
  destruct (seq_getitem (word_embeddings self) hi); [|reflexivity].
  cbv beta iota delta [ret raise].
  change (mse_dist_mat s0) with (mse_dist_mat s).
  destruct (matrix_set lo hi _ (mse_dist_mat s)); reflexivity.
Qed.

(** [get_cos_sim] on two word IDs, case by case. *)
Lemma get_cos_sim_cases self a b s :
  let lo := Z.min a b in
  let hi := Z.max a b in
  let s0 := mkWstate (cos_sim_mat s) (mse_dist_mat s)
              (metric_calls s ++ [CosSimCall (Id a) (Id b)]) in
  get_cos_sim self (Id a) (Id b) s =
  match matrix_get lo hi (cos_sim_mat s) with
  | Some v => (inr v, s0)
  | None =>
      match seq_getitem (word_embeddings self) lo,
            seq_getitem (word_embeddings self) hi with
      | Some e1, Some e2 =>
          match matrix_set lo hi (CosineSimilarity self e1 e2)
                  (cos_sim_mat s) with
          | Some m =>
              (inr (CosineSimilarity self e1 e2),
               mkWstate m (mse_dist_mat s)
                 (metric_calls s ++ [CosSimCall (Id a) (Id b)]))
          | None => (inl (key_error lo), s0)
          end
      | _, _ => (inl (IndexError "index is out of bounds for axis 0"), s0)
      end
  end.
Proof.
  intros lo hi s0. unfold get_cos_sim. unfold bind at 1.
  unfold log_call at 1. fold s0. cbn [resolve].
  unfold bind at 1. unfold ret at 1. unfold bind at 1. unfold ret at 1.
  fold lo. fold hi.
  change (cos_sim_mat s0) with (cos_sim_mat s).
  destruct (matrix_get lo hi (cos_sim_mat s)); [reflexivity|].
  unfold bind, embedding.
  destruct (seq_getitem (word_embeddings self) lo); [|reflexivity].
  cbv beta iota delta [ret raise].
  destruct (seq_getitem (word_embeddings self) hi); [|reflexivity].
  cbv beta iota delta [ret raise].
  change (cos_sim_mat s0) with (cos_sim_mat s).
  destruct (matrix_set lo hi _ (cos_sim_mat s)); reflexivity.
Qed.

End MetricFacts.

Section MetricProperties.

Import WordEmbeddingDistance.

(** X14: [get_mse_dist] and [get_cos_sim] do not depend on the order of the
    two word IDs: both orders give the same value or the same exception and
    leave the same matrices. *)
Theorem X14_metric_symmetry self a b s :
  let m1 := get_mse_dist self a b s in
  let m2 := get_mse_dist self b a s in
  let c1 := get_cos_sim self (Id a) (Id b) s in
  let c2 := get_cos_sim self (Id b) (Id a) s in
  (fst m1 = fst m2 /\
   mse_dist_mat (snd m1) = mse_dist_mat (snd m2) /\
   cos_sim_mat (snd m1) = cos_sim_mat (snd m2)) /\
  (fst c1 = fst c2 /\
   mse_dist_mat (snd c1) = mse_dist_mat (snd c2) /\
   cos_sim_mat (snd c1) = cos_sim_mat (snd c2)).
Proof.
  intros m1 m2 c1 c2. subst m1 m2 c1 c2.
  rewrite !get_mse_dist_cases, !get_cos_sim_cases. cbv zeta.
  rewrite (Z.min_comm b a), (Z.max_comm b a). split.
  - destruct (matrix_get _ _ (mse_dist_mat s)); [repeat split|].
    destruct (seq_getitem (word_embeddings self) (Z.min a b));
      [|repeat split].
    destruct (seq_getitem (word_embeddings self) (Z.max a b));
      [|repeat split].
    destruct (matrix_set _ _ _ (mse_dist_mat s)); repeat split.
  - destruct (matrix_get _ _ (cos_sim_mat s)); [repeat split|].
    destruct (seq_getitem (word_embeddings self) (Z.min a b));
      [|repeat split].
    destruct (seq_getitem (word_embeddings self) (Z.max a b));
      [|repeat split].
    destruct (matrix_set _ _ _ (cos_sim_mat s)); repeat split.
Qed.

Lemma get_mse_dist_returned self a b s v s' :
  get_mse_dist self a b s = (inr v, s') ->
  matrix_get (Z.min a b) (Z.max a b) (mse_dist_mat s') = Some v.
Proof.
  rewrite get_mse_dist_cases. cbv zeta.
  destruct (matrix_get _ _ (mse_dist_mat s)) as [v0|] eqn:Hget.
  - intros H. inversion H; subst. exact Hget.
  - destruct (seq_getitem (word_embeddings self) (Z.min a b));
      [|discriminate].
    destruct (seq_getitem (word_embeddings self) (Z.max a b));
      [|discriminate].
    destruct (matrix_set _ _ _ (mse_dist_mat s)) as [m|] eqn:Hset;
      [|discriminate].
    intros H. inversion H; subst. cbn [mse_dist_mat].
    eapply matrix_get_set; eauto.
Qed.

Lemma get_cos_sim_returned self a b s v s' :
  get_cos_sim self (Id a) (Id b) s = (inr v, s') ->
  matrix_get (Z.min a b) (Z.max a b) (cos_sim_mat s') = Some v.
Proof.
  rewrite get_cos_sim_cases. cbv zeta.
  destruct (matrix_get _ _ (cos_sim_mat s)) as [v0|] eqn:Hget.
  - intros H. inversion H; subst. exact Hget.
  - destruct (seq_getitem (word_embeddings self) (Z.min a b));
      [|discriminate].
    destruct (seq_getitem (word_embeddings self) (Z.max a b));
      [|discriminate].
    destruct (matrix_set _ _ _ (cos_sim_mat s)) as [m|] eqn:Hset;
      [|discriminate].
    intros H. inversion H; subst. cbn [cos_sim_mat].
    eapply matrix_get_set; eauto.
Qed.

(** X15: a value [get_mse_dist] or [get_cos_sim] has returned for a pair of
    word IDs is kept: asked again for the pair, in either order, the function
    returns that value from the matrix and leaves both matrices as they
    are. *)
Theorem X15_metric_memo self a b s v s' :
  (get_mse_dist self a b s = (inr v, s') ->
   get_mse_dist self a b s' =
     (inr v, mkWstate (cos_sim_mat s') (mse_dist_mat s')
               (metric_calls s' ++ [MseDistCall a b])) /\
   get_mse_dist self b a s' =
     (inr v, mkWstate (cos_sim_mat s') (mse_dist_mat s')
               (metric_calls s' ++ [MseDistCall b a]))) /\
  (get_cos_sim self (Id a) (Id b) s = (inr v, s') ->
   get_cos_sim self (Id a) (Id b) s' =
     (inr v, mkWstate (cos_sim_mat s') (mse_dist_mat s')
               (metric_calls s' ++ [CosSimCall (Id a) (Id b)])) /\
   get_cos_sim self (Id b) (Id a) s' =
     (inr v, mkWstate (cos_sim_mat s') (mse_dist_mat s')
               (metric_calls s' ++ [CosSimCall (Id b) (Id a)]))).
Proof.
  split; intros H.
  - apply get_mse_dist_returned in H.
    rewrite !get_mse_dist_cases. cbv zeta.
    rewrite (Z.min_comm b a), (Z.max_comm b a), H. split; reflexivity.
  - apply get_cos_sim_returned in H.
    rewrite !get_cos_sim_cases. cbv zeta.
    rewrite (Z.min_comm b a), (Z.max_comm b a), H. split; reflexivity.
Qed.

(** X16: when the matrix has no row for the smaller word ID (as with the
    empty dict the constructor builds when there is no file), the metric
    function returns no value: the value it computes cannot be stored, and it
    raises KeyError (IndexError when an ID is outside the embeddings); the
    matrix is left as it was. *)
Theorem X16_missing_row self a b s :
  zdict_get (Z.min a b) (mse_dist_mat s) = None ->
  zdict_get (Z.min a b) (cos_sim_mat s) = None ->
  let m := get_mse_dist self a b s in
  let c := get_cos_sim self (Id a) (Id b) s in
  (exists e, fst m = inl e /\
     (seq_getitem (word_embeddings self) (Z.min a b) <> None ->
      seq_getitem (word_embeddings self) (Z.max a b) <> None ->
      e = KeyError (str_of_int (Z.min a b)))) /\
  mse_dist_mat (snd m) = mse_dist_mat s /\
  (exists e, fst c = inl e /\
     (seq_getitem (word_embeddings self) (Z.min a b) <> None ->
      seq_getitem (word_embeddings self) (Z.max a b) <> None ->
      e = KeyError (str_of_int (Z.min a b)))) /\
  cos_sim_mat (snd c) = cos_sim_mat s.
Proof.
  intros Hm Hc m c. subst m c.
  rewrite get_mse_dist_cases, get_cos_sim_cases. cbv zeta.
  rewrite (matrix_get_row _ (Z.max a b) _ Hm),
          (matrix_get_row _ (Z.max a b) _ Hc).
  destruct (seq_getitem (word_embeddings self) (Z.min a b)) as [e1|].
  - destruct (seq_getitem (word_embeddings self) (Z.max a b)) as [e2|].
    + rewrite (proj2 (matrix_set_row _ (Z.max a b) _ _) Hm),
              (proj2 (matrix_set_row _ (Z.max a b) _ _) Hc).
      repeat split; eexists; split; reflexivity || (intros; reflexivity).
    + repeat split; eexists; (split; [reflexivity|]); intros _ H;
        exfalso; now apply H.
  - repeat split; eexists; (split; [reflexivity|]); intros H;
      exfalso; now apply H.
Qed.

End MetricProperties.

(** ** [WordEmbeddingDistance._check_constraint] on one index *)

Section CheckConstraintProperties.

Import WordEmbeddingDistance.

Lemma check_indices_on_strs self rest a b s :
  check_indices self rest (Str a) (Str b) s =
  (match rest with
   | [] => inr true
   | _ :: _ => inl (AttributeError "'str' object has no attribute 'words'")
   end, s).
Proof. destruct rest; reflexivity. Qed.

(** One turn of the loop on two texts whose words at the index exist. *)
Lemma check_indices_turn self i rest x x_adv s wx wa :
  seq_getitem (words x) i = Some wx ->
  seq_getitem (words x_adv) i = Some wa ->
  check_indices self (i :: rest) (Text x) (Text x_adv) s =
  match dict_get (vocabulary_form self wx) (word_embedding_word2index self),
        dict_get (vocabulary_form self wa) (word_embedding_word2index self)
  with
  | Some x_id, Some x_adv_id =>
      match
        match min_cos_sim self with
        | Some threshold =>
            if truthy threshold then
              match get_cos_sim self (Id x_id) (Id x_adv_id) s with
              | (inl e, s1) => (inl e, s1)
              | (inr cos_sim, s1) => (inr (Qltb cos_sim threshold), s1)
              end
            else (inr false, s)
        | None => (inr false, s)
        end
      with
      | (inl e, s1) => (inl e, s1)
      | (inr true, s1) => (inr false, s1)
      | (inr false, s1) =>
          match
            match max_mse_dist self with
            | Some threshold =>
                if truthy threshold then
                  match get_mse_dist self x_id x_adv_id s1 with
                  | (inl e, s2) => (inl e, s2)
                  | (inr mse_dist, s2) => (inr (Qltb threshold mse_dist), s2)
                  end
                else (inr false, s1)
            | None => (inr false, s1)
            end
          with
          | (inl e, s2) => (inl e, s2)
          | (inr true, s2) => (inr false, s2)
          | (inr false, s2) =>
              check_indices self rest (Str (vocabulary_form self wx))
                (Str (vocabulary_form self wa)) s2
          end
      end
  | _, _ =>
      if include_unknown_words self then
        check_indices self rest (Str (vocabulary_form self wx))
          (Str (vocabulary_form self wa)) s
      else (inr false, s)
  end.
Proof.
  intros Hx Ha. cbn [check_indices]. unfold bind.
  cbn [get_word]. rewrite Hx, Ha. cbv beta iota delta [ret].
  fold (vocabulary_form self wx). fold (vocabulary_form self wa).
  destruct (dict_get (vocabulary_form self wx) _) as [x_id|];
    [|destruct (include_unknown_words self); reflexivity].
  destruct (dict_get (vocabulary_form self wa) _) as [x_adv_id|];
    [|destruct (include_unknown_words self); reflexivity].
  destruct (min_cos_sim self) as [qc|]; [destruct (truthy qc)|].
  - destruct (get_cos_sim self (Id x_id) (Id x_adv_id) s) as [[e|c] s1];
      [reflexivity|].
    destruct (Qltb c qc); [reflexivity|].
    destruct (max_mse_dist self) as [qm|]; [destruct (truthy qm)|];
      try reflexivity.
    destruct (get_mse_dist self x_id x_adv_id s1) as [[e|m] s2];
      [reflexivity|].
    destruct (Qltb qm m); reflexivity.
  - destruct (max_mse_dist self) as [qm|]; [destruct (truthy qm)|];
      try reflexivity.
    destruct (get_mse_dist self x_id x_adv_id s) as [[e|m] s2];
      [reflexivity|].
    destruct (Qltb qm m); reflexivity.
  - destruct (max_mse_dist self) as [qm|]; [destruct (truthy qm)|];
      try reflexivity.
    destruct (get_mse_dist self x_id x_adv_id s) as [[e|m] s2];
      [reflexivity|].
    destruct (Qltb qm m); reflexivity.
Qed.

(** X17: for a candidate with one modified index whose two words are in the
    vocabulary, with both thresholds set and not zero and both distances in
    the matrices, [_check_constraint] rejects the candidate exactly when
    [cos_sim < min_cos_sim] or [mse_dist > max_mse_dist], the two comparisons
    of the code; it reads the cosine first and, when that rejects, does not
    ask for the MSE distance; the matrices are not changed. *)
Theorem X17_decision self x x_adv s i wx wa x_id x_adv_id qc qm c m :
  newly_modified_indices x_adv = Some [i] ->
  seq_getitem (words x) i = Some wx ->
  seq_getitem (words x_adv) i = Some wa ->
  dict_get (vocabulary_form self wx) (word_embedding_word2index self)
    = Some x_id ->
  dict_get (vocabulary_form self wa) (word_embedding_word2index self)
    = Some x_adv_id ->
  min_cos_sim self = Some qc -> truthy qc = true ->
  max_mse_dist self = Some qm -> truthy qm = true ->
  matrix_get (Z.min x_id x_adv_id) (Z.max x_id x_adv_id) (cos_sim_mat s)
    = Some c ->
  matrix_get (Z.min x_id x_adv_id) (Z.max x_id x_adv_id) (mse_dist_mat s)
    = Some m ->
  let run := _check_constraint self x x_adv s in
  fst run = inr (negb (Qltb c qc || Qltb qm m)) /\
  cos_sim_mat (snd run) = cos_sim_mat s /\
  mse_dist_mat (snd run) = mse_dist_mat s /\
  metric_calls (snd run) =
    metric_calls s ++
    CosSimCall (Id x_id) (Id x_adv_id) ::
    (if Qltb c qc then [] else [MseDistCall x_id x_adv_id]).
Proof.
  intros Hidx Hx Ha Hix Hia Hqc Htc Hqm Htm Hc Hm run. subst run.
  unfold _check_constraint. rewrite Hidx.
  rewrite (check_indices_turn self i [] x x_adv s wx wa Hx Ha).
  rewrite Hix, Hia, Hqc, Htc, Hqm, Htm.
  rewrite get_cos_sim_cases. cbv zeta. rewrite Hc.
  destruct (Qltb c qc); cbn [negb orb].
  - repeat split.
  - rewrite get_mse_dist_cases. cbv zeta. cbn [mse_dist_mat]. rewrite Hm.
    destruct (Qltb qm m); cbn [negb]; [repeat split|].
    + cbn [snd metric_calls]. now rewrite <- app_assoc.
    + rewrite check_indices_on_strs. cbn [fst snd cos_sim_mat mse_dist_mat
        metric_calls]. repeat split. now rewrite <- app_assoc.
Qed.

(** X18: when a word at the first modified index is not in the vocabulary
    no metric is computed and the state is not changed: the candidate is
    rejected unless unknown words are included; when they are, the check
    accepts a candidate that has this one index, and raises AttributeError at
    the next index of any other. *)
Theorem X18_unknown_word self x x_adv s i rest wx wa :
  newly_modified_indices x_adv = Some (i :: rest) ->
  seq_getitem (words x) i = Some wx ->
  seq_getitem (words x_adv) i = Some wa ->
  dict_get (vocabulary_form self wx) (word_embedding_word2index self) = None \/
  dict_get (vocabulary_form self wa) (word_embedding_word2index self) = None ->
  _check_constraint self x x_adv s =
  (if include_unknown_words self then
     match rest with
     | [] => inr true
     | _ :: _ => inl (AttributeError "'str' object has no attribute 'words'")
     end
   else inr false, s).
Proof.
  intros Hidx Hx Ha Hunknown. unfold _check_constraint. rewrite Hidx.
  rewrite (check_indices_turn self i rest x x_adv s wx wa Hx Ha).
  assert (Hgoal :
    (if include_unknown_words self
     then check_indices self rest (Str (vocabulary_form self wx))
            (Str (vocabulary_form self wa)) s
     else (inr false, s)) =
    (if include_unknown_words self then
       match rest with
       | [] => inr true
       | _ :: _ => inl (AttributeError "'str' object has no attribute 'words'")
       end
     else inr false, s)).
  { rewrite check_indices_on_strs. now destruct (include_unknown_words self). }
  destruct Hunknown as [H|H]; rewrite H.
  - exact Hgoal.
  - destruct (dict_get (vocabulary_form self wx) _); exact Hgoal.
Qed.

Lemma lower_ascii_idempotent c : lower_ascii (lower_ascii c) = lower_ascii c.
Proof.
  destruct c as [[] [] [] [] [] [] [] []]; reflexivity.
Qed.

Lemma lower_idempotent w : lower (lower w) = lower w.
Proof.
  induction w as [|c w IH]; cbn [lower]; [reflexivity|].
  now rewrite lower_ascii_idempotent, IH.
Qed.

Lemma seq_getitem_map {A B : Type} (f : A -> B) (l : list A) i :
  seq_getitem (map f l) i = option_map f (seq_getitem l i).
Proof.
  unfold seq_getitem. rewrite length_map.
  destruct (0 <=? i)%Z; [apply nth_error_map|].
  destruct (- Z.of_nat (length l) <=? i)%Z; [apply nth_error_map | reflexivity].
Qed.

(** X19: with [cased] false the check ignores the case of the words: it
    gives the same result and leaves the same state on the two texts and on
    the two texts with every word put in lower case. *)
Theorem X19_case_insensitive self x x_adv s :
  cased self = false ->
  _check_constraint self (lowered x) (lowered x_adv) s =
  _check_constraint self x x_adv s.
Proof.
  intros Hcased. unfold _check_constraint.
  cbn [lowered newly_modified_indices].
  destruct (newly_modified_indices x_adv) as [[|i rest]|]; try reflexivity.
  destruct (seq_getitem (words x) i) as [wx|] eqn:Hx.
  - destruct (seq_getitem (words x_adv) i) as [wa|] eqn:Ha.
    + rewrite (check_indices_turn self i rest x x_adv s wx wa Hx Ha).
      rewrite (check_indices_turn self i rest (lowered x) (lowered x_adv) s
                 (lower wx) (lower wa)).
      * unfold vocabulary_form. rewrite Hcased, !lower_idempotent.
        reflexivity.
      * cbn [lowered words]. now rewrite seq_getitem_map, Hx.
      * cbn [lowered words]. now rewrite seq_getitem_map, Ha.
    + cbn [check_indices]. unfold bind. cbn [get_word lowered words].
      rewrite !seq_getitem_map, Hx, Ha. reflexivity.
  - cbn [check_indices]. unfold bind. cbn [get_word lowered words].
    rewrite !seq_getitem_map, Hx. reflexivity.
Qed.

Lemma get_cos_sim_log self a b s :
  metric_calls (snd (get_cos_sim self (Id a) (Id b) s)) =
  metric_calls s ++ [CosSimCall (Id a) (Id b)].
Proof.
  rewrite get_cos_sim_cases. cbv zeta.
  destruct (matrix_get _ _ (cos_sim_mat s)); [reflexivity|].
  destruct (seq_getitem _ (Z.min a b)); [|reflexivity].
  destruct (seq_getitem _ (Z.max a b)); [|reflexivity].
  destruct (matrix_set _ _ _ (cos_sim_mat s)); reflexivity.
Qed.

Lemma get_mse_dist_log self a b s :
  metric_calls (snd (get_mse_dist self a b s)) =
  metric_calls s ++ [MseDistCall a b].
Proof.
  rewrite get_mse_dist_cases. cbv zeta.
  destruct (matrix_get _ _ (mse_dist_mat s)); [reflexivity|].
  destruct (seq_getitem _ (Z.min a b)); [|reflexivity].
  destruct (seq_getitem _ (Z.max a b)); [|reflexivity].
  destruct (matrix_set _ _ _ (mse_dist_mat s)); reflexivity.
Qed.

(** X20: whatever the number of modified indices, one call of
    [_check_constraint] calls [get_cos_sim] at most once and then
    [get_mse_dist] at most once, both for the words at the first index; it
    never removes an entry from the log of calls. *)
Theorem X20_metric_calls self x x_adv s :
  exists new,
    metric_calls (snd (_check_constraint self x x_adv s)) =
      metric_calls s ++ new /\
    (new = [] \/
     (exists a b, new = [CosSimCall (Id a) (Id b)]) \/
     (exists a b, new = [MseDistCall a b]) \/
     (exists a b, new = [CosSimCall (Id a) (Id b); MseDistCall a b])).
Proof.
  unfold _check_constraint.
  destruct (newly_modified_indices x_adv) as [[|i rest]|];
    try (exists []; split; [cbn; now rewrite app_nil_r | now left]).
  destruct (seq_getitem (words x) i) as [wx|] eqn:Hx;
    [|exists []; split; [|now left];
      cbn [check_indices]; unfold bind; cbn [get_word]; rewrite Hx;
      cbn; now rewrite app_nil_r].
  destruct (seq_getitem (words x_adv) i) as [wa|] eqn:Ha;
    [|exists []; split; [|now left];
      cbn [check_indices]; unfold bind; cbn [get_word]; rewrite Hx, Ha;
      cbn; now rewrite app_nil_r].
  rewrite (check_indices_turn self i rest x x_adv s wx wa Hx Ha).
  assert (Hnone : forall b : exn + bool,
            metric_calls (snd (b, s)) = metric_calls s ++ [])
    by (intros; cbn; now rewrite app_nil_r).
  destruct (dict_get (vocabulary_form self wx) _) as [x_id|];
    [|exists []; split; [|now left];
      destruct (include_unknown_words self);
      [rewrite check_indices_on_strs|]; apply Hnone].
  destruct (dict_get (vocabulary_form self wa) _) as [x_adv_id|];
    [|exists []; split; [|now left];
      destruct (include_unknown_words self);
      [rewrite check_indices_on_strs|]; apply Hnone].
  assert (Hmse : forall s1 (pre : list metric_call),
    metric_calls s1 = metric_calls s ++ pre ->
    exists post,
      (post = [] \/ post = [MseDistCall x_id x_adv_id]) /\
      metric_calls
        (snd
           match
             match max_mse_dist self with
             | Some threshold =>
                 if truthy threshold then
                   match get_mse_dist self x_id x_adv_id s1 with
                   | (inl e, s2) => (inl e, s2)
                   | (inr mse_dist, s2) =>
                       (inr (Qltb threshold mse_dist), s2)
                   end
                 else (inr false, s1)
             | None => (inr false, s1)
             end
           with
           | (inl e, s2) => (inl e, s2)
           | (inr true, s2) => (inr false, s2)
           | (inr false, s2) =>
               check_indices self rest (Str (vocabulary_form self wx))
                 (Str (vocabulary_form self wa)) s2
           end) = metric_calls s ++ pre ++ post).
  { intros s1 pre Hs1.
    destruct (max_mse_dist self) as [qm|]; [destruct (truthy qm)|].
    - pose proof (get_mse_dist_log self x_id x_adv_id s1) as Hlog.
      destruct (get_mse_dist self x_id x_adv_id s1) as [[e|m] s2];
        cbn [snd] in Hlog; exists [MseDistCall x_id x_adv_id];
        (split; [now right|]).
      + cbn [snd]. now rewrite Hlog, Hs1, <- app_assoc.
      + destruct (Qltb qm m); [|rewrite check_indices_on_strs];
          cbn [snd]; now rewrite Hlog, Hs1, <- app_assoc.
    - exists []. split; [now left|]. rewrite check_indices_on_strs.
      cbn [snd]. now rewrite Hs1, app_nil_r.
    - exists []. split; [now left|]. rewrite check_indices_on_strs.
      cbn [snd]. now rewrite Hs1, app_nil_r. }
  destruct (min_cos_sim self) as [qc|]; [destruct (truthy qc)|].
  - pose proof (get_cos_sim_log self x_id x_adv_id s) as Hlog.
    destruct (get_cos_sim self (Id x_id) (Id x_adv_id) s) as [[e|c] s1];
      cbn [snd] in Hlog.
    + exists [CosSimCall (Id x_id) (Id x_adv_id)]. split; [exact Hlog|].
      right. left. eauto.
    + destruct (Qltb c qc).
      * exists [CosSimCall (Id x_id) (Id x_adv_id)]. split; [exact Hlog|].
        right. left. eauto.
      * destruct (Hmse s1 [CosSimCall (Id x_id) (Id x_adv_id)] Hlog)
          as (post & [->| ->] & Hpost); eexists; (split; [exact Hpost|]);
          cbn [app].
        -- right. left. eauto.
        -- right. right. right. eauto.
  - destruct (Hmse s [] (eq_sym (app_nil_r _))) as (post & [->| ->] & Hpost);
      eexists; (split; [exact Hpost|]); cbn [app].
    + now left.
    + right. right. left. eauto.
  - destruct (Hmse s [] (eq_sym (app_nil_r _))) as (post & [->| ->] & Hpost);
      eexists; (split; [exact Hpost|]); cbn [app].
    + now left.
    + right. right. left. eauto.
Qed.

(** X21: [extra_repr_keys] names [min_cos_sim] whenever it is not None and
    [max_mse_dist] only otherwise, while [_check_constraint] goes by
    truthiness: with [min_cos_sim] zero the keys name the cosine metric
    although the check never calls [get_cos_sim], and they do not name
    [max_mse_dist], whatever its value. *)
Theorem X21_reported_metric self zero x x_adv s :
  (zero == 0)%Q ->
  let self0 := with_min_cos_sim self (Some zero) in
  extra_repr_keys self0 =
    ["embedding_type"; "min_cos_sim"; "cased"; "include_unknown_words"]%string /\
  ~ In "max_mse_dist"%string (extra_repr_keys self0) /\
  cos_sim_untouched s (snd (_check_constraint self0 x x_adv s)).
Proof.
  intros Hzero self0. apply truthy_zero in Hzero.
  split; [reflexivity|]. split.
  - cbn. intros [H|[H|[H|[H|[]]]]]; discriminate.
  - subst self0. unfold _check_constraint.
    destruct (newly_modified_indices x_adv) as [indices|];
      [|apply cos_sim_untouched_refl].
    rewrite check_indices_falsy_min_cos_sim by exact Hzero.
    now apply check_indices_cos_sim_untouched.
Qed.

End CheckConstraintProperties.

(** ** [get_transformations] on a constructed engine *)

(** X22: on an engine that [__init__] returned, the guard of
    [get_transformations] does not fire: a transformation is bound, and the
    call is [filter_transformations] on what the transformation gives for the
    current text and the pre-transformation constraints of the constructor's
    argument, in their order. *)
Theorem X22_get_transformations_constructed goal_function_arg constraints_arg
    transformation_arg search_method_arg constraint_cache_size_arg self cache
    current_text original_text w :
  __init__ goal_function_arg constraints_arg transformation_arg
    search_method_arg constraint_cache_size_arg = inr (self, cache) ->
  exists T,
    transformation_arg = Some T /\
    get_transformations self current_text original_text w =
      filter_transformations self
        (transform T current_text (pre_constraints constraints_arg))
        current_text original_text w.
Proof.
  unfold __init__. intros H.
  destruct goal_function_arg as [g|]; [|discriminate].
  destruct search_method_arg as [s|]; [|discriminate].
  destruct transformation_arg as [T|]; [|discriminate].
  destruct (check_transformation_compatibility s T); [|discriminate].
  cbn [negb] in H. rewrite split_constraints_spec in H. unfold LRU.new in H.
  destruct (Z.leb_spec constraint_cache_size_arg 0); [discriminate|].
  inversion H; subst. clear H.
  exists T. split; reflexivity.
Qed.

(** ** The further properties at concrete inputs *)

Lemma X1_witness :
  exists self cache,
    __init__ (Some Ex.goal) [Post Ex.changed] (Some Ex.swaps)
      (Some Ex.giving_up) 8 = inr (self, cache).
Proof.
  apply (proj2 (X1_init_succeeds_iff (Some Ex.goal) [Post Ex.changed]
                  (Some Ex.swaps) (Some Ex.giving_up) 8)).
  exists Ex.goal, Ex.swaps, Ex.giving_up. repeat split.
Defined.

Lemma X2_witness :
  __init__ (Some Ex.goal)
    [Post Ex.changed; Pre (mkPreTransformationConstraint "stopwords");
     Post Ex.off_original]
    (Some Ex.swaps) (Some Ex.giving_up) 8
  = inr (mkAttack Ex.goal Ex.giving_up (Some Ex.swaps) true
           [Ex.changed; Ex.off_original]
           [mkPreTransformationConstraint "stopwords"] 8,
         LRU.mk 8 []) /\
  constraints
    (mkAttack Ex.goal Ex.giving_up (Some Ex.swaps) true
       [Ex.changed; Ex.off_original]
       [mkPreTransformationConstraint "stopwords"] 8)
  = post_constraints
      [Post Ex.changed; Pre (mkPreTransformationConstraint "stopwords");
       Post Ex.off_original].
Proof.
  assert (H : __init__ (Some Ex.goal)
    [Post Ex.changed; Pre (mkPreTransformationConstraint "stopwords");
     Post Ex.off_original]
    (Some Ex.swaps) (Some Ex.giving_up) 8
  = inr (mkAttack Ex.goal Ex.giving_up (Some Ex.swaps) true
           [Ex.changed; Ex.off_original]
           [mkPreTransformationConstraint "stopwords"] 8,
         LRU.mk 8 [])) by reflexivity.
  split; [exact H|].
  exact (proj1 (proj2 (proj2 (proj2 (X2_init_engine _ _ _ _ _ _ _ H))))).
Defined.

Lemma X3_witness :
  __init__ (Some Ex.goal) [] None (Some Ex.giving_up) 0
    = inl (NameError "Cannot instantiate attack without transformation") /\
  (((exists msg,
       NameError "Cannot instantiate attack without transformation"
       = NameError msg) /\
    (Some Ex.goal = None \/ @None Transformation = None \/
     Some Ex.giving_up = None)) \/
   ((exists msg,
       NameError "Cannot instantiate attack without transformation"
       = ValueError msg) /\
    Some Ex.goal <> None /\ @None Transformation <> None /\
    Some Ex.giving_up <> None /\
    (forall t s, None = Some t -> Some Ex.giving_up = Some s ->
       check_transformation_compatibility s t = false \/ (0 <= 0)%Z))).
Proof.
  assert (H : __init__ (Some Ex.goal) [] None (Some Ex.giving_up) 0
    = inl (NameError "Cannot instantiate attack without transformation"))
    by reflexivity.
  split; [exact H|].
  exact (X3_init_errors _ _ _ _ _ _ H).
Defined.

Lemma X4_witness :
  let run := filter_transformations (Ex.engine [Ex.changed] 8)
               Ex.hats_dogs_cats Ex.cats None (Ex.fresh 8) in
  run = (inr [Ex.T "I like dogs"; Ex.T "I like hats"], snd run) /\
  sorted_by_text [Ex.T "I like dogs"; Ex.T "I like hats"] /\
  (forall t, In t Ex.hats_dogs_cats -> cached (snd run) Ex.cats t <> None).
Proof.
  intros run.
  assert (H : run = (inr [Ex.T "I like dogs"; Ex.T "I like hats"], snd run))
    by reflexivity.
  split; [exact H|].
  destruct (X4_filter_transformations_returns _ _ _ _ _ _ _ H)
    as (Hsorted & _ & _ & Hall).
  split; assumption.
Defined.

Lemma X5_witness :
  LRU.wf (cache_of (Ex.fresh 8)) /\
  length (nodup LRU.key_eq_dec (candidate_keys Ex.cats Ex.hats_dogs_cats))
    <= LRU.size (cache_of (Ex.fresh 8)).
Proof.
  assert (Hwf : LRU.wf (cache_of (Ex.fresh 8))) by (apply wf_new; lia).
  split; [exact Hwf|].
  apply (X5_filter_transformations_overflow (Ex.engine [Ex.changed] 8)
           Ex.hats_dogs_cats Ex.cats None (Ex.fresh 8)
           [Ex.T "I like dogs"; Ex.T "I like hats"]
           (snd (filter_transformations (Ex.engine [Ex.changed] 8)
                   Ex.hats_dogs_cats Ex.cats None (Ex.fresh 8))) Hwf).
  reflexivity.
Defined.

Lemma X9_witness :
  let initial := mkGoalFunctionResult Ex.cats 0%Z false in
  let run := attack_one (Ex.engine [] 8) initial (Ex.fresh 8) in
  run = (inr (FailedAttackResult initial initial 2), snd run) /\
  search_calls (snd run) = search_calls (Ex.fresh 8) ++ [initial].
Proof.
  intros initial run.
  assert (H : run = (inr (FailedAttackResult initial initial 2), snd run))
    by reflexivity.
  split; [exact H|].
  exact (proj2 (proj2 (X9_attack_one_outcome _ _ _ _ _ H))).
Defined.

Lemma X6_witness :
  0 < 1 /\
  length (LRU.items
            (cache_of
               (run_filter_calls (Ex.engine [Ex.changed] 1)
                  [mkFilterCall Ex.hats_dogs_cats Ex.cats None]
                  (start (LRU.mk 1 []) 0)))) <= 1.
Proof.
  assert (H : 0 < 1) by lia.
  split; [exact H|].
  exact (proj1 (proj2 (X6_cache_invariant (Ex.engine [Ex.changed] 1)
                         [mkFilterCall Ex.hats_dogs_cats Ex.cats None]
                         1 0 H))).
Defined.

Lemma X10_witness :
  (forall i, In i (initial_indices Ex.reviews None) ->
     seq_getitem (examples Ex.reviews) i <> None) /\
  exists results w',
    _get_examples_from_dataset (Ex.engine [Ex.changed] 8) Ex.reviews None
      (Ex.fresh 8) = ((results, None), w') /\
    Forall2 (example_of (Ex.engine [Ex.changed] 8) Ex.reviews)
      (initial_indices Ex.reviews None) results /\
    search_calls w' = search_calls (Ex.fresh 8) /\
    constraint_calls w' = constraint_calls (Ex.fresh 8).
Proof.
  assert (H : forall i, In i (initial_indices Ex.reviews None) ->
                seq_getitem (examples Ex.reviews) i <> None)
    by (intros i Hi; now apply range_in_bounds).
  split; [exact H|].
  exact (X10_examples_from_dataset (Ex.engine [Ex.changed] 8) Ex.reviews None
           (Ex.fresh 8) H).
Defined.

Lemma X11_witness :
  examples Ex.no_examples = [] /\
  attack_dataset (Ex.engine [Ex.changed] 8) Ex.no_examples None (Ex.fresh 8)
    = (([], None), Ex.fresh 8) /\
  attack_dataset (Ex.engine [Ex.changed] 8) Ex.no_examples (Some [0%Z])
    (Ex.fresh 8)
    = (([], Some (IndexError (out_of_bounds_message Ex.no_examples 0))),
       Ex.fresh 8).
Proof.
  assert (H : examples Ex.no_examples = []) by reflexivity.
  split; [exact H|].
  destruct (X11_empty_dataset (Ex.engine [Ex.changed] 8) Ex.no_examples
              (Ex.fresh 8) H) as (Hnone & Hsome).
  split.
  - exact (proj1 (Hnone None (or_introl eq_refl))).
  - exact (proj1 (Hsome 0%Z [])).
Defined.

Lemma X15_witness :
  let s' :=
    WordEmbeddingDistance.mkWstate [(0%Z, [])] [(0%Z, [(1%Z, 2%Q)])]
      [WordEmbeddingDistance.MseDistCall 0 1] in
  WordEmbeddingDistance.get_mse_dist Ex.paragram 0 1 Ex.empty_rows
    = (inr 2%Q, s') /\
  fst (WordEmbeddingDistance.get_mse_dist Ex.paragram 1 0 s') = inr 2%Q.
Proof.
  intros s'.
  assert (H : WordEmbeddingDistance.get_mse_dist Ex.paragram 0 1 Ex.empty_rows
              = (inr 2%Q, s')) by reflexivity.
  split; [exact H|].
  destruct (proj1 (X15_metric_memo Ex.paragram 0 1 Ex.empty_rows 2%Q s') H)
    as (_ & Hswapped).
  rewrite Hswapped. reflexivity.
Defined.

Lemma X16_witness :
  WordEmbeddingDistance.zdict_get (Z.min 0 1)
    (WordEmbeddingDistance.mse_dist_mat Ex.no_metrics) = None /\
  WordEmbeddingDistance.zdict_get (Z.min 0 1)
    (WordEmbeddingDistance.cos_sim_mat Ex.no_metrics) = None /\
  WordEmbeddingDistance.mse_dist_mat
    (snd (WordEmbeddingDistance.get_mse_dist Ex.paragram 0 1 Ex.no_metrics))
  = WordEmbeddingDistance.mse_dist_mat Ex.no_metrics.
Proof.
  assert (Hm : WordEmbeddingDistance.zdict_get (Z.min 0 1)
                 (WordEmbeddingDistance.mse_dist_mat Ex.no_metrics) = None)
    by reflexivity.
  assert (Hc : WordEmbeddingDistance.zdict_get (Z.min 0 1)
                 (WordEmbeddingDistance.cos_sim_mat Ex.no_metrics) = None)
    by reflexivity.
  split; [exact Hm|]. split; [exact Hc|].
  exact (proj1 (proj2 (X16_missing_row Ex.paragram 0 1 Ex.no_metrics Hm Hc))).
Defined.

Lemma X17_witness :
  fst (WordEmbeddingDistance._check_constraint Ex.thresholds Ex.good_film
         Ex.great_film Ex.precomputed)
  = inr (negb (WordEmbeddingDistance.Qltb (9 # 10) (8 # 10)
               || WordEmbeddingDistance.Qltb 1 (1 # 2))).
Proof.
  refine (proj1 (X17_decision Ex.thresholds Ex.good_film Ex.great_film
                   Ex.precomputed 0%Z "Good" "Great" 0%Z 1%Z (8 # 10)%Q 1%Q
                   (9 # 10)%Q (1 # 2)%Q _ _ _ _ _ _ _ _ _ _ _));
    reflexivity.
Defined.

Lemma X18_witness :
  WordEmbeddingDistance._check_constraint Ex.paragram Ex.good_film
    (WordEmbeddingDistance.with_indices Ex.great_film [1%Z]) Ex.no_metrics
  = (inr true, Ex.no_metrics).
Proof.
  refine (X18_unknown_word Ex.paragram Ex.good_film
            (WordEmbeddingDistance.with_indices Ex.great_film [1%Z])
            Ex.no_metrics 1%Z [] "film" "film" _ _ _ _);
    try reflexivity.
  left. reflexivity.
Defined.

Lemma X19_witness :
  WordEmbeddingDistance.cased Ex.paragram = false /\
  WordEmbeddingDistance._check_constraint Ex.paragram (lowered Ex.good_film)
    (lowered Ex.great_film) Ex.no_metrics
  = WordEmbeddingDistance._check_constraint Ex.paragram Ex.good_film
      Ex.great_film Ex.no_metrics.
Proof.
  assert (H : WordEmbeddingDistance.cased Ex.paragram = false) by reflexivity.
  split; [exact H|].
  exact (X19_case_insensitive Ex.paragram Ex.good_film Ex.great_film
           Ex.no_metrics H).
Defined.

Lemma X21_witness :
  (0 == 0)%Q /\
  extra_repr_keys
    (WordEmbeddingDistance.with_min_cos_sim Ex.thresholds (Some 0%Q))
  = ["embedding_type"; "min_cos_sim"; "cased"; "include_unknown_words"]%string.
Proof.
  assert (H : (0 == 0)%Q) by reflexivity.
  split; [exact H|].
  exact (proj1 (X21_reported_metric Ex.thresholds 0%Q Ex.good_film
                  Ex.great_film Ex.precomputed H)).
Defined.

Lemma X22_witness :
  __init__ (Some Ex.goal) [Post Ex.changed] (Some Ex.swaps)
    (Some Ex.giving_up) 8
  = inr (Ex.engine [Ex.changed] 8, LRU.mk 8 []) /\
  get_transformations (Ex.engine [Ex.changed] 8) Ex.cats None (Ex.fresh 8)
  = filter_transformations (Ex.engine [Ex.changed] 8)
      (transform Ex.swaps Ex.cats (pre_constraints [Post Ex.changed]))
      Ex.cats None (Ex.fresh 8).
Proof.
  assert (H : __init__ (Some Ex.goal) [Post Ex.changed] (Some Ex.swaps)
                (Some Ex.giving_up) 8
              = inr (Ex.engine [Ex.changed] 8, LRU.mk 8 [])) by reflexivity.
  split; [exact H|].
  destruct (X22_get_transformations_constructed _ _ _ _ _ _ _ Ex.cats None
              (Ex.fresh 8) H) as (T & HT & Hrun).
  inversion HT; subst. exact Hrun.
Defined.

(** The example of the spec: of the candidates "I like hats", "I like
    dogs" and "I like cats" for the current text "I like cats", the
    constraint that rejects the current text leaves the first two, returned
    in sorted order. *)
Lemma X23_witness :
  let run := filter_transformations (Ex.engine [Ex.changed] 8)
               Ex.hats_dogs_cats Ex.cats None (Ex.fresh 8) in
  run = (inr [Ex.T "I like dogs"; Ex.T "I like hats"], snd run) /\
  [Ex.T "I like dogs"; Ex.T "I like hats"] =
    sort_by_text
      (filter (passes (Ex.engine [Ex.changed] 8) Ex.cats None)
         Ex.hats_dogs_cats) /\
  get_transformations (Ex.engine [Ex.changed] 8) Ex.cats None (Ex.fresh 8)
    = (inr [Ex.T "I like dogs"; Ex.T "I like hats"], snd run).
Proof.
  intros run.
  assert (H : run = (inr [Ex.T "I like dogs"; Ex.T "I like hats"], snd run))
    by reflexivity.
  split; [exact H|].
  destruct (X23_returned_output (Ex.engine [Ex.changed] 8) Ex.hats_dogs_cats
              Ex.cats None (Ex.fresh 8) _ _ H) as (Hout & _ & _ & _ & Hget).
  - intros t b _ Hb. discriminate Hb.
  - intros t u _ _. apply changed_by_text.
  - split; [exact Hout|]. apply (Hget Ex.swaps); reflexivity.
Defined.
